(** * chat-app: durable chat workflows and their HTTP handlers

    A shallow embedding of [models/models.go], [migrations/001_init.sql],
    [services/vllm.go], [workflows/chat.go] and [handlers/chat.go], together
    with a model of the durable workflow engine the application calls
    ([dbos.RunAsStep], [dbos.RunWorkflow], [handle.GetResult]).  The engine is
    a third-party dependency whose code is not part of the repository; it is
    modelled from the specification of the engine (sections 3 and 4). *)

From stdpp Require Import gmap strings list fin_maps sorting pretty relations.

Local Open Scope string_scope.
Local Open Scope list_scope.

(** ** Go values *)

(** [uuid.UUID] is a 128-bit value, [time.Time] an instant, and a Go [error]
    is represented by the text its [Error()] method returns. *)
Definition UUID := N.
Definition Time := Z.
Definition error := string.

(** A Go slice is either [nil] or a (possibly empty) backing array.  The two
    differ once encoded as JSON: [nil] is printed [null], an empty slice
    [[]]. *)
Inductive slice (A : Type) : Type :=
  | nil_slice
  | mk_slice (elems : list A).
Arguments nil_slice {A}.
Arguments mk_slice {A} elems.

Definition elems {A} (s : slice A) : list A :=
  match s with
  | nil_slice => []
  | mk_slice l => l
  end.

(** [append(s, x)] *)
Definition append {A} (s : slice A) (x : A) : slice A :=
  mk_slice (elems s ++ [x]).

(** [for ... { s = append(s, x) }] over the elements of [l]. *)
Definition append_all {A} (s : slice A) (l : list A) : slice A :=
  foldl append s l.

(** ** models/models.go *)

Record Conversation := {
  c_ID : UUID;
  c_CreatedAt : Time
}.

Record Message := {
  ID : UUID;
  ConversationID : UUID;
  Role : string;
  Content : string;
  CreatedAt : Time
}.

Record SendMessageRequest := {
  req_Content : string
}.

Record ChatResponse := {
  resp_UserMessage : Message;
  resp_AssistantMessage : Message
}.

#[global] Instance Conversation_eq_dec : EqDecision Conversation.
Proof. solve_decision. Defined.
#[global] Instance Message_eq_dec : EqDecision Message.
Proof. solve_decision. Defined.

(** The zero values [models.Message{}] and [models.Conversation{}]. *)
Definition zero_Message : Message :=
  {| ID := 0%N; ConversationID := 0%N; Role := ""; Content := "";
     CreatedAt := 0%Z |}.
Definition zero_Conversation : Conversation :=
  {| c_ID := 0%N; c_CreatedAt := 0%Z |}.

(** ** The outside world: PostgreSQL, the vLLM server, entropy and the clock *)

(** migrations/001_init.sql: both tables have [id] as primary key, so a
    table is a finite map from the key to the remaining columns.  Only this
    application writes the tables and it always supplies every column, so the
    columns are not nullable here. *)
Record MessageRow := {
  row_conversation_id : UUID;
  row_role : string;
  row_content : string;
  row_created_at : Time
}.

Record VLLMMessage := {
  vllm_Role : string;
  vllm_Content : string
}.

#[global] Instance VLLMMessage_eq_dec : EqDecision VLLMMessage.
Proof. solve_decision. Defined.

(** What comes back from [s.client.Do(req)] followed by [io.ReadAll]: the
    transport fails, reading the body fails, or there is a status code and a
    body; [decoded] is what [json.Unmarshal] makes of that body (the
    [choices[i].message.content] of a [VLLMResponse], or a decoding error). *)
Inductive HTTPOutcome :=
  | SendFailed (e : error)
  | ReadFailed (e : error)
  | Responded (status : nat) (body : string) (decoded : list string + error).

(** Every call that leaves the process is logged, with whether it
    succeeded. *)
Inductive Effect :=
  | SelectMessages (conversationID : UUID)
  | InsertMessage (msg : Message)
  | InsertConversation (conv : Conversation)
  | DeleteMessages (conversationID : UUID)
  | DeleteConversationRow (id : UUID)
  | SelectConversations
  | ConversationExists (id : UUID)
  | PostChatCompletions (messages : list VLLMMessage).

(** The world holds the two tables, the sources of the values the program
    cannot choose (random UUIDs, clock readings, database faults, answers of
    the model server) and the log of external calls.  The [n]-th external
    call is the one made when [n] calls are in the log. *)
Record World := {
  conversations : gmap UUID Time;
  messages : gmap UUID MessageRow;
  uuid_source : nat → UUID;
  uuids_drawn : nat;
  time_source : nat → Time;
  time_reads : nat;
  fault : nat → option error;
  server : nat → HTTPOutcome;
  effects : list (Effect * bool)
}.

Definition set_conversations (t : gmap UUID Time) (w : World) : World :=
  {| conversations := t; messages := messages w;
     uuid_source := uuid_source w; uuids_drawn := uuids_drawn w;
     time_source := time_source w; time_reads := time_reads w;
     fault := fault w; server := server w; effects := effects w |}.

Definition set_messages (t : gmap UUID MessageRow) (w : World) : World :=
  {| conversations := conversations w; messages := t;
     uuid_source := uuid_source w; uuids_drawn := uuids_drawn w;
     time_source := time_source w; time_reads := time_reads w;
     fault := fault w; server := server w; effects := effects w |}.

Definition log_effect (ef : Effect) (ok : bool) (w : World) : World :=
  {| conversations := conversations w; messages := messages w;
     uuid_source := uuid_source w; uuids_drawn := uuids_drawn w;
     time_source := time_source w; time_reads := time_reads w;
     fault := fault w; server := server w;
     effects := effects w ++ [(ef, ok)] |}.

(** [uuid.New()]: the next draw of the random source. *)
Definition uuid_New (w : World) : UUID * World :=
  (uuid_source w (uuids_drawn w),
   {| conversations := conversations w; messages := messages w;
      uuid_source := uuid_source w; uuids_drawn := S (uuids_drawn w);
      time_source := time_source w; time_reads := time_reads w;
      fault := fault w; server := server w; effects := effects w |}).

(** [time.Now()] *)
Definition time_Now (w : World) : Time * World :=
  (time_source w (time_reads w),
   {| conversations := conversations w; messages := messages w;
      uuid_source := uuid_source w; uuids_drawn := uuids_drawn w;
      time_source := time_source w; time_reads := S (time_reads w);
      fault := fault w; server := server w; effects := effects w |}).

(** The fault, if any, that hits the next external call. *)
Definition next_fault (w : World) : option error :=
  fault w (length (effects w)).

(** *** The [created_at] columns

    migrations/001_init.sql declares both [created_at] columns [TIMESTAMP]:
    such a column keeps microseconds and no time zone, and a value read from
    it carries no monotonic clock reading.  So for a [time.Time] [t] written
    to it, what the row holds, what [ORDER BY created_at] compares and what
    every [SELECT] gives back is [timestamp_column t], which need not be
    [t].  The function belongs to PostgreSQL and the driver; nothing is
    assumed of it. *)
Class TimestampColumn := timestamp_column : Time → Time.

Section chat_app.
Context {column : TimestampColumn}.

(** *** SQL statements of the application *)

(** [rows.Scan(&msg.ID, &msg.ConversationID, &msg.Role, &msg.Content,
    &msg.CreatedAt)]: the columns as the row holds them. *)
Definition scan_message (r : UUID * MessageRow) : Message :=
  {| ID := r.1; ConversationID := row_conversation_id r.2;
     Role := row_role r.2; Content := row_content r.2;
     CreatedAt := row_created_at r.2 |}.

(** The row that [INSERT INTO messages] leaves in the table for the values
    of [m]. *)
Definition row_of (m : Message) : MessageRow :=
  {| row_conversation_id := ConversationID m; row_role := Role m;
     row_content := Content m;
     row_created_at := timestamp_column (CreatedAt m) |}.

(** [rows.Scan(&conv.ID, &conv.CreatedAt)]: the columns as the row holds
    them. *)
Definition scan_conversation (r : UUID * Time) : Conversation :=
  {| c_ID := r.1; c_CreatedAt := r.2 |}.

Definition created_le (a b : Message) : Prop := (CreatedAt a ≤ CreatedAt b)%Z.
Definition created_ge (a b : Conversation) : Prop :=
  (c_CreatedAt b ≤ c_CreatedAt a)%Z.

#[global] Instance created_le_dec a b : Decision (created_le a b).
Proof. unfold created_le. apply _. Defined.
#[global] Instance created_ge_dec a b : Decision (created_ge a b).
Proof. unfold created_ge. apply _. Defined.

(** [SELECT id, conversation_id, role, content, created_at FROM messages
     WHERE conversation_id = $1 ORDER BY created_at ASC] *)
Definition select_messages (cid : UUID) (t : gmap UUID MessageRow)
  : list Message :=
  merge_sort created_le
    (filter (λ m, ConversationID m = cid) (scan_message <$> map_to_list t)).

(** [SELECT id, created_at FROM conversations ORDER BY created_at DESC] *)
Definition select_conversations (t : gmap UUID Time) : list Conversation :=
  merge_sort created_ge (scan_conversation <$> map_to_list t).

Definition pk_violation (table : string) : error :=
  "pq: duplicate key value violates unique constraint " +:+ table +:+ "_pkey".
Definition fk_violation (table : string) : error :=
  "pq: insert or update on table " +:+ table
  +:+ " violates foreign key constraint".
Definition fk_restrict (table : string) : error :=
  "pq: update or delete on table " +:+ table
  +:+ " violates foreign key constraint".

(** [QueryContext(ctx, "SELECT ... FROM messages WHERE conversation_id = $1
    ORDER BY created_at ASC", conversationID)] *)
Definition query_messages (cid : UUID) (w : World)
  : (list Message + error) * World :=
  match next_fault w with
  | Some e => (inr e, log_effect (SelectMessages cid) false w)
  | None =>
      (inl (select_messages cid (messages w)),
       log_effect (SelectMessages cid) true w)
  end.

(** [QueryContext(ctx, "SELECT id, created_at FROM conversations ORDER BY
    created_at DESC")] *)
Definition query_conversations (w : World)
  : (list Conversation + error) * World :=
  match next_fault w with
  | Some e => (inr e, log_effect SelectConversations false w)
  | None =>
      (inl (select_conversations (conversations w)),
       log_effect SelectConversations true w)
  end.

(** [QueryRowContext(ctx, "SELECT EXISTS(SELECT 1 FROM conversations WHERE
    id = $1)", id).Scan(&exists)] *)
Definition query_exists (id : UUID) (w : World) : (bool + error) * World :=
  match next_fault w with
  | Some e => (inr e, log_effect (ConversationExists id) false w)
  | None =>
      (inl (bool_decide (is_Some (conversations w !! id))),
       log_effect (ConversationExists id) true w)
  end.

(** [ExecContext(ctx, "INSERT INTO messages (id, conversation_id, role,
    content, created_at) VALUES ($1, $2, $3, $4, $5)", ...)]: refused when
    the primary key is taken or the conversation is missing. *)
Definition exec_insert_message (m : Message) (w : World)
  : option error * World :=
  match next_fault w with
  | Some e => (Some e, log_effect (InsertMessage m) false w)
  | None =>
      if decide (is_Some (messages w !! ID m)) then
        (Some (pk_violation "messages"), log_effect (InsertMessage m) false w)
      else if decide (conversations w !! ConversationID m = None) then
        (Some (fk_violation "messages"), log_effect (InsertMessage m) false w)
      else
        (None,
         log_effect (InsertMessage m) true
           (set_messages (<[ID m := row_of m]> (messages w)) w))
  end.

(** [ExecContext(stepCtx, "INSERT INTO conversations (id, created_at) VALUES
    ($1, $2)", id, now)] *)
Definition exec_insert_conversation (c : Conversation) (w : World)
  : option error * World :=
  match next_fault w with
  | Some e => (Some e, log_effect (InsertConversation c) false w)
  | None =>
      if decide (is_Some (conversations w !! c_ID c)) then
        (Some (pk_violation "conversations"),
         log_effect (InsertConversation c) false w)
      else
        (None,
         log_effect (InsertConversation c) true
           (set_conversations
              (<[c_ID c := timestamp_column (c_CreatedAt c)]> (conversations w))
              w))
  end.

(** [ExecContext(stepCtx, "DELETE FROM messages WHERE conversation_id = $1",
    conversationID)] *)
Definition exec_delete_messages (cid : UUID) (w : World)
  : option error * World :=
  match next_fault w with
  | Some e => (Some e, log_effect (DeleteMessages cid) false w)
  | None =>
      (None,
       log_effect (DeleteMessages cid) true
         (set_messages
            (filter (λ kv, row_conversation_id kv.2 ≠ cid) (messages w)) w))
  end.

(** [ExecContext(stepCtx, "DELETE FROM conversations WHERE id = $1",
    conversationID)]: refused while a message still references the row. *)
Definition exec_delete_conversation (cid : UUID) (w : World)
  : option error * World :=
  match next_fault w with
  | Some e => (Some e, log_effect (DeleteConversationRow cid) false w)
  | None =>
      if decide (filter (λ kv, row_conversation_id kv.2 = cid) (messages w) = ∅)
      then
        (None,
         log_effect (DeleteConversationRow cid) true
           (set_conversations (delete cid (conversations w)) w))
      else
        (Some (fk_restrict "conversations"),
         log_effect (DeleteConversationRow cid) false w)
  end.

(** ** services/vllm.go *)

Definition to_vllm (msg : Message) : VLLMMessage :=
  {| vllm_Role := Role msg; vllm_Content := Content msg |}.

(** The request body [Chat] builds: the history, then the new user
    message. *)
Definition vllm_messages (messages : slice Message) (userMessage : string)
  : list VLLMMessage :=
  (to_vllm <$> elems messages)
  ++ [{| vllm_Role := "user"; vllm_Content := userMessage |}].

(** [func (s *VLLMService) Chat(messages []models.Message, userMessage
    string) (string, error)].  Encoding the request and building the
    [http.Request] cannot fail for a well-formed base URL. *)
Definition Chat (messages : slice Message) (userMessage : string) (w : World)
  : (string + error) * World :=
  let vllmMessages := vllm_messages messages userMessage in
  let call := PostChatCompletions vllmMessages in
  match server w (length (effects w)) with
  | SendFailed e =>
      (inr ("failed to send request to vLLM: " +:+ e), log_effect call false w)
  | ReadFailed e =>
      (inr ("failed to read response: " +:+ e), log_effect call false w)
  | Responded status body decoded =>
      if decide (status ≠ 200) then
        (inr ("vLLM API error (status " +:+ pretty status +:+ "): " +:+ body),
         log_effect call false w)
      else
        match decoded with
        | inr e =>
            (inr ("failed to parse response: " +:+ e), log_effect call false w)
        | inl [] => (inr "no response from vLLM", log_effect call false w)
        | inl (choice :: _) => (inl choice, log_effect call true w)
        end
  end.

(** ** The durable workflow engine *)

(** Serialized step outputs, workflow inputs and workflow outputs. *)
Record SendMessageInput := {
  in_ConversationID : UUID;
  in_Content : string
}.

Record SendMessageOutput := {
  UserMessage : Message;
  AssistantMessage : Message
}.

Inductive Val :=
  | VNone
  | VBool (b : bool)
  | VString (s : string)
  | VUUID (u : UUID)
  | VMessage (m : Message)
  | VMessages (l : slice Message)
  | VConversation (c : Conversation)
  | VSendMessageInput (i : SendMessageInput)
  | VSendMessageOutput (o : SendMessageOutput).

(** The Go types that travel through the engine, with their zero value. *)
Class Serial (T : Type) := {
  encode : T → Val;
  decode : Val → option T;
  zero : T;
  decode_encode : ∀ t, decode (encode t) = Some t
}.

#[global, refine] Instance Serial_bool : Serial bool :=
  {| encode := VBool;
     decode v := match v with VBool b => Some b | _ => None end;
     zero := false |}.
Proof. done. Defined.

#[global, refine] Instance Serial_string : Serial string :=
  {| encode := VString;
     decode v := match v with VString s => Some s | _ => None end;
     zero := "" |}.
Proof. done. Defined.

#[global, refine] Instance Serial_UUID : Serial UUID :=
  {| encode := VUUID;
     decode v := match v with VUUID u => Some u | _ => None end;
     zero := 0%N |}.
Proof. done. Defined.

#[global, refine] Instance Serial_Message : Serial Message :=
  {| encode := VMessage;
     decode v := match v with VMessage m => Some m | _ => None end;
     zero := zero_Message |}.
Proof. done. Defined.

#[global, refine] Instance Serial_Messages : Serial (slice Message) :=
  {| encode := VMessages;
     decode v := match v with VMessages l => Some l | _ => None end;
     zero := nil_slice |}.
Proof. done. Defined.

#[global, refine] Instance Serial_Conversation : Serial Conversation :=
  {| encode := VConversation;
     decode v := match v with VConversation c => Some c | _ => None end;
     zero := zero_Conversation |}.
Proof. done. Defined.

#[global, refine] Instance Serial_SendMessageInput : Serial SendMessageInput :=
  {| encode := VSendMessageInput;
     decode v := match v with VSendMessageInput i => Some i | _ => None end;
     zero := {| in_ConversationID := 0%N; in_Content := "" |} |}.
Proof. done. Defined.

#[global, refine] Instance Serial_SendMessageOutput
  : Serial SendMessageOutput :=
  {| encode := VSendMessageOutput;
     decode v := match v with VSendMessageOutput o => Some o | _ => None end;
     zero := {| UserMessage := zero_Message;
                AssistantMessage := zero_Message |} |}.
Proof. done. Defined.

(** Modelled from the spec: the WorkflowExecution and StepRecord rows of the
    engine (section 3).  [output] and [error_detail] exist only in the
    terminal states, a step's [output] only on success; the timestamps play
    no part in the engine's decisions and are left out. *)
Inductive Status := PENDING | RUNNING | SUCCESS | ERROR.

(** Modelled from the spec: the state of an execution row; [output] and
    [error_detail] are populated only in the terminal states. *)
Inductive ExecState :=
  | Pending
  | Running
  | Succeeded (output : Val)
  | Failed (error_detail : error).

(** Modelled from the spec: the [status] column of an execution. *)
Definition status_of (s : ExecState) : Status :=
  match s with
  | Pending => PENDING
  | Running => RUNNING
  | Succeeded _ => SUCCESS
  | Failed _ => ERROR
  end.

(** Modelled from the spec: SUCCESS and ERROR are the terminal states. *)
Definition terminal (s : ExecState) : bool :=
  match s with
  | Succeeded _ | Failed _ => true
  | Pending | Running => false
  end.

(** Modelled from the spec: the WorkflowExecution row (section 3), keyed by
    its id in the store. *)
Record WorkflowExecution := {
  workflow_name : string;
  input : Val;
  state : ExecState
}.

(** Modelled from the spec: the status of an execution row. *)
Definition status (e : WorkflowExecution) : Status := status_of (state e).

(** Modelled from the spec: the status of a StepRecord with the output
    that is present only on success. *)
Inductive StepOutcome :=
  | StepRunning
  | StepSuccess (output : Val)
  | StepError (detail : error).

(** Modelled from the spec: the StepRecord row (section 3), keyed by
    [(workflow_id, step_number)] in the store. *)
Record StepRecord := {
  outcome : StepOutcome;
  attempt_count : nat
}.

(** Modelled from the spec: the Persistence Store (section 4.1), one row per
    execution id and one row per [(workflow_id, step_number)]. *)
Record Store := {
  executions : gmap string WorkflowExecution;
  steps : gmap (string * nat) StepRecord
}.

(** Modelled from the spec: the recorded output of step [n] of execution
    [wid], when that step has a SUCCESS row (section 4.3, point 1). *)
Definition memoized (wid : string) (n : nat) (s : Store) : option Val :=
  match steps s !! (wid, n) with
  | Some {| outcome := StepSuccess v |} => Some v
  | _ => None
  end.

(** Modelled from the spec: atomic create-if-absent of the execution row,
    in status PENDING (section 4.1). *)
Definition create_execution (wid name : string) (inp : Val) (s : Store)
  : Store :=
  match executions s !! wid with
  | Some _ => s
  | None =>
      {| executions :=
           <[wid := {| workflow_name := name; input := inp;
                       state := Pending |}]> (executions s);
         steps := steps s |}
  end.

(** Modelled from the spec: atomic update of status and output of the row
    of [wid] (section 4.1). *)
Definition set_state (wid : string) (e : WorkflowExecution) (st : ExecState)
    (s : Store) : Store :=
  {| executions :=
       <[wid := {| workflow_name := workflow_name e; input := input e;
                   state := st |}]> (executions s);
     steps := steps s |}.

(** Modelled from the spec: the status transition PENDING to RUNNING, as a
    compare-and-set (sections 4.4 and 5). *)
Definition mark_running (wid : string) (s : Store) : Store :=
  match executions s !! wid with
  | Some e =>
      match state e with
      | Pending => set_state wid e Running s
      | _ => s
      end
  | None => s
  end.

(** Modelled from the spec: the terminal transition from RUNNING to SUCCESS
    (with the output) or ERROR (with the error detail), as a
    compare-and-set (sections 4.4 and 5). *)
Definition finalize (wid : string) (res : Val * option error) (s : Store)
  : Store :=
  match executions s !! wid with
  | Some e =>
      match state e with
      | Running =>
          set_state wid e
            (match res.2 with
             | None => Succeeded res.1
             | Some err => Failed err
             end) s
      | _ => s
      end
  | None => s
  end.

(** Modelled from the spec: atomic upsert of the step row (section 4.3); a
    SUCCESS row is immutable (section 3) and is never overwritten. *)
Definition record_step (wid : string) (n : nat) (r : Val + error)
    (attempts : nat) (s : Store) : Store :=
  match memoized wid n s with
  | Some _ => s
  | None =>
      {| executions := executions s;
         steps :=
           <[(wid, n) :=
               {| outcome := match r with
                             | inl v => StepSuccess v
                             | inr e => StepError e
                             end;
                  attempt_count := attempts |}]> (steps s) |}
  end.

(** Modelled from the spec: the process running the engine.  It has the
    world it acts on, the durable store, and how many
    store writes are still durable before the process crashes ([None]: it
    does not crash).  The last three fields are observations only: which
    step bodies were invoked, which workflow functions were started, and
    the delays slept between attempts. *)
Record Machine := {
  world : World;
  store : Store;
  fuse : option nat;
  invocations : list (string * nat);
  launches : list string;
  sleeps : list nat
}.

Definition set_world (w : World) (m : Machine) : Machine :=
  {| world := w; store := store m; fuse := fuse m;
     invocations := invocations m; launches := launches m;
     sleeps := sleeps m |}.

Definition set_fuse (f : option nat) (m : Machine) : Machine :=
  {| world := world m; store := store m; fuse := f;
     invocations := invocations m; launches := launches m;
     sleeps := sleeps m |}.

Definition note_invocation (wid : string) (n : nat) (m : Machine) : Machine :=
  {| world := world m; store := store m; fuse := fuse m;
     invocations := invocations m ++ [(wid, n)]; launches := launches m;
     sleeps := sleeps m |}.

Definition note_launch (wid : string) (m : Machine) : Machine :=
  {| world := world m; store := store m; fuse := fuse m;
     invocations := invocations m; launches := launches m ++ [wid];
     sleeps := sleeps m |}.

Definition sleep (d : nat) (m : Machine) : Machine :=
  {| world := world m; store := store m; fuse := fuse m;
     invocations := invocations m; launches := launches m;
     sleeps := sleeps m ++ [d] |}.

(** Modelled from the spec: a computation of the engine either completes or
    the process dies (sections 1 and 4.1). *)
Inductive completion (A : Type) : Type :=
  | Done (a : A)
  | Crashed.
#[global] Arguments Done {A} a.
#[global] Arguments Crashed {A}.

(** Modelled from the spec: a synchronous, durable write (section 4.1); it
    is in the store when the call returns, or the process crashed and the
    write is lost. *)
Definition durable_write (f : Store → Store) (m : Machine) : option Machine :=
  match fuse m with
  | Some 0 => None
  | Some (S k) =>
      Some {| world := world m; store := f (store m); fuse := Some k;
              invocations := invocations m; launches := launches m;
              sleeps := sleeps m |}
  | None =>
      Some {| world := world m; store := f (store m); fuse := None;
              invocations := invocations m; launches := launches m;
              sleeps := sleeps m |}
  end.

(** Modelled from the spec: the retry policy of the Step Runner (section
    4.3): a capped number of attempts, exponential backoff, and the
    classification of failures as transient or permanent. *)
Record RetryPolicy := {
  max_attempts : nat;
  base_delay : nat;
  backoff_rate : nat;
  transient : error → bool
}.

(** Modelled from the spec: exponential backoff, the delay slept after
    the failed attempt number [attempt] (counted from 0). *)
Definition backoff (p : RetryPolicy) (attempt : nat) : nat :=
  base_delay p * backoff_rate p ^ attempt.

(** Modelled from the spec: a step body is opaque to the engine, which only
    sees its serialized return value or its failure (section 6). *)
Definition StepBody := World → (Val + error) * World.

(** Modelled from the spec: one invocation of the body of step [n] of
    execution [wid]. *)
Definition invoke (wid : string) (n : nat) (body : StepBody) (m : Machine)
  : (Val + error) * Machine :=
  let m1 := note_invocation wid n m in
  let '(r, w) := body (world m1) in
  (r, set_world w m1).

(** Modelled from the spec: the bounded retry loop of the Step Runner.
    [attempt p wid n body retries made m]: invoke the body; on a transient
    failure with retries left, back off and try again.  Returns the final
    result and the number of attempts made. *)
Fixpoint attempt (p : RetryPolicy) (wid : string) (n : nat) (body : StepBody)
    (retries made : nat) (m : Machine) : (Val + error) * nat * Machine :=
  let '(r, m1) := invoke wid n body m in
  match r with
  | inl v => (inl v, S made, m1)
  | inr e =>
      if transient p e then
        match retries with
        | 0 => (inr e, S made, m1)
        | S retries' =>
            attempt p wid n body retries' (S made) (sleep (backoff p made) m1)
        end
      else (inr e, S made, m1)
  end.

(** Modelled from the spec: the Step Runner's [RunStep(workflowID,
    stepNumber, stepName, body)] (section 4.3, points 1 to 4). *)
Definition run_step (p : RetryPolicy) (wid : string) (n : nat)
    (body : StepBody) (m : Machine) : completion (Val + error) * Machine :=
  match memoized wid n (store m) with
  | Some v => (Done (inl v), m)
  | None =>
      let '(r, made, m1) := attempt p wid n body (max_attempts p - 1) 0 m in
      match durable_write (record_step wid n r made) m1 with
      | Some m2 => (Done r, m2)
      | None => (Crashed, m1)
      end
  end.

(** Modelled from the spec: a workflow function sees the engine only
    through [RunStep] (section 4.4); it is a tree of step calls, each
    continuing with the step's result. *)
Inductive Workflow (R : Type) : Type :=
  | Return (r : R)
  | RunStep (body : StepBody) (k : Val + error → Workflow R).
#[global] Arguments Return {R} r.
#[global] Arguments RunStep {R} body k.

Fixpoint workflow_bind {A B} (f : A → Workflow B) (m : Workflow A)
  : Workflow B :=
  match m with
  | Return a => f a
  | RunStep body k => RunStep body (λ r, workflow_bind f (k r))
  end.

#[global] Instance Workflow_bind : MBind Workflow := @workflow_bind.
#[global] Instance Workflow_ret : MRet Workflow := @Return.

Definition decode_failed : error := "dbos: cannot decode recorded value".

(** Modelled from the spec: what the engine stores of a step's result
    (its serialized return value or failure), and what the workflow
    function gets back from it. *)
Definition encode_result {T} `{Serial T} (r : T + error) : Val + error :=
  match r with
  | inl t => inl (encode t)
  | inr e => inr e
  end.

Definition decode_result {T} `{Serial T} (r : Val + error) : T + error :=
  match r with
  | inl v =>
      match decode v with
      | Some t => inl t
      | None => inr decode_failed
      end
  | inr e => inr e
  end.

Definition serialized {T} `{Serial T} (body : World → (T + error) * World)
  : StepBody :=
  λ w, let '(r, w') := body w in (encode_result r, w').

(** Modelled from the spec: [dbos.RunAsStep(ctx, func(stepCtx
    context.Context) (T, error) {...})], the typed form of [RunStep]. *)
Definition RunAsStep {T} `{Serial T} (body : World → (T + error) * World)
  : Workflow (T + error) :=
  RunStep (serialized body) (λ r, Return (decode_result r)).

(** Modelled from the spec: the Workflow Runtime driving a workflow function
    through its steps; step numbers are assigned by call order (section
    4.4). *)
Fixpoint exec {R} (p : RetryPolicy) (wid : string) (n : nat)
    (wf : Workflow R) (m : Machine) : completion R * Machine :=
  match wf with
  | Return r => (Done r, m)
  | RunStep body k =>
      match run_step p wid n body m with
      | (Done r, m1) => exec p wid (S n) (k r) m1
      | (Crashed, m1) => (Crashed, m1)
      end
  end.

(** Modelled from the spec: a registered workflow function takes the
    serialized input and returns an output and possibly an error. *)
Definition WorkflowFunction := Val → Workflow (Val * option error).

(** Modelled from the spec: the engine context holds the Workflow Registry
    (section 4.2) and the retry policy. *)
Record DBOSContext := {
  registry : gmap string WorkflowFunction;
  policy : RetryPolicy
}.

(** Modelled from the spec: the error [UnknownWorkflow] (section 7). *)
Definition UnknownWorkflow (name : string) : error :=
  "UnknownWorkflow: " +:+ name.

(** Modelled from the spec: transition to RUNNING, call the registered
    function, record the terminal state (section 4.4).  The function is
    called only for an execution that is RUNNING. *)
Definition run_execution (ctx : DBOSContext) (wid : string)
    (f : WorkflowFunction) (inp : Val) (m : Machine)
  : completion unit * Machine :=
  match durable_write (mark_running wid) m with
  | None => (Crashed, m)
  | Some m1 =>
      match state <$> executions (store m1) !! wid with
      | Some Running =>
          match exec (policy ctx) wid 0 (f inp) (note_launch wid m1) with
          | (Crashed, m2) => (Crashed, m2)
          | (Done res, m2) =>
              match durable_write (finalize wid res) m2 with
              | None => (Crashed, m2)
              | Some m3 => (Done (), m3)
              end
          end
      | _ => (Done (), m1)
      end
  end.

(** Modelled from the spec: the id of an execution (section 3), the
    caller's idempotency key or one generated at start that no execution
    row uses. *)
Definition execution_id (id : option string) (s : Store) : string :=
  match id with
  | Some key => key
  | None => fresh (dom (executions s))
  end.

(** Modelled from the spec: [Start(name, input, id)] (section 4.4).  The
    execution's own thread of control is run to its end (or to the crash)
    before the handle is returned. *)
Definition Start (ctx : DBOSContext) (name : string) (inp : Val)
    (id : option string) (m : Machine) : completion (string + error) * Machine :=
  match registry ctx !! name with
  | None => (Done (inr (UnknownWorkflow name)), m)
  | Some f =>
      let wid := execution_id id (store m) in
      match executions (store m) !! wid with
      | Some _ => (Done (inl wid), m)
      | None =>
          match durable_write (create_execution wid name inp) m with
          | None => (Crashed, m)
          | Some m1 =>
              match run_execution ctx wid f inp m1 with
              | (Crashed, m2) => (Crashed, m2)
              | (Done _, m2) => (Done (inl wid), m2)
              end
          end
      end
  end.

(** Modelled from the spec: [handle.GetResult()] (section 4.6).  [None]
    stands for a caller that is still blocked: the execution is not in a
    terminal state. *)
Definition GetResult (wid : string) (m : Machine) : option (Val + error) :=
  match state <$> executions (store m) !! wid with
  | Some (Succeeded v) => Some (inl v)
  | Some (Failed e) => Some (inr e)
  | _ => None
  end.

(** Modelled from the spec: the Recovery Manager (section 4.5) resumes every
    execution found PENDING or RUNNING; an unregistered name is fatal. *)
Definition incomplete (s : Store) : list (string * WorkflowExecution) :=
  filter (λ kv, terminal (state kv.2) = false) (map_to_list (executions s)).

Fixpoint recover_all (ctx : DBOSContext)
    (l : list (string * WorkflowExecution)) (m : Machine)
  : completion (option error) * Machine :=
  match l with
  | [] => (Done None, m)
  | (wid, e) :: l' =>
      match registry ctx !! workflow_name e with
      | None => (Done (Some (UnknownWorkflow (workflow_name e))), m)
      | Some f =>
          match run_execution ctx wid f (input e) m with
          | (Crashed, m1) => (Crashed, m1)
          | (Done _, m1) => recover_all ctx l' m1
          end
      end
  end.

Definition recover (ctx : DBOSContext) (m : Machine)
  : completion (option error) * Machine :=
  recover_all ctx (incomplete (store m)) m.

(** Modelled from the spec: the process is started again; the store and the
    world are as the crash left them. *)
Definition restart (f : option nat) (m : Machine) : Machine := set_fuse f m.

(** Modelled from the spec: everything a client of the engine can make it
    do. *)
Inductive EngineCall :=
  | CallStart (name : string) (inp : Val) (id : option string)
  | CallRecover
  | CallRestart (f : option nat).

(** Modelled from the spec: the machine after one call, and after a
    sequence of calls. *)
Definition engine_call (ctx : DBOSContext) (c : EngineCall) (m : Machine)
  : Machine :=
  match c with
  | CallStart name inp id => (Start ctx name inp id m).2
  | CallRecover => (recover ctx m).2
  | CallRestart f => restart f m
  end.

Definition engine_calls (ctx : DBOSContext) (cs : list EngineCall)
    (m : Machine) : Machine :=
  foldl (λ m c, engine_call ctx c m) m cs.

(** ** workflows/chat.go *)

(** [func (w *ChatWorkflows) getMessages(ctx, conversationID)
    ([]models.Message, error)]: the result starts as the nil slice. *)
Definition getMessages (conversationID : UUID) (w : World)
  : (slice Message + error) * World :=
  match query_messages conversationID w with
  | (inr err, w1) => (inr err, w1)
  | (inl rows, w1) => (inl (append_all nil_slice rows), w1)
  end.

(** [func (w *ChatWorkflows) saveMessage(ctx, conversationID, role, content)
    (models.Message, error)] *)
Definition saveMessage (conversationID : UUID) (role content : string)
    (w : World) : (Message + error) * World :=
  let '(id, w1) := uuid_New w in
  let '(now, w2) := time_Now w1 in
  let msg := {| ID := id; ConversationID := conversationID; Role := role;
                Content := content; CreatedAt := now |} in
  match exec_insert_message msg w2 with
  | (Some err, w3) => (inr err, w3)
  | (None, w3) => (inl msg, w3)
  end.

(** [func (w *ChatWorkflows) SendMessageWorkflow(ctx dbos.DBOSContext, input
    SendMessageInput) (SendMessageOutput, error)] *)
Definition SendMessageWorkflow (input : SendMessageInput)
  : Workflow (SendMessageOutput * option error) :=
  let output : SendMessageOutput := zero in
  (* Step 1: Get existing messages for context *)
  r ← RunAsStep (getMessages (in_ConversationID input));
  match r with
  | inr err => Return (output, Some err)
  | inl messages =>
      (* Step 2: Save user message to database *)
      r ← RunAsStep (saveMessage (in_ConversationID input) "user"
                       (in_Content input));
      match r with
      | inr err => Return (output, Some err)
      | inl userMsg =>
          let output := {| UserMessage := userMsg;
                           AssistantMessage := AssistantMessage output |} in
          (* Step 3: Get AI response from vLLM *)
          r ← RunAsStep (Chat messages (in_Content input));
          match r with
          | inr err => Return (output, Some err)
          | inl aiResponse =>
              (* Step 4: Save assistant message to database *)
              r ← RunAsStep (saveMessage (in_ConversationID input)
                               "assistant" aiResponse);
              match r with
              | inr err => Return (output, Some err)
              | inl assistantMsg =>
                  Return ({| UserMessage := UserMessage output;
                             AssistantMessage := assistantMsg |}, None)
              end
          end
      end
  end.

(** The step body of [CreateConversationWorkflow]. *)
Definition createConversation (w : World) : (Conversation + error) * World :=
  let '(id, w1) := uuid_New w in
  let '(now, w2) := time_Now w1 in
  let conv := {| c_ID := id; c_CreatedAt := now |} in
  match exec_insert_conversation conv w2 with
  | (Some err, w3) => (inr err, w3)
  | (None, w3) => (inl conv, w3)
  end.

(** [func (w *ChatWorkflows) CreateConversationWorkflow(ctx dbos.DBOSContext,
    _ string) (models.Conversation, error)] *)
Definition CreateConversationWorkflow (_ : string)
  : Workflow (Conversation * option error) :=
  r ← RunAsStep createConversation;
  Return match r with
         | inl conv => (conv, None)
         | inr err => (zero, Some err)
         end.

(** The two step bodies of [DeleteConversationWorkflow]; each returns
    [err == nil, err]. *)
Definition deleteMessages (conversationID : UUID) (w : World)
  : (bool + error) * World :=
  match exec_delete_messages conversationID w with
  | (Some err, w1) => (inr err, w1)
  | (None, w1) => (inl true, w1)
  end.

Definition deleteConversation (conversationID : UUID) (w : World)
  : (bool + error) * World :=
  match exec_delete_conversation conversationID w with
  | (Some err, w1) => (inr err, w1)
  | (None, w1) => (inl true, w1)
  end.

(** [func (w *ChatWorkflows) DeleteConversationWorkflow(ctx dbos.DBOSContext,
    conversationID uuid.UUID) (bool, error)] *)
Definition DeleteConversationWorkflow (conversationID : UUID)
  : Workflow (bool * option error) :=
  (* Step 1: Delete messages *)
  r ← RunAsStep (deleteMessages conversationID);
  match r with
  | inr err => Return (false, Some err)
  | inl _ =>
      (* Step 2: Delete conversation *)
      r ← RunAsStep (deleteConversation conversationID);
      Return match r with
             | inl ok => (ok, None)
             | inr err => (zero, Some err)
             end
  end.

(** ** main.go: registration *)

(** Modelled from the spec: [dbos.RegisterWorkflow(dbosCtx, fn)] (section
    4.2); the engine stores inputs and outputs serialized. *)
Definition register {I O} `{Serial I, Serial O}
    (f : I → Workflow (O * option error)) : WorkflowFunction :=
  λ v, match decode v with
       | Some i => res ← f i; Return (encode res.1, res.2)
       | None => Return (VNone, Some decode_failed)
       end.

Definition SendMessageWorkflow_name : string := "SendMessageWorkflow".
Definition CreateConversationWorkflow_name : string :=
  "CreateConversationWorkflow".
Definition DeleteConversationWorkflow_name : string :=
  "DeleteConversationWorkflow".

Definition main_registry : gmap string WorkflowFunction :=
  <[DeleteConversationWorkflow_name := register DeleteConversationWorkflow]>
    (<[CreateConversationWorkflow_name := register CreateConversationWorkflow]>
       (<[SendMessageWorkflow_name := register SendMessageWorkflow]> ∅)).

(** [dbos.NewDBOSContext] followed by the three [dbos.RegisterWorkflow]
    calls of [main]. *)
Definition NewDBOSContext (p : RetryPolicy) : DBOSContext :=
  {| registry := main_registry; policy := p |}.

(** Modelled from the spec: [dbos.RunWorkflow(ctx, fn, input)] is [Start]
    without a caller-supplied id, and the typed [handle.GetResult()] decodes
    the stored output (sections 4.4 and 4.6). *)
Definition RunWorkflow {I} `{Serial I} (ctx : DBOSContext) (name : string)
    (inp : I) (m : Machine) : completion (string + error) * Machine :=
  Start ctx name (encode inp) None m.

Definition GetResultAs (O : Type) `{Serial O} (handle : string) (m : Machine)
  : option (O + error) :=
  match GetResult handle m with
  | Some (inl v) =>
      Some match decode v with
           | Some o => inl o
           | None => inr decode_failed
           end
  | Some (inr e) => Some (inr e)
  | None => None
  end.

(** ** handlers/chat.go *)

#[local] Unset Elimination Schemes.
Inductive JSON :=
  | JNull
  | JString (s : string)
  | JUUID (u : UUID)
  | JTime (t : Time)
  | JArray (items : list JSON)
  | JObject (fields : list (string * JSON)).
#[local] Set Elimination Schemes.

Record Response := {
  code : nat;
  payload : JSON
}.

Definition json_Message (m : Message) : JSON :=
  JObject [("id", JUUID (ID m)); ("conversation_id", JUUID (ConversationID m));
           ("role", JString (Role m)); ("content", JString (Content m));
           ("created_at", JTime (CreatedAt m))].

Definition json_Conversation (c : Conversation) : JSON :=
  JObject [("id", JUUID (c_ID c)); ("created_at", JTime (c_CreatedAt c))].

Definition json_ChatResponse (r : ChatResponse) : JSON :=
  JObject [("user_message", json_Message (resp_UserMessage r));
           ("assistant_message", json_Message (resp_AssistantMessage r))].

(** [encoding/json] prints a nil slice as [null]. *)
Definition json_slice {A} (f : A → JSON) (s : slice A) : JSON :=
  match s with
  | nil_slice => JNull
  | mk_slice l => JArray (f <$> l)
  end.

(** [gin.H{"error": msg}] and [gin.H{"message": msg}] *)
Definition H_error (msg : string) : JSON := JObject [("error", JString msg)].
Definition H_message (msg : string) : JSON :=
  JObject [("message", JString msg)].

(** The body of a request as [encoding/json] sees it: not decodable into a
    [SendMessageRequest], or an object whose [content] member is absent (or
    null) or a string. *)
Inductive JSONBody :=
  | Malformed
  | Fields (content : option string).

Record Request := {
  param_id : string;
  body : JSONBody
}.

(** [c.ShouldBindJSON(&req)] with [binding:"required"] on [Content]:
    decoding must succeed and [Content] must not be the zero value. *)
Definition ShouldBindJSON (b : JSONBody) : SendMessageRequest + error :=
  match b with
  | Malformed => inr "invalid character looking for beginning of value"
  | Fields None => inr "Field validation for Content failed on the required tag"
  | Fields (Some s) =>
      if decide (s = "") then
        inr "Field validation for Content failed on the required tag"
      else inl {| req_Content := s |}
  end.

Record ChatHandler := {
  dbosCtx : DBOSContext
}.

Section handlers.
(** [uuid.Parse] of github.com/google/uuid. *)
Variable uuid_Parse : string → option UUID.
Variable h : ChatHandler.

(** [func (h *ChatHandler) CreateConversation(c *gin.Context)] *)
Definition CreateConversation (m : Machine) : option Response * Machine :=
  match RunWorkflow (dbosCtx h) CreateConversationWorkflow_name "" m with
  | (Crashed, m1) => (None, m1)
  | (Done (inr _), m1) =>
      (Some {| code := 500; payload := H_error "Failed to create conversation" |},
       m1)
  | (Done (inl handle), m1) =>
      match GetResultAs Conversation handle m1 with
      | None => (None, m1)
      | Some (inr _) =>
          (Some {| code := 500;
                   payload := H_error "Failed to create conversation" |}, m1)
      | Some (inl conv) =>
          (Some {| code := 201; payload := json_Conversation conv |}, m1)
      end
  end.

(** [func (h *ChatHandler) ListConversations(c *gin.Context)].  The rows of
    the tables carry every column, so [rows.Scan] does not fail and the
    branch answering [Failed to scan conversation] (in [GetMessages],
    [Failed to scan message]) is never taken. *)
Definition ListConversations (m : Machine) : option Response * Machine :=
  let '(r, w) := query_conversations (world m) in
  match r with
  | inr _ =>
      (Some {| code := 500; payload := H_error "Failed to list conversations" |},
       set_world w m)
  | inl rows =>
      let conversations := append_all (mk_slice []) rows in
      (Some {| code := 200;
               payload := json_slice json_Conversation conversations |},
       set_world w m)
  end.

(** [func (h *ChatHandler) DeleteConversation(c *gin.Context)] *)
Definition DeleteConversation (c : Request) (m : Machine)
  : option Response * Machine :=
  match uuid_Parse (param_id c) with
  | None =>
      (Some {| code := 400; payload := H_error "Invalid conversation ID" |}, m)
  | Some id =>
      match RunWorkflow (dbosCtx h) DeleteConversationWorkflow_name id m with
      | (Crashed, m1) => (None, m1)
      | (Done (inr _), m1) =>
          (Some {| code := 500;
                   payload := H_error "Failed to delete conversation" |}, m1)
      | (Done (inl handle), m1) =>
          match GetResultAs bool handle m1 with
          | None => (None, m1)
          | Some (inr _) =>
              (Some {| code := 500;
                       payload := H_error "Failed to delete conversation" |},
               m1)
          | Some (inl _) =>
              (Some {| code := 200;
                       payload := H_message "Conversation deleted" |}, m1)
          end
      end
  end.

(** [func (h *ChatHandler) SendMessage(c *gin.Context)] *)
Definition SendMessage (c : Request) (m : Machine)
  : option Response * Machine :=
  match uuid_Parse (param_id c) with
  | None =>
      (Some {| code := 400; payload := H_error "Invalid conversation ID" |}, m)
  | Some id =>
      match ShouldBindJSON (body c) with
      | inr _ =>
          (Some {| code := 400; payload := H_error "Invalid request body" |}, m)
      | inl req =>
          (* Verify conversation exists *)
          let '(r, w) := query_exists id (world m) in
          let m1 := set_world w m in
          match r with
          | inl true =>
              let input := {| in_ConversationID := id;
                              in_Content := req_Content req |} in
              match RunWorkflow (dbosCtx h) SendMessageWorkflow_name input m1
              with
              | (Crashed, m2) => (None, m2)
              | (Done (inr _), m2) =>
                  (Some {| code := 500;
                           payload := H_error "Failed to send message" |}, m2)
              | (Done (inl handle), m2) =>
                  match GetResultAs SendMessageOutput handle m2 with
                  | None => (None, m2)
                  | Some (inr err) =>
                      (Some {| code := 500;
                               payload :=
                                 H_error ("Failed to get AI response: " +:+ err)
                            |}, m2)
                  | Some (inl output) =>
                      (Some {| code := 200;
                               payload :=
                                 json_ChatResponse
                                   {| resp_UserMessage := UserMessage output;
                                      resp_AssistantMessage :=
                                        AssistantMessage output |} |}, m2)
                  end
              end
          | _ =>
              (Some {| code := 404; payload := H_error "Conversation not found" |},
               m1)
          end
      end
  end.

(** [func (h *ChatHandler) GetMessages(c *gin.Context)] *)
Definition GetMessages (c : Request) (m : Machine)
  : option Response * Machine :=
  match uuid_Parse (param_id c) with
  | None =>
      (Some {| code := 400; payload := H_error "Invalid conversation ID" |}, m)
  | Some id =>
      let '(r, w) := query_messages id (world m) in
      match r with
      | inr _ =>
          (Some {| code := 500; payload := H_error "Failed to get messages" |},
           set_world w m)
      | inl rows =>
          let messages := append_all (mk_slice []) rows in
          (Some {| code := 200; payload := json_slice json_Message messages |},
           set_world w m)
      end
  end.

End handlers.

(** [sql.ErrNoRows], what [Scan] returns for a query without result row. *)
Definition no_rows : error := "sql: no rows in result set".

(** [QueryRowContext(ctx, "SELECT id, created_at FROM conversations WHERE
    id = $1", id).Scan(&conv.ID, &conv.CreatedAt)]: an error when the
    database fails or when there is no such row.  The call is logged as a
    read of the row [id] of [conversations]. *)
Definition query_conversation (id : UUID) (w : World)
  : (Conversation + error) * World :=
  match next_fault w with
  | Some e => (inr e, log_effect (ConversationExists id) false w)
  | None =>
      match conversations w !! id with
      | Some created =>
          (inl (scan_conversation (id, created)),
           log_effect (ConversationExists id) true w)
      | None => (inr no_rows, log_effect (ConversationExists id) true w)
      end
  end.

Section get_conversation.
Variable uuid_Parse : string → option UUID.

(** [func (h *ChatHandler) GetConversation(c *gin.Context)] *)
Definition GetConversation (c : Request) (m : Machine)
  : option Response * Machine :=
  match uuid_Parse (param_id c) with
  | None =>
      (Some {| code := 400; payload := H_error "Invalid conversation ID" |}, m)
  | Some id =>
      let '(r, w) := query_conversation id (world m) in
      match r with
      | inr _ =>
          (Some {| code := 404; payload := H_error "Conversation not found" |},
           set_world w m)
      | inl conv =>
          (Some {| code := 200; payload := json_Conversation conv |},
           set_world w m)
      end
  end.

End get_conversation.

(** ** services/anthropic.go *)

Record AnthropicMessage := {
  anth_Role : string;
  anth_Content : string
}.

Record AnthropicRequest := {
  anth_Model : string;
  anth_MaxTokens : nat;
  anth_Messages : list AnthropicMessage
}.

(** The [http.Request] that [Chat] builds: a POST to [url] with these
    headers and the JSON encoding of [payload] as body. *)
Record AnthropicHTTPRequest := {
  http_url : string;
  http_headers : list (string * string);
  http_payload : AnthropicRequest
}.

Record ContentBlock := {
  block_Type : string;
  block_Text : string
}.

Record AnthropicError := {
  err_Type : string;
  err_Message : string
}.

Record AnthropicResponse := {
  anth_Blocks : list ContentBlock;
  anth_Error : option AnthropicError
}.

(** What [s.client.Do(req)] and [io.ReadAll] give: the transport fails,
    reading the body fails, or there is a body, which [json.Unmarshal]
    decodes into an [AnthropicResponse] or rejects.  [Chat] never looks at
    the status code, so it is not part of the outcome. *)
Inductive AnthropicOutcome :=
  | AnthropicSendFailed (e : error)
  | AnthropicReadFailed (e : error)
  | AnthropicBody (decoded : AnthropicResponse + error).

(** [AnthropicService]: the API key and the HTTP client, the latter as the
    function from a request to what comes back. *)
Record AnthropicService := {
  apiKey : string;
  client : AnthropicHTTPRequest → AnthropicOutcome
}.

Definition anthropicAPIURL : string := "https://api.anthropic.com/v1/messages".

Definition to_anthropic (msg : Message) : AnthropicMessage :=
  {| anth_Role := Role msg; anth_Content := Content msg |}.

(** The message list [Chat] sends: the history, then the new user
    message. *)
Definition anthropic_messages (messages : slice Message)
    (userMessage : string) : list AnthropicMessage :=
  (to_anthropic <$> elems messages)
  ++ [{| anth_Role := "user"; anth_Content := userMessage |}].

Definition anthropic_request (s : AnthropicService)
    (messages : slice Message) (userMessage : string)
  : AnthropicHTTPRequest :=
  {| http_url := anthropicAPIURL;
     http_headers :=
       [("Content-Type", "application/json"); ("x-api-key", apiKey s);
        ("anthropic-version", "2023-06-01")];
     http_payload :=
       {| anth_Model := "claude-sonnet-4-20250514"; anth_MaxTokens := 4096;
          anth_Messages := anthropic_messages messages userMessage |} |}.

(** [func (s *AnthropicService) Chat(messages []models.Message, userMessage
    string) (string, error)].  Encoding the request and building the
    [http.Request] for the constant URL cannot fail. *)
Definition AnthropicChat (s : AnthropicService) (messages : slice Message)
    (userMessage : string) : string + error :=
  match client s (anthropic_request s messages userMessage) with
  | AnthropicSendFailed e => inr ("failed to send request: " +:+ e)
  | AnthropicReadFailed e => inr ("failed to read response: " +:+ e)
  | AnthropicBody (inr e) => inr ("failed to unmarshal response: " +:+ e)
  | AnthropicBody (inl anthropicResp) =>
      match anth_Error anthropicResp with
      | Some e => inr ("anthropic API error: " +:+ err_Message e)
      | None =>
          match anth_Blocks anthropicResp with
          | [] => inr "empty response from Anthropic"
          | block :: _ => inl (block_Text block)
          end
      end
  end.

(** * Notions used in the statements *)

(** The external calls that succeeded, in order. *)
Definition successes (l : list (Effect * bool)) : list Effect :=
  (filter (λ x, x.2 = true) l).*1.

(** The sources the program cannot influence stay what they are. *)
Definition same_env (w w' : World) : Prop :=
  uuid_source w' = uuid_source w ∧ time_source w' = time_source w ∧
  fault w' = fault w ∧ server w' = server w.

(** [quiet w w']: between [w] and [w'] no external call succeeded; the
    tables are untouched. *)
Definition quiet (w w' : World) : Prop :=
  same_env w w' ∧ conversations w' = conversations w ∧
  messages w' = messages w ∧ successes (effects w') = successes (effects w).

(** The message [saveMessage] builds in world [w]. *)
Definition new_message (cid : UUID) (role content : string) (w : World)
  : Message :=
  {| ID := uuid_source w (uuids_drawn w); ConversationID := cid; Role := role;
     Content := content; CreatedAt := time_source w (time_reads w) |}.

(** How often the body of step [n] of execution [wid] was invoked, and how
    often the workflow function of [wid] was started. *)
Definition invoked (wid : string) (n : nat) (m : Machine) : nat :=
  length (filter (λ x, x = (wid, n)) (invocations m)).

Definition launched (wid : string) (m : Machine) : nat :=
  length (filter (λ x, x = wid) (launches m)).

(** The moves of the Step Runner working for execution [wid]: a body is
    invoked or a step row is written only at a position that has no SUCCESS
    row. *)
Inductive step_tick (wid : string) : Machine → Machine → Prop :=
  | step_tick_invoke n body m :
      memoized wid n (store m) = None →
      step_tick wid m (invoke wid n body m).2
  | step_tick_sleep d m : step_tick wid m (sleep d m)
  | step_tick_record n r k m m' :
      memoized wid n (store m) = None →
      durable_write (record_step wid n r k) m = Some m' →
      step_tick wid m m'.

(** The moves of the whole engine. *)
Inductive tick : Machine → Machine → Prop :=
  | tick_step wid m m' :
      is_Some (executions (store m) !! wid) → step_tick wid m m' → tick m m'
  | tick_create wid name inp m m' :
      durable_write (create_execution wid name inp) m = Some m' → tick m m'
  | tick_running wid m m' :
      durable_write (mark_running wid) m = Some m' → tick m m'
  | tick_finalize wid res m m' :
      durable_write (finalize wid res) m = Some m' → tick m m'
  | tick_launch wid m :
      state <$> executions (store m) !! wid = Some Running →
      tick m (note_launch wid m)
  | tick_restart f m : tick m (set_fuse f m).

(** The transitions of section 4.4: PENDING to RUNNING, RUNNING to SUCCESS
    or ERROR. *)
Inductive status_next : Status → Status → Prop :=
  | next_running : status_next PENDING RUNNING
  | next_success : status_next RUNNING SUCCESS
  | next_error : status_next RUNNING ERROR.

(** A later version of an execution row: same workflow and input, status
    further along, and untouched once terminal. *)
Definition exec_le (e e' : WorkflowExecution) : Prop :=
  workflow_name e' = workflow_name e ∧ input e' = input e ∧
  rtc status_next (status e) (status e') ∧
  (terminal (state e) = true → e' = e).

(** Step rows belong to an execution row ([workflow_id] is a foreign
    key). *)
Definition store_ok (s : Store) : Prop :=
  ∀ wid n, is_Some (steps s !! (wid, n)) → is_Some (executions s !! wid).

(** The body has no non-empty [content] member. *)
Definition lacks_content (b : JSONBody) : Prop :=
  ∀ s, b = Fields (Some s) → s = "".

(** The machine in which the workflow function of a new execution starts:
    its row has been created and is RUNNING. *)
Definition launch_state (wid name : string) (inp : Val) (m : Machine)
  : Machine :=
  {| world := world m;
     store :=
       {| executions :=
            <[wid := {| workflow_name := name; input := inp;
                        state := Running |}]> (executions (store m));
          steps := steps (store m) |};
     fuse := None;
     invocations := invocations m;
     launches := launches m ++ [wid];
     sleeps := sleeps m |}.

(** The machine after step [n] of [wid] succeeded at its first attempt with
    value [v], leaving the world [w']. *)
Definition stepped (wid : string) (n : nat) (v : Val) (w' : World)
    (m : Machine) : Machine :=
  {| world := w';
     store :=
       {| executions := executions (store m);
          steps :=
            <[(wid, n) := {| outcome := StepSuccess v; attempt_count := 1 |}]>
              (steps (store m)) |};
     fuse := None;
     invocations := invocations m ++ [(wid, n)];
     launches := launches m;
     sleeps := sleeps m |}.



(** The error [Chat] returns when the request cannot be sent. *)
Definition chat_send_error (e : error) : error :=
  "failed to send request to vLLM: " +:+ e.

(** The response to a [SendMessage] request that passed the three checks,
    from the outcome of the workflow it ran. *)
Definition SendMessage_response (out : SendMessageOutput) (err : option error)
  : Response :=
  match err with
  | None =>
      {| code := 200;
         payload :=
           json_ChatResponse
             {| resp_UserMessage := UserMessage out;
                resp_AssistantMessage := AssistantMessage out |} |}
  | Some e =>
      {| code := 500;
         payload := H_error ("Failed to get AI response: " +:+ e) |}
  end.

(** [m'] differs from [m] at most in the log of external calls. *)
Definition unchanged (m m' : Machine) : Prop :=
  store m' = store m ∧ fuse m' = fuse m ∧ launches m' = launches m ∧
  invocations m' = invocations m ∧ sleeps m' = sleeps m ∧
  conversations (world m') = conversations (world m) ∧
  messages (world m') = messages (world m) ∧
  uuids_drawn (world m') = uuids_drawn (world m) ∧
  time_reads (world m') = time_reads (world m).

(** ** Sample data *)

(** One conversation, no message; the model server answers [hello] when
    [up], and cannot be reached otherwise. *)
Definition sample_world (up : bool) : World :=
  {| conversations := {[ 7%N := 100%Z ]};
     messages := ∅;
     uuid_source := λ n, N.of_nat (1000 + n);
     uuids_drawn := 0;
     time_source := λ n, Z.of_nat (200 + n);
     time_reads := 0;
     fault := λ _, None;
     server := λ _, if up then Responded 200 "{}" (inl ["hello"])
                    else SendFailed "connection refused";
     effects := [] |}.

(** A [created_at] column as a process east of UTC meets it: the wall
    clock is stored without its zone and read back as UTC, 3600 later. *)
Definition sample_column : TimestampColumn := λ t, (t + 3600)%Z.

Definition sample_machine (up : bool) (f : option nat) : Machine :=
  {| world := sample_world up;
     store := {| executions := ∅; steps := ∅ |};
     fuse := f; invocations := []; launches := []; sleeps := [] |}.

Definition sample_policy : RetryPolicy :=
  {| max_attempts := 3; base_delay := 100; backoff_rate := 2;
     transient := String.prefix "failed to send request" |}.

Definition sample_ctx : DBOSContext := NewDBOSContext sample_policy.
Definition sample_handler : ChatHandler := {| dbosCtx := sample_ctx |}.

Definition sample_input : SendMessageInput :=
  {| in_ConversationID := 7%N; in_Content := "hi" |}.

(** A stand-in for [uuid.Parse] that knows two ids. *)
Definition sample_parse (s : string) : option UUID :=
  if decide (s = "00000000-0000-0000-0000-000000000007") then Some 7%N
  else if decide (s = "00000000-0000-0000-0000-000000000008") then Some 8%N
  else None.

(** Execution [a1] of [SendMessageWorkflow]: the process dies when it
    writes the row of the second step, after that step's body has inserted
    the user message; it is then started again and recovers. *)
Definition crashed_machine : Machine :=
  (Start sample_ctx SendMessageWorkflow_name (encode sample_input) (Some "a1")
     (sample_machine true (Some 3))).2.

Definition recovered_machine : Machine :=
  engine_calls sample_ctx [CallRestart None; CallRecover] crashed_machine.

Definition sample_request (id : string) : Request :=
  {| param_id := id; body := Fields (Some "hi") |}.

(** * Properties *)

(** ** The world *)

Lemma successes_app l1 l2 : successes (l1 ++ l2) = successes l1 ++ successes l2.
Proof. unfold successes. by rewrite filter_app, fmap_app. Qed.

Lemma successes_ok l ef : successes (l ++ [(ef, true)]) = successes l ++ [ef].
Proof. by rewrite successes_app. Qed.

Lemma successes_failed l ef : successes (l ++ [(ef, false)]) = successes l.
Proof. rewrite successes_app. cbn. by rewrite app_nil_r. Qed.

Lemma same_env_refl w : same_env w w.
Proof. by repeat split. Qed.

Lemma same_env_trans w1 w2 w3 : same_env w1 w2 → same_env w2 w3 → same_env w1 w3.
Proof. unfold same_env. intros (?&?&?&?) (?&?&?&?). repeat split; congruence. Qed.

Lemma quiet_refl w : quiet w w.
Proof. repeat split. Qed.

Lemma quiet_trans w1 w2 w3 : quiet w1 w2 → quiet w2 w3 → quiet w1 w3.
Proof.
  intros (He1&?&?&?) (He2&?&?&?).
  split; [by eapply same_env_trans|]. repeat split; congruence.
Qed.

Lemma quiet_env w w' : quiet w w' → same_env w w'.
Proof. by intros [? _]. Qed.

#[global] Instance created_le_total : Total created_le.
Proof. intros a b. unfold created_le. lia. Qed.
#[global] Instance created_le_trans : Transitive created_le.
Proof. intros a b c. unfold created_le. lia. Qed.
#[global] Instance created_ge_total : Total created_ge.
Proof. intros a b. unfold created_ge. lia. Qed.
#[global] Instance created_ge_trans : Transitive created_ge.
Proof. intros a b c. unfold created_ge. lia. Qed.

Lemma append_all_mk {A} (l0 l : list A) :
  append_all (mk_slice l0) l = mk_slice (l0 ++ l).
Proof.
  revert l0. induction l as [|x l IH]; intros l0; cbn.
  - by rewrite app_nil_r.
  - unfold append_all in IH. unfold append at 2. cbn. rewrite IH.
    by rewrite <- app_assoc.
Qed.

(** *** What each external call does *)

Lemma query_messages_spec cid w r w' :
  query_messages cid w = (r, w') →
  same_env w w' ∧ conversations w' = conversations w ∧
  messages w' = messages w ∧
  match r with
  | inl rows =>
      next_fault w = None ∧ rows = select_messages cid (messages w) ∧
      effects w' = effects w ++ [(SelectMessages cid, true)]
  | inr e =>
      next_fault w = Some e ∧
      effects w' = effects w ++ [(SelectMessages cid, false)]
  end.
Proof.
  unfold query_messages. intros Hq.
  destruct (next_fault w) eqn:Hf; simplify_eq; repeat split.
Qed.

Lemma getMessages_spec cid w r w' :
  getMessages cid w = (r, w') →
  same_env w w' ∧ conversations w' = conversations w ∧
  messages w' = messages w ∧
  match r with
  | inl hist =>
      next_fault w = None ∧
      hist = append_all nil_slice (select_messages cid (messages w)) ∧
      effects w' = effects w ++ [(SelectMessages cid, true)]
  | inr e =>
      next_fault w = Some e ∧
      effects w' = effects w ++ [(SelectMessages cid, false)]
  end.
Proof.
  unfold getMessages. intros Hg.
  destruct (query_messages cid w) as [[rows|e] w1] eqn:Hq; simplify_eq;
    apply query_messages_spec in Hq as (?&?&?&?); destruct_and?;
    subst; split_and!; auto.
Qed.

Lemma saveMessage_spec cid role content w r w' :
  saveMessage cid role content w = (r, w') →
  let msg := new_message cid role content w in
  same_env w w' ∧ conversations w' = conversations w ∧
  uuids_drawn w' = S (uuids_drawn w) ∧
  match r with
  | inl m =>
      m = msg ∧ next_fault w = None ∧ messages w !! ID msg = None ∧
      is_Some (conversations w !! cid) ∧
      messages w' = <[ID msg := row_of msg]> (messages w) ∧
      effects w' = effects w ++ [(InsertMessage msg, true)]
  | inr e =>
      messages w' = messages w ∧
      effects w' = effects w ++ [(InsertMessage msg, false)]
  end.
Proof.
  unfold saveMessage, uuid_New, time_Now, exec_insert_message, next_fault.
  cbn. intros Hs.
  destruct (fault w (length (effects w))) eqn:Hf; simplify_eq; cbn.
  { repeat split. }
  repeat case_decide; simplify_eq; cbn; repeat split; auto.
  - by apply eq_None_not_Some.
  - by apply not_eq_None_Some.
Qed.

Lemma saveMessage_ok cid role content w :
  let msg := new_message cid role content w in
  next_fault w = None → messages w !! ID msg = None →
  is_Some (conversations w !! cid) →
  ∃ w', saveMessage cid role content w = (inl msg, w') ∧
        same_env w w' ∧ conversations w' = conversations w ∧
        uuids_drawn w' = S (uuids_drawn w) ∧
        time_reads w' = S (time_reads w) ∧
        messages w' = <[ID msg := row_of msg]> (messages w) ∧
        effects w' = effects w ++ [(InsertMessage msg, true)].
Proof.
  intros msg Hf Hfresh Hconv.
  unfold saveMessage, uuid_New, time_Now, exec_insert_message, next_fault.
  unfold next_fault in Hf. cbn. rewrite Hf.
  fold (new_message cid role content w). fold msg.
  rewrite decide_False; [|by apply eq_None_not_Some].
  rewrite decide_False; [|by apply not_eq_None_Some].
  eexists. split; [reflexivity|]. repeat split.
Qed.

Lemma createConversation_spec w r w' :
  createConversation w = (r, w') →
  let conv := {| c_ID := uuid_source w (uuids_drawn w);
                 c_CreatedAt := time_source w (time_reads w) |} in
  same_env w w' ∧ messages w' = messages w ∧
  uuids_drawn w' = S (uuids_drawn w) ∧
  match r with
  | inl c =>
      c = conv ∧ conversations w !! c_ID conv = None ∧
      conversations w'
        = <[c_ID conv := timestamp_column (c_CreatedAt conv)]>
            (conversations w) ∧
      effects w' = effects w ++ [(InsertConversation conv, true)]
  | inr e =>
      conversations w' = conversations w ∧
      effects w' = effects w ++ [(InsertConversation conv, false)]
  end.
Proof.
  unfold createConversation, uuid_New, time_Now, exec_insert_conversation,
    next_fault.
  cbn. intros Hs.
  destruct (fault w (length (effects w))) eqn:Hf; simplify_eq; cbn.
  { repeat split. }
  repeat case_decide; simplify_eq; cbn; repeat split; auto.
  by apply eq_None_not_Some.
Qed.

Lemma Chat_spec hist content w r w' :
  Chat hist content w = (r, w') →
  same_env w w' ∧ conversations w' = conversations w ∧
  messages w' = messages w ∧ uuids_drawn w' = uuids_drawn w ∧
  time_reads w' = time_reads w ∧
  effects w' =
    effects w
    ++ [(PostChatCompletions (vllm_messages hist content),
         if r is inl _ then true else false)].
Proof.
  unfold Chat. intros Hc.
  repeat case_match; simplify_eq; repeat split.
Qed.


Lemma deleteMessages_spec cid w r w' :
  deleteMessages cid w = (r, w') →
  same_env w w' ∧ conversations w' = conversations w ∧
  match r with
  | inl ok =>
      ok = true ∧ next_fault w = None ∧
      messages w' = filter (λ kv, row_conversation_id kv.2 ≠ cid) (messages w) ∧
      effects w' = effects w ++ [(DeleteMessages cid, true)]
  | inr e =>
      next_fault w = Some e ∧ messages w' = messages w ∧
      effects w' = effects w ++ [(DeleteMessages cid, false)]
  end.
Proof.
  unfold deleteMessages, exec_delete_messages. intros Hd.
  destruct (next_fault w) eqn:Hf; simplify_eq; repeat split.
Qed.

Lemma deleteConversation_spec cid w r w' :
  deleteConversation cid w = (r, w') →
  same_env w w' ∧ messages w' = messages w ∧
  match r with
  | inl ok =>
      ok = true ∧ next_fault w = None ∧
      conversations w' = delete cid (conversations w) ∧
      effects w' = effects w ++ [(DeleteConversationRow cid, true)]
  | inr e =>
      conversations w' = conversations w ∧
      effects w' = effects w ++ [(DeleteConversationRow cid, false)]
  end.
Proof.
  unfold deleteConversation, exec_delete_conversation. intros Hd.
  destruct (next_fault w) eqn:Hf; simplify_eq; [repeat split|].
  case_decide; simplify_eq; repeat split.
Qed.

(** ** The engine *)

Lemma durable_write_inv f m m' :
  durable_write f m = Some m' →
  store m' = f (store m) ∧ world m' = world m ∧
  invocations m' = invocations m ∧ launches m' = launches m ∧
  sleeps m' = sleeps m ∧
  (fuse m = None → fuse m' = None).
Proof.
  unfold durable_write. intros Hw.
  destruct (fuse m) as [[|k]|]; simplify_eq; split_and!; done.
Qed.

Lemma durable_write_alive f m :
  fuse m = None →
  durable_write f m =
    Some {| world := world m; store := f (store m); fuse := None;
            invocations := invocations m; launches := launches m;
            sleeps := sleeps m |}.
Proof. unfold durable_write. by intros ->. Qed.

Lemma memoized_record_step wid n r k s :
  memoized wid n s = None →
  record_step wid n r k s =
    {| executions := executions s;
       steps :=
         <[(wid, n) :=
             {| outcome := match r with
                           | inl v => StepSuccess v
                           | inr e => StepError e
                           end;
                attempt_count := k |}]> (steps s) |}.
Proof. unfold record_step. by intros ->. Qed.

Lemma memoized_Some wid n s v :
  memoized wid n s = Some v ↔
  ∃ k, steps s !! (wid, n) = Some {| outcome := StepSuccess v;
                                     attempt_count := k |}.
Proof.
  unfold memoized. split.
  - destruct (steps s !! (wid, n)) as [[[] k]|]; intros; simplify_eq. eauto.
  - by intros [k ->].
Qed.

Lemma invoke_store wid n body m : store (invoke wid n body m).2 = store m.
Proof. unfold invoke. by destruct (body _). Qed.

Lemma invoke_fuse wid n body m : fuse (invoke wid n body m).2 = fuse m.
Proof. unfold invoke. by destruct (body _). Qed.

Lemma invoke_launches wid n body m :
  launches (invoke wid n body m).2 = launches m.
Proof. unfold invoke. by destruct (body _). Qed.

Lemma invoke_sleeps wid n body m : sleeps (invoke wid n body m).2 = sleeps m.
Proof. unfold invoke. by destruct (body _). Qed.

Lemma invoke_invocations wid n body m :
  invocations (invoke wid n body m).2 = invocations m ++ [(wid, n)].
Proof. unfold invoke. by destruct (body _). Qed.

Lemma invoke_world wid n body m :
  ((invoke wid n body m).1, world (invoke wid n body m).2) = body (world m).
Proof. unfold invoke. cbn. by destruct (body _). Qed.

(** *** The engine moves by ticks *)

Lemma attempt_store p wid n body retries made m :
  store (attempt p wid n body retries made m).2 = store m.
Proof.
  revert made m. induction retries as [|retries IH]; intros made m; cbn;
    destruct (invoke wid n body m) as [[v|e] m1] eqn:Hi; cbn;
    try destruct (transient p e); cbn; rewrite ?IH; cbn;
    by rewrite <- (invoke_store wid n body m), Hi.
Qed.

Lemma attempt_ticks p wid n body retries made m :
  memoized wid n (store m) = None →
  rtc (step_tick wid) m (attempt p wid n body retries made m).2.
Proof.
  revert made m. induction retries as [|retries IH]; intros made m Hmemo; cbn.
  - pose proof (step_tick_invoke wid n body m Hmemo) as Ht.
    destruct (invoke wid n body m) as [[v|e] m1]; cbn in *;
      try destruct (transient p e); cbn; by apply rtc_once.
  - pose proof (step_tick_invoke wid n body m Hmemo) as Ht.
    pose proof (invoke_store wid n body m) as Hs.
    destruct (invoke wid n body m) as [[v|e] m1]; cbn in *;
      try destruct (transient p e); cbn; try by apply rtc_once.
    eapply rtc_l; [exact Ht|]. eapply rtc_l; [apply step_tick_sleep|].
    apply IH. cbn. by rewrite Hs.
Qed.

Lemma run_step_ticks p wid n body m :
  rtc (step_tick wid) m (run_step p wid n body m).2.
Proof.
  unfold run_step. destruct (memoized wid n (store m)) eqn:Hmemo; [done|].
  pose proof (attempt_ticks p wid n body (max_attempts p - 1) 0 m Hmemo) as Ht.
  pose proof (attempt_store p wid n body (max_attempts p - 1) 0 m) as Hs.
  destruct (attempt _ _ _ _ _ _ _) as [[r made] m1]. cbn in *.
  destruct (durable_write _ m1) as [m2|] eqn:Hw; cbn; [|done].
  eapply rtc_r; [exact Ht|]. eapply step_tick_record; [|exact Hw].
  by rewrite Hs.
Qed.

Lemma exec_ticks {R} p wid n (wf : Workflow R) m :
  rtc (step_tick wid) m (exec p wid n wf m).2.
Proof.
  revert n m. induction wf as [r|body k IH]; intros n m; cbn; [done|].
  pose proof (run_step_ticks p wid n body m) as Ht.
  destruct (run_step p wid n body m) as [[r|] m1]; cbn in *; [|done].
  by etrans; [exact Ht|apply IH].
Qed.

Lemma step_tick_executions wid m m' :
  step_tick wid m m' → executions (store m') = executions (store m).
Proof.
  destruct 1 as [n body m _|d m|n r k m m' Hmemo Hw].
  - by rewrite invoke_store.
  - done.
  - apply durable_write_inv in Hw as (->&_).
    by rewrite memoized_record_step.
Qed.

Lemma step_tick_launches wid m m' :
  step_tick wid m m' → launches m' = launches m.
Proof.
  destruct 1 as [n body m _|d m|n r k m m' Hmemo Hw].
  - by rewrite invoke_launches.
  - done.
  - by apply durable_write_inv in Hw as (_&_&_&->&_).
Qed.

Lemma step_ticks_executions wid m m' :
  rtc (step_tick wid) m m' → executions (store m') = executions (store m).
Proof.
  induction 1 as [|m1 m2 m3 Ht _ IH]; [done|].
  by rewrite IH, (step_tick_executions _ _ _ Ht).
Qed.

Lemma step_ticks_launches wid m m' :
  rtc (step_tick wid) m m' → launches m' = launches m.
Proof.
  induction 1 as [|m1 m2 m3 Ht _ IH]; [done|].
  by rewrite IH, (step_tick_launches _ _ _ Ht).
Qed.

Lemma step_ticks_ticks wid m m' :
  is_Some (executions (store m) !! wid) →
  rtc (step_tick wid) m m' → rtc tick m m'.
Proof.
  intros Hrow Hticks. induction Hticks as [|m1 m2 m3 Ht _ IH]; [done|].
  eapply rtc_l; [by eapply tick_step|].
  apply IH. by rewrite (step_tick_executions _ _ _ Ht).
Qed.

Lemma run_execution_ticks ctx wid f inp m :
  rtc tick m (run_execution ctx wid f inp m).2.
Proof.
  unfold run_execution.
  destruct (durable_write (mark_running wid) m) as [m1|] eqn:Hw; [|done].
  eapply rtc_l; [by eapply tick_running|].
  destruct (state <$> executions (store m1) !! wid) as [[]|] eqn:Hst;
    try done.
  eapply rtc_l; [by apply (tick_launch wid)|].
  pose proof (exec_ticks (policy ctx) wid 0 (f inp) (note_launch wid m1)) as Ht.
  destruct (exec _ _ _ _ _) as [[res|] m2]; cbn in *.
  - etrans.
    { eapply step_ticks_ticks; [|exact Ht]. cbn.
      destruct (executions (store m1) !! wid); by simplify_eq/=. }
    destruct (durable_write (finalize wid res) m2) as [m3|] eqn:Hf; cbn;
      [|done].
    apply rtc_once. by eapply tick_finalize.
  - eapply step_ticks_ticks; [|exact Ht]. cbn.
    destruct (executions (store m1) !! wid); by simplify_eq/=.
Qed.

Lemma Start_ticks ctx name inp id m :
  rtc tick m (Start ctx name inp id m).2.
Proof.
  unfold Start. destruct (registry ctx !! name) as [f|]; [|done].
  destruct (executions (store m) !! _); [done|].
  destruct (durable_write _ m) as [m1|] eqn:Hw; [|done].
  eapply rtc_l; [by eapply tick_create|].
  pose proof (run_execution_ticks ctx (execution_id id (store m)) f inp m1).
  by destruct (run_execution _ _ _ _ _) as [[|] m2].
Qed.

Lemma recover_all_ticks ctx l m : rtc tick m (recover_all ctx l m).2.
Proof.
  revert m. induction l as [|[wid e] l IH]; intros m; cbn; [done|].
  destruct (registry ctx !! workflow_name e) as [f|]; [|done].
  pose proof (run_execution_ticks ctx wid f (input e) m) as Ht.
  destruct (run_execution _ _ _ _ _) as [[|] m1]; cbn in *; [|done].
  by etrans; [exact Ht|apply IH].
Qed.

Lemma engine_call_ticks ctx c m : rtc tick m (engine_call ctx c m).
Proof.
  destruct c as [name inp id| |f]; cbn.
  - apply Start_ticks.
  - apply recover_all_ticks.
  - apply rtc_once, tick_restart.
Qed.

Lemma engine_calls_ticks ctx cs m : rtc tick m (engine_calls ctx cs m).
Proof.
  revert m. induction cs as [|c cs IH]; intros m; cbn; [done|].
  etrans; [apply engine_call_ticks|apply IH].
Qed.

(** *** What a tick preserves *)

Lemma exec_le_refl e : exec_le e e.
Proof. by split_and!. Qed.

Lemma exec_le_trans e1 e2 e3 : exec_le e1 e2 → exec_le e2 e3 → exec_le e1 e3.
Proof.
  intros (Hn1&Hi1&Hs1&Ht1) (Hn2&Hi2&Hs2&Ht2). split_and!.
  - congruence.
  - congruence.
  - by etrans.
  - intros Hterm. specialize (Ht1 Hterm). subst e2. auto.
Qed.

Lemma create_execution_rows wid0 name inp s wid e :
  executions s !! wid = Some e →
  executions (create_execution wid0 name inp s) !! wid = Some e.
Proof.
  intros Hrow. unfold create_execution.
  destruct (executions s !! wid0) eqn:Hrow0; [done|]. cbn.
  rewrite lookup_insert_ne; [done|]. congruence.
Qed.

Lemma mark_running_rows wid0 s wid e :
  executions s !! wid = Some e →
  ∃ e', executions (mark_running wid0 s) !! wid = Some e' ∧ exec_le e e'.
Proof.
  intros Hrow. unfold mark_running.
  destruct (executions s !! wid0) as [e0|] eqn:Hrow0;
    [|eauto using exec_le_refl].
  destruct (state e0) eqn:Hst; eauto using exec_le_refl.
  unfold set_state. cbn. destruct (decide (wid0 = wid)) as [->|Hne].
  - rewrite lookup_insert_eq. eexists. split; [done|]. simplify_eq.
    split_and!; cbn; try done.
    + unfold status. rewrite Hst. cbn. apply rtc_once. constructor.
    + by rewrite Hst.
  - rewrite lookup_insert_ne by done. eauto using exec_le_refl.
Qed.

Lemma finalize_rows wid0 res s wid e :
  executions s !! wid = Some e →
  ∃ e', executions (finalize wid0 res s) !! wid = Some e' ∧ exec_le e e'.
Proof.
  intros Hrow. unfold finalize.
  destruct (executions s !! wid0) as [e0|] eqn:Hrow0;
    [|eauto using exec_le_refl].
  destruct (state e0) eqn:Hst; eauto using exec_le_refl.
  unfold set_state. cbn. destruct (decide (wid0 = wid)) as [->|Hne].
  - rewrite lookup_insert_eq. eexists. split; [done|]. simplify_eq.
    split_and!; cbn; try done.
    + unfold status. rewrite Hst. cbn. apply rtc_once.
      destruct res.2; constructor.
    + by rewrite Hst.
  - rewrite lookup_insert_ne by done. eauto using exec_le_refl.
Qed.

Lemma tick_rows m m' wid e :
  tick m m' → executions (store m) !! wid = Some e →
  ∃ e', executions (store m') !! wid = Some e' ∧ exec_le e e'.
Proof.
  intros Ht Hrow. destruct Ht as [wid0 m m' _ Hs|wid0 name inp m m' Hw
    |wid0 m m' Hw|wid0 res m m' Hw|wid0 m _|f m].
  - rewrite (step_tick_executions _ _ _ Hs). eauto using exec_le_refl.
  - apply durable_write_inv in Hw as (->&_).
    eauto using create_execution_rows, exec_le_refl.
  - apply durable_write_inv in Hw as (->&_). by apply mark_running_rows.
  - apply durable_write_inv in Hw as (->&_). by apply finalize_rows.
  - eauto using exec_le_refl.
  - eauto using exec_le_refl.
Qed.

Lemma ticks_rows m m' wid e :
  rtc tick m m' → executions (store m) !! wid = Some e →
  ∃ e', executions (store m') !! wid = Some e' ∧ exec_le e e'.
Proof.
  intros Hticks. revert e. induction Hticks as [|m1 m2 m3 Ht _ IH]; intros e Hrow.
  - eauto using exec_le_refl.
  - destruct (tick_rows _ _ _ _ Ht Hrow) as (e2&Hrow2&Hle2).
    destruct (IH _ Hrow2) as (e3&Hrow3&Hle3).
    eauto using exec_le_trans.
Qed.

Lemma invoked_snoc wid n m key :
  invoked wid n
    {| world := world m; store := store m; fuse := fuse m;
       invocations := invocations m ++ [key]; launches := launches m;
       sleeps := sleeps m |} =
  invoked wid n m + (if decide (key = (wid, n)) then 1 else 0).
Proof.
  unfold invoked. cbn. rewrite filter_app, length_app. f_equal.
  rewrite filter_cons, filter_nil. by case_decide.
Qed.

Lemma step_tick_memo wid0 m m' wid n v :
  step_tick wid0 m m' → memoized wid n (store m) = Some v →
  steps (store m') !! (wid, n) = steps (store m) !! (wid, n) ∧
  invoked wid n m' = invoked wid n m.
Proof.
  intros Ht Hmemo. destruct Ht as [n0 body m Hnone|d m|n0 r k m m' Hnone Hw].
  - rewrite invoke_store. split; [done|].
    unfold invoked. rewrite invoke_invocations, filter_app, length_app.
    rewrite filter_cons, filter_nil. rewrite decide_False; [cbn; lia|].
    intros [= -> ->]. congruence.
  - done.
  - apply durable_write_inv in Hw as (->&_&Hi&_). split.
    + rewrite memoized_record_step by done. cbn.
      rewrite lookup_insert_ne; [done|]. intros [= -> ->]. congruence.
    + unfold invoked. by rewrite Hi.
Qed.

Lemma tick_memo m m' wid n v :
  tick m m' → memoized wid n (store m) = Some v →
  steps (store m') !! (wid, n) = steps (store m) !! (wid, n) ∧
  invoked wid n m' = invoked wid n m.
Proof.
  intros Ht Hmemo. destruct Ht as [wid0 m m' _ Hs|wid0 name inp m m' Hw
    |wid0 m m' Hw|wid0 res m m' Hw|wid0 m _|f m].
  - by eapply step_tick_memo.
  - apply durable_write_inv in Hw as (->&_&Hi&_). unfold invoked.
    rewrite Hi. split; [|done]. unfold create_execution.
    by destruct (executions (store m) !! wid0).
  - apply durable_write_inv in Hw as (->&_&Hi&_). unfold invoked.
    rewrite Hi. split; [|done]. unfold mark_running.
    destruct (executions (store m) !! wid0) as [e0|]; [|done].
    by destruct (state e0).
  - apply durable_write_inv in Hw as (->&_&Hi&_). unfold invoked.
    rewrite Hi. split; [|done]. unfold finalize.
    destruct (executions (store m) !! wid0) as [e0|]; [|done].
    by destruct (state e0).
  - done.
  - done.
Qed.

Lemma memoized_steps s s' wid n :
  steps s' !! (wid, n) = steps s !! (wid, n) →
  memoized wid n s' = memoized wid n s.
Proof. unfold memoized. by intros ->. Qed.

Lemma ticks_memo m m' wid n v :
  rtc tick m m' → memoized wid n (store m) = Some v →
  steps (store m') !! (wid, n) = steps (store m) !! (wid, n) ∧
  invoked wid n m' = invoked wid n m.
Proof.
  induction 1 as [|m1 m2 m3 Ht _ IH]; intros Hmemo; [done|].
  destruct (tick_memo _ _ _ _ _ Ht Hmemo) as [Hs Hi].
  destruct IH as [Hs' Hi'].
  { by rewrite (memoized_steps _ _ _ _ Hs). }
  split; congruence.
Qed.

Lemma tick_store_ok m m' : tick m m' → store_ok (store m) → store_ok (store m').
Proof.
  intros Ht Hok. destruct Ht as [wid0 m m' Hrow Hs|wid0 name inp m m' Hw
    |wid0 m m' Hw|wid0 res m m' Hw|wid0 m _|f m]; try done.
  - destruct Hs as [n0 body m Hnone|d m|n0 r k m m' Hnone Hw].
    + by rewrite invoke_store.
    + done.
    + apply durable_write_inv in Hw as (->&_).
      rewrite memoized_record_step by done. intros wid n. cbn.
      destruct (decide ((wid0, n0) = (wid, n))) as [[= -> ->]|Hne]; [done|].
      rewrite lookup_insert_ne by done. apply Hok.
  - apply durable_write_inv in Hw as (->&_). intros wid n Hstep.
    unfold create_execution in *.
    destruct (executions (store m) !! wid0) eqn:Hrow0; [by eapply Hok|].
    cbn in *. destruct (decide (wid0 = wid)) as [->|Hne].
    + by rewrite lookup_insert_eq.
    + rewrite lookup_insert_ne by done. by eapply Hok.
  - apply durable_write_inv in Hw as (->&_). intros wid n Hstep.
    unfold mark_running in *.
    destruct (executions (store m) !! wid0) as [e0|] eqn:Hrow0;
      [|by eapply Hok].
    destruct (state e0); try by eapply Hok.
    cbn in *. destruct (decide (wid0 = wid)) as [->|Hne].
    + by rewrite lookup_insert_eq.
    + rewrite lookup_insert_ne by done. by eapply Hok.
  - apply durable_write_inv in Hw as (->&_). intros wid n Hstep.
    unfold finalize in *.
    destruct (executions (store m) !! wid0) as [e0|] eqn:Hrow0;
      [|by eapply Hok].
    destruct (state e0); try by eapply Hok.
    cbn in *. destruct (decide (wid0 = wid)) as [->|Hne].
    + by rewrite lookup_insert_eq.
    + rewrite lookup_insert_ne by done. by eapply Hok.
Qed.

Lemma ticks_store_ok m m' :
  rtc tick m m' → store_ok (store m) → store_ok (store m').
Proof. induction 1; eauto using tick_store_ok. Qed.

(** ** Replay, idempotent start and terminal states *)

Lemma run_step_memoized p wid n body m v :
  memoized wid n (store m) = Some v →
  run_step p wid n body m = (Done (inl v), m).
Proof. unfold run_step. by intros ->. Qed.

Lemma exec_RunAsStep {T R} `{Serial T} p wid n
    (body : World → (T + error) * World) (k : T + error → Workflow R) m :
  exec p wid n (RunAsStep body ≫= k) m =
    match run_step p wid n (serialized body) m with
    | (Done r, m1) => exec p wid (S n) (k (decode_result r)) m1
    | (Crashed, m1) => (Crashed, m1)
    end.
Proof. reflexivity. Qed.

(** C2. Replay-skip: once step [n] of execution [wid] has a SUCCESS row
    with output [v], no sequence of engine calls (starts, restarts,
    recoveries) invokes the body of that step again; the row stays as it is,
    and a workflow function that reaches position [n] is handed [v] without
    any change of state. *)
Theorem replay_skip ctx cs m wid n v k :
  steps (store m) !! (wid, n)
    = Some {| outcome := StepSuccess v; attempt_count := k |} →
  let m' := engine_calls ctx cs m in
  invoked wid n m' = invoked wid n m ∧
  steps (store m') !! (wid, n)
    = Some {| outcome := StepSuccess v; attempt_count := k |} ∧
  (∀ body, run_step (policy ctx) wid n body m' = (Done (inl v), m')) ∧
  (∀ T (ser : Serial T) R (body : World → (T + error) * World)
     (f : T + error → Workflow R),
     exec (policy ctx) wid n (RunAsStep body ≫= f) m'
       = exec (policy ctx) wid (S n) (f (decode_result (inl v))) m').
Proof.
  intros Hrow m'.
  assert (memoized wid n (store m) = Some v) as Hmemo.
  { apply memoized_Some. eauto. }
  destruct (ticks_memo m m' wid n v (engine_calls_ticks ctx cs m) Hmemo)
    as [Hsteps Hinv].
  assert (memoized wid n (store m') = Some v) as Hmemo'.
  { by rewrite (memoized_steps _ _ _ _ Hsteps). }
  split_and!.
  - done.
  - by rewrite Hsteps.
  - intros body. by apply run_step_memoized.
  - intros T ser R body f. rewrite exec_RunAsStep.
    by rewrite (run_step_memoized _ _ _ _ _ _ Hmemo').
Qed.

Lemma status_terminal_stuck s s' :
  rtc status_next s s' → s = SUCCESS ∨ s = ERROR → s' = s.
Proof.
  destruct 1 as [|s1 s2 s3 Hn _]; [done|].
  intros [->| ->]; inversion Hn.
Qed.

Lemma GetResult_terminal wid m e :
  executions (store m) !! wid = Some e → terminal (state e) = true →
  GetResult wid m =
    Some match state e with
         | Failed err => inr err
         | Succeeded v => inl v
         | _ => inr ""%string
         end.
Proof. unfold GetResult. intros -> Ht. cbn. by destruct (state e). Qed.

(** C7. The status of an execution only moves forward along PENDING,
    RUNNING, then SUCCESS or ERROR, whatever calls the engine receives; once
    it is terminal the row never changes again, so there is no second
    terminal transition, and [GetResult] gives every caller, at any later
    time, the same output or the same error. *)
Theorem status_monotone_single_outcome ctx cs m wid e :
  executions (store m) !! wid = Some e →
  let m' := engine_calls ctx cs m in
  ∃ e', executions (store m') !! wid = Some e' ∧
        workflow_name e' = workflow_name e ∧ input e' = input e ∧
        rtc status_next (status e) (status e') ∧
        (terminal (state e) = true →
         e' = e ∧ is_Some (GetResult wid m) ∧
         GetResult wid m' = GetResult wid m).
Proof.
  intros Hrow m'.
  destruct (ticks_rows m m' wid e (engine_calls_ticks ctx cs m) Hrow)
    as (e'&Hrow'&Hn&Hi&Hs&Ht).
  exists e'. split_and!; try done.
  intros Hterm. specialize (Ht Hterm). subst e'. split_and!; [done| |].
  - by rewrite (GetResult_terminal _ _ _ Hrow Hterm).
  - by rewrite (GetResult_terminal _ _ _ Hrow Hterm),
      (GetResult_terminal _ _ _ Hrow' Hterm).
Qed.

Lemma launched_snoc wid m wid' :
  launched wid (note_launch wid' m) =
  launched wid m + (if decide (wid' = wid) then 1 else 0).
Proof.
  unfold launched. cbn. rewrite filter_app, length_app. f_equal.
  rewrite filter_cons, filter_nil. by case_decide.
Qed.

Lemma run_execution_launches ctx wid f inp m :
  launches (run_execution ctx wid f inp m).2 = launches m ∨
  launches (run_execution ctx wid f inp m).2 = launches m ++ [wid].
Proof.
  unfold run_execution.
  destruct (durable_write (mark_running wid) m) as [m1|] eqn:Hw; [|by left].
  apply durable_write_inv in Hw as (_&_&_&Hl&_).
  destruct (state <$> executions (store m1) !! wid) as [[]|];
    cbn; rewrite <- ?Hl; try by left.
  pose proof (exec_ticks (policy ctx) wid 0 (f inp) (note_launch wid m1)) as Ht.
  apply step_ticks_launches in Ht.
  destruct (exec _ _ _ _ _) as [[res|] m2]; cbn in *; [|by right].
  destruct (durable_write (finalize wid res) m2) as [m3|] eqn:Hf; cbn;
    [|by right].
  apply durable_write_inv in Hf as (_&_&_&Hl3&_). right. congruence.
Qed.

Lemma create_execution_other wid name inp s wid' :
  wid' ≠ wid →
  executions (create_execution wid name inp s) !! wid' = executions s !! wid'.
Proof.
  intros Hne. unfold create_execution.
  destruct (executions s !! wid); [done|]. cbn. by rewrite lookup_insert_ne.
Qed.

Lemma mark_running_other wid s wid' :
  wid' ≠ wid →
  executions (mark_running wid s) !! wid' = executions s !! wid'.
Proof.
  intros Hne. unfold mark_running.
  destruct (executions s !! wid) as [e|]; [|done].
  destruct (state e); try done. cbn. by rewrite lookup_insert_ne.
Qed.

Lemma finalize_other wid res s wid' :
  wid' ≠ wid →
  executions (finalize wid res s) !! wid' = executions s !! wid'.
Proof.
  intros Hne. unfold finalize.
  destruct (executions s !! wid) as [e|]; [|done].
  destruct (state e); try done. cbn. by rewrite lookup_insert_ne.
Qed.

Lemma run_execution_other ctx wid f inp m wid' :
  wid' ≠ wid →
  executions (store (run_execution ctx wid f inp m).2) !! wid'
    = executions (store m) !! wid'.
Proof.
  intros Hne. unfold run_execution.
  destruct (durable_write (mark_running wid) m) as [m1|] eqn:Hw; [|done].
  apply durable_write_inv in Hw as (Hs1&_).
  assert (executions (store m1) !! wid' = executions (store m) !! wid') as H1.
  { rewrite Hs1. by apply mark_running_other. }
  destruct (state <$> executions (store m1) !! wid) as [[]|]; cbn; try done.
  pose proof (exec_ticks (policy ctx) wid 0 (f inp) (note_launch wid m1)) as Ht.
  apply step_ticks_executions in Ht.
  destruct (exec _ _ _ _ _) as [[res|] m2]; cbn in *; [|congruence].
  destruct (durable_write (finalize wid res) m2) as [m3|] eqn:Hf; cbn;
    [|congruence].
  apply durable_write_inv in Hf as (->&_).
  rewrite finalize_other by done. congruence.
Qed.

Lemma Start_existing ctx name inp id m f e :
  registry ctx !! name = Some f →
  executions (store m) !! id = Some e →
  Start ctx name inp (Some id) m = (Done (inl id), m).
Proof. unfold Start. cbn. by intros -> ->. Qed.

Lemma Start_fresh_row ctx name inp id m f m1 :
  registry ctx !! name = Some f →
  executions (store m) !! id = None →
  durable_write (create_execution id name inp) m = Some m1 →
  (Start ctx name inp (Some id) m).2 = (run_execution ctx id f inp m1).2 ∧
  is_Some (executions (store (run_execution ctx id f inp m1).2) !! id).
Proof.
  intros Hreg Hrow Hw. split.
  - unfold Start. cbn. rewrite Hreg, Hrow, Hw.
    by destruct (run_execution _ _ _ _ _) as [[|] m2].
  - pose proof Hw as Hw'. apply durable_write_inv in Hw' as (Hs&_).
    assert (is_Some (executions (store m1) !! id)) as [e1 He1].
    { rewrite Hs. unfold create_execution. rewrite Hrow. cbn.
      by rewrite lookup_insert_eq. }
    destruct (ticks_rows _ _ _ _ (run_execution_ticks ctx id f inp m1) He1)
      as (e2&He2&_).
    by rewrite He2.
Qed.

(** C6. Idempotent Start: a second [Start] with the same id and input
    changes nothing at all (no row is created, no body and no workflow
    function is invoked); over both calls the workflow function is started at
    most once and no row other than the one of [id] is touched; the second
    call attaches to the row of [id] and returns its handle; and a [Start]
    for an id that already has a row, terminal or not, returns the handle
    and leaves the stored result as it is. *)
Theorem idempotent_Start ctx name inp id m :
  let r1 := Start ctx name inp (Some id) m in
  let r2 := Start ctx name inp (Some id) r1.2 in
  r2.2 = r1.2 ∧
  (launched id r2.2 ≤ S (launched id m))%nat ∧
  (∀ wid, wid ≠ id →
     executions (store r2.2) !! wid = executions (store m) !! wid) ∧
  (is_Some (registry ctx !! name) →
   is_Some (executions (store r1.2) !! id) → r2.1 = Done (inl id)) ∧
  (∀ e, executions (store m) !! id = Some e →
        is_Some (registry ctx !! name) →
        r1 = (Done (inl id), m) ∧ GetResult id r1.2 = GetResult id m).
Proof.
  intros r1 r2.
  destruct (registry ctx !! name) as [f|] eqn:Hreg.
  2:{ assert (r1 = (Done (inr (UnknownWorkflow name)), m)) as Hr1.
      { subst r1. unfold Start. by rewrite Hreg. }
      assert (r2 = r1) as Hr2.
      { subst r2. rewrite Hr1. cbn. unfold Start. by rewrite Hreg. }
      rewrite Hr2, Hr1. cbn. split_and!; try done. lia. }
  destruct (executions (store m) !! id) as [e|] eqn:Hrow.
  { assert (r1 = (Done (inl id), m)) as Hr1.
    { subst r1. by eapply Start_existing. }
    assert (r2 = r1) as Hr2.
    { subst r2. rewrite Hr1. cbn. by eapply Start_existing. }
    rewrite Hr2, Hr1. cbn. split_and!; try done. lia. }
  destruct (durable_write (create_execution id name inp) m) as [m1|] eqn:Hw.
  2:{ assert (r1 = (Crashed, m)) as Hr1.
      { subst r1. unfold Start. cbn. by rewrite Hreg, Hrow, Hw. }
      assert (r2 = r1) as Hr2.
      { subst r2. rewrite Hr1. cbn. unfold Start. cbn.
        by rewrite Hreg, Hrow, Hw. }
      rewrite Hr2, Hr1. cbn. split_and!; try done; try lia.
      rewrite Hrow. by intros _ [? ?]. }
  destruct (Start_fresh_row _ _ _ _ _ _ _ Hreg Hrow Hw) as [Hr1 [e2 He2]].
  fold r1 in Hr1. rewrite <- Hr1 in He2.
  assert (r2 = (Done (inl id), r1.2)) as Hr2.
  { subst r2. by eapply Start_existing. }
  rewrite Hr2. cbn. split_and!; try done.
  - rewrite Hr1.
    pose proof (durable_write_inv _ _ _ Hw) as (_&_&_&Hl&_).
    unfold launched.
    destruct (run_execution_launches ctx id f inp m1) as [-> | ->];
      rewrite Hl; [lia|].
    rewrite filter_app, length_app. cbn. rewrite decide_True by done.
    cbn. lia.
  - intros wid Hne. rewrite Hr1, run_execution_other by done.
    pose proof (durable_write_inv _ _ _ Hw) as (->&_).
    by apply create_execution_other.
Qed.

(** ** The handlers *)

Lemma select_messages_sorted cid t :
  StronglySorted created_le (select_messages cid t).
Proof. apply StronglySorted_merge_sort; apply _. Qed.

Lemma select_messages_elem cid t x :
  x ∈ select_messages cid t ↔
  ∃ key row, t !! key = Some row ∧ x = scan_message (key, row) ∧
             ConversationID x = cid.
Proof.
  unfold select_messages. rewrite merge_sort_Permutation.
  rewrite list_elem_of_filter, list_elem_of_fmap. split.
  - intros (Hc&[key row]&->&Hin). apply elem_of_map_to_list in Hin. eauto.
  - intros (key&row&Hrow&->&Hc). split; [done|].
    exists (key, row). split; [done|]. by apply elem_of_map_to_list.
Qed.

Lemma scan_message_inj : Inj (=) (=) scan_message.
Proof.
  intros [k1 [c1 r1 t1 a1]] [k2 [c2 r2 t2 a2]]. unfold scan_message. cbn.
  by intros [= -> -> -> -> ->].
Qed.

Lemma select_messages_NoDup cid t : NoDup (select_messages cid t).
Proof.
  unfold select_messages. rewrite merge_sort_Permutation.
  apply NoDup_filter, NoDup_fmap_2; [apply scan_message_inj|].
  apply NoDup_map_to_list.
Qed.

Lemma select_conversations_sorted t :
  StronglySorted created_ge (select_conversations t).
Proof. apply StronglySorted_merge_sort; apply _. Qed.

Lemma select_conversations_elem t x :
  x ∈ select_conversations t ↔ t !! c_ID x = Some (c_CreatedAt x).
Proof.
  unfold select_conversations. rewrite merge_sort_Permutation.
  rewrite list_elem_of_fmap. split.
  - intros ([key at_]&->&Hin). by apply elem_of_map_to_list in Hin.
  - intros Hrow. exists (c_ID x, c_CreatedAt x). split; [by destruct x|].
    by apply elem_of_map_to_list.
Qed.

Lemma select_conversations_NoDup t : NoDup (select_conversations t).
Proof.
  unfold select_conversations. rewrite merge_sort_Permutation.
  apply NoDup_fmap_2; [|apply NoDup_map_to_list].
  intros [k1 t1] [k2 t2]. unfold scan_conversation. cbn. by intros [= -> ->].
Qed.

(** C9. When the conversation id parses and the database answers the
    query, [GetMessages] responds 200 with a JSON array holding exactly the
    rows of [messages] with that [conversation_id], each once, in ascending
    [created_at] order; [ListConversations] responds 200 with a JSON array
    of all rows of [conversations] in descending [created_at] order; with no
    rows either array is empty, and neither payload is ever [null]. *)
Theorem GetMessages_ListConversations parse c m id :
  parse (param_id c) = Some id →
  next_fault (world m) = None →
  (∃ rows,
     (GetMessages parse c m).1
       = Some {| code := 200; payload := JArray (json_Message <$> rows) |} ∧
     StronglySorted created_le rows ∧ NoDup rows ∧
     (∀ x, x ∈ rows ↔
           ∃ key row, messages (world m) !! key = Some row ∧
                      x = scan_message (key, row) ∧ ConversationID x = id) ∧
     ((∀ key row, messages (world m) !! key = Some row →
                  row_conversation_id row ≠ id) → rows = [])) ∧
  (∃ convs,
     (ListConversations m).1
       = Some {| code := 200;
                 payload := JArray (json_Conversation <$> convs) |} ∧
     StronglySorted created_ge convs ∧ NoDup convs ∧
     (∀ x, x ∈ convs ↔
           conversations (world m) !! c_ID x = Some (c_CreatedAt x)) ∧
     (conversations (world m) = ∅ → convs = [])).
Proof.
  intros Hparse Hfault. split.
  - exists (select_messages id (messages (world m))). split_and!.
    + unfold GetMessages, query_messages. rewrite Hparse, Hfault. cbn.
      by rewrite append_all_mk.
    + apply select_messages_sorted.
    + apply select_messages_NoDup.
    + apply select_messages_elem.
    + intros Hnone.
      destruct (select_messages id (messages (world m))) as [|x l] eqn:Hsel;
        [done|].
      assert (x ∈ select_messages id (messages (world m))) as Hin.
      { rewrite Hsel. by left. }
      apply select_messages_elem in Hin as (key&row&Hrow&->&Hc).
      by destruct (Hnone _ _ Hrow).
  - exists (select_conversations (conversations (world m))). split_and!.
    + unfold ListConversations, query_conversations. rewrite Hfault. cbn.
      by rewrite append_all_mk.
    + apply select_conversations_sorted.
    + apply select_conversations_NoDup.
    + apply select_conversations_elem.
    + intros Hempty.
      destruct (select_conversations (conversations (world m)))
        as [|x l] eqn:Hsel; [done|].
      assert (x ∈ select_conversations (conversations (world m))) as Hin.
      { rewrite Hsel. by left. }
      apply select_conversations_elem in Hin. by rewrite Hempty in Hin.
Qed.

Lemma ShouldBindJSON_error b :
  lacks_content b ↔ ∃ e, ShouldBindJSON b = inr e.
Proof.
  unfold lacks_content. split.
  - intros Hl. destruct b as [|[s|]]; cbn; eauto.
    rewrite (Hl s eq_refl). cbn. eauto.
  - intros [e He] s ->. cbn in He. by case_decide.
Qed.

(** C8. A [SendMessage] request whose id parameter is not a UUID, or whose
    body has no non-empty [content], is answered 400 and leaves the process
    exactly as it was; one for a conversation that has no row is answered
    404; in all three cases the engine's store is unchanged (no execution
    row, no step row), no workflow function is started, no step body runs
    and both tables keep their rows. *)
Theorem SendMessage_rejected parse h c m :
  parse (param_id c) = None ∨ lacks_content (body c) ∨
  (∃ id, parse (param_id c) = Some id ∧ conversations (world m) !! id = None) →
  ∃ resp m',
    SendMessage parse h c m = (Some resp, m') ∧
    (parse (param_id c) = None ∨ lacks_content (body c) →
     code resp = 400 ∧ m' = m) ∧
    (¬ (parse (param_id c) = None ∨ lacks_content (body c)) →
     code resp = 404) ∧
    store m' = store m ∧ launches m' = launches m ∧
    invocations m' = invocations m ∧
    messages (world m') = messages (world m) ∧
    conversations (world m') = conversations (world m).
Proof.
  intros Hrej. unfold SendMessage.
  destruct (parse (param_id c)) as [id|] eqn:Hparse.
  2:{ eexists _, _. split; [done|]. split_and!; try done. intros []. by left. }
  destruct (ShouldBindJSON (body c)) as [req|e] eqn:Hbind.
  2:{ eexists _, _. split; [done|]. split_and!; try done.
      intros []. right. apply ShouldBindJSON_error. eauto. }
  assert (¬ lacks_content (body c)) as Hcontent.
  { rewrite ShouldBindJSON_error. intros [e He]. congruence. }
  destruct Hrej as [?|[?|(id'&?&Hmissing)]]; [done|done|]. simplify_eq.
  unfold query_exists.
  destruct (next_fault (world m)) eqn:Hfault; cbn.
  - eexists _, _. split; [done|]. split_and!; try done. by intros [|].
  - rewrite Hmissing. rewrite bool_decide_eq_false_2 by (by intros [? ?]).
    eexists _, _. split; [done|]. split_and!; try done. by intros [|].
Qed.

Lemma run_execution_crashed ctx wid f inp m m' e :
  run_execution ctx wid f inp m = (Crashed, m') →
  executions (store m) !! wid = Some e → state e = Pending →
  GetResult wid m' = None.
Proof.
  unfold run_execution. intros Hrun Hrow Hst.
  destruct (durable_write (mark_running wid) m) as [m1|] eqn:Hw.
  2:{ simplify_eq. unfold GetResult. by rewrite Hrow; cbn; rewrite Hst. }
  apply durable_write_inv in Hw as (Hs1&_).
  assert (state <$> executions (store m1) !! wid = Some Running) as Hrun1.
  { rewrite Hs1. unfold mark_running. rewrite Hrow, Hst. cbn.
    by rewrite lookup_insert_eq. }
  rewrite Hrun1 in Hrun.
  pose proof (exec_ticks (policy ctx) wid 0 (f inp) (note_launch wid m1)) as Ht.
  apply step_ticks_executions in Ht.
  destruct (exec _ _ _ _ _) as [[res|] m2]; cbn in *.
  - destruct (durable_write (finalize wid res) m2) as [m3|]; simplify_eq.
    unfold GetResult. by rewrite Ht, Hrun1.
  - simplify_eq. unfold GetResult. by rewrite Ht, Hrun1.
Qed.

Lemma fresh_execution_id s : executions s !! execution_id None s = None.
Proof.
  unfold execution_id. apply not_elem_of_dom. apply is_fresh.
Qed.

Lemma Start_handle ctx name inp id m wid m' :
  Start ctx name inp id m = (Done (inl wid), m') →
  wid = execution_id id (store m).
Proof.
  unfold Start. intros Hs. repeat case_match; by simplify_eq.
Qed.

Lemma Start_not_terminal ctx name inp m c m' :
  Start ctx name inp None m = (c, m') →
  (∀ wid, c ≠ Done (inl wid)) →
  GetResult (execution_id None (store m)) m' = None.
Proof.
  intros Hs Hc. pose proof (fresh_execution_id (store m)) as Hfresh.
  unfold Start in Hs.
  destruct (registry ctx !! name) as [f|].
  2:{ simplify_eq. unfold GetResult. by rewrite Hfresh. }
  rewrite Hfresh in Hs.
  destruct (durable_write _ m) as [m1|] eqn:Hw.
  2:{ simplify_eq. unfold GetResult. by rewrite Hfresh. }
  apply durable_write_inv in Hw as (Hs1&_).
  destruct (run_execution _ _ _ _ _) as [[[]|] m2] eqn:Hrun; simplify_eq.
  { by destruct (Hc (execution_id None (store m))). }
  eapply run_execution_crashed; [exact Hrun|..].
  - rewrite Hs1. unfold create_execution. rewrite Hfresh. cbn.
    by rewrite lookup_insert_eq.
  - done.
Qed.

(** C5. All-or-nothing response: when the execution that a [SendMessage]
    request started ended in ERROR with detail [err], the caller receives
    status 500 and a payload that consists of the error text alone; no
    message, persisted or not, is part of it. *)
Theorem SendMessage_all_or_nothing parse h c m err :
  GetResult (execution_id None (store m)) (SendMessage parse h c m).2
    = Some (inr err) →
  (SendMessage parse h c m).1
    = Some {| code := 500;
              payload := H_error ("Failed to get AI response: " +:+ err) |}.
Proof.
  pose proof (fresh_execution_id (store m)) as Hfresh.
  remember (execution_id None (store m)) as wid eqn:Hwid.
  assert (GetResult wid m = None) as Hnone.
  { unfold GetResult. by rewrite Hfresh. }
  assert (∀ w, store (set_world w m) = store m) as Hstore by done.
  unfold SendMessage, RunWorkflow.
  destruct (parse (param_id c)) as [id|]; [|cbn; congruence].
  destruct (ShouldBindJSON (body c)) as [req|e]; [|cbn; congruence].
  destruct (query_exists id (world m)) as [r w] eqn:Hq.
  specialize (Hstore w).
  set (m1 := set_world w m) in *.
  assert (GetResult wid m1 = None) as Hnone1 by done.
  clearbody m1.
  destruct r as [[|]|e]; [|cbn; congruence|cbn; congruence].
  destruct (Start _ _ _ _ _) as [c0 m2] eqn:Hs.
  destruct c0 as [[handle|e]|].
  - apply Start_handle in Hs. rewrite Hstore, <- Hwid in Hs. subst handle.
    unfold GetResultAs. cbn.
    destruct (GetResult wid m2) as [[v|e]|] eqn:Hg; cbn.
    + repeat case_match; cbn; congruence.
    + rewrite Hg. by intros [= ->].
    + congruence.
  - apply Start_not_terminal in Hs; [|done]. rewrite Hstore, <- Hwid in Hs.
    cbn. congruence.
  - apply Start_not_terminal in Hs; [|done]. rewrite Hstore, <- Hwid in Hs.
    cbn. congruence.
Qed.

(** ** Running steps *)

Lemma invoke_eq wid n body m :
  invoke wid n body m =
    ((body (world m)).1,
     set_world (body (world m)).2 (note_invocation wid n m)).
Proof. unfold invoke. cbn. by destruct (body (world m)). Qed.

Lemma attempt_unfold p wid n body retries made m :
  attempt p wid n body retries made m =
    let m1 := set_world (body (world m)).2 (note_invocation wid n m) in
    match (body (world m)).1 with
    | inl v => (inl v, S made, m1)
    | inr e =>
        if transient p e then
          match retries with
          | 0 => (inr e, S made, m1)
          | S retries' =>
              attempt p wid n body retries' (S made) (sleep (backoff p made) m1)
          end
        else (inr e, S made, m1)
    end.
Proof.
  destruct retries; cbn; rewrite invoke_eq;
    by destruct (body (world m)) as [[|] ?].
Qed.

(** Whatever the retries, the result comes from one last invocation, made
    in a world that earlier failed invocations led to. *)
Lemma attempt_inv (I : World → Prop) p wid n body retries made m r k m' :
  (∀ w e, I w → (body w).1 = inr e → I (body w).2) →
  I (world m) →
  attempt p wid n body retries made m = (r, k, m') →
  ∃ w, I w ∧ body w = (r, world m') ∧ store m' = store m ∧
       fuse m' = fuse m ∧ launches m' = launches m.
Proof.
  intros Hfail. revert made m.
  induction retries as [|retries IH]; intros made m HI;
    rewrite attempt_unfold; cbn;
    destruct (body (world m)) as [[v|e] w1] eqn:Hb; cbn.
  - intros [= <- <- <-]. exists (world m). by rewrite Hb.
  - destruct (transient p e); intros [= <- <- <-]; exists (world m);
      by rewrite Hb.
  - intros [= <- <- <-]. exists (world m). by rewrite Hb.
  - destruct (transient p e).
    + intros Ha. apply IH in Ha; [done|]. cbn.
      specialize (Hfail (world m) e HI). rewrite Hb in Hfail. by apply Hfail.
    + intros [= <- <- <-]. exists (world m). by rewrite Hb.
Qed.




Lemma steps_record_step wid n r k s :
  memoized wid n s = None →
  executions (record_step wid n r k s) = executions s ∧
  steps (record_step wid n r k s) =
    <[(wid, n) :=
        {| outcome := match r with
                      | inl v => StepSuccess v
                      | inr e => StepError e
                      end;
           attempt_count := k |}]> (steps s).
Proof. intros Hmemo. by rewrite memoized_record_step. Qed.

(** A step without SUCCESS row, run by a process that does not crash. *)
Lemma run_step_alive (I : World → Prop) p wid n body m c m' :
  fuse m = None → memoized wid n (store m) = None →
  (∀ w e, I w → (body w).1 = inr e → I (body w).2) →
  I (world m) →
  run_step p wid n body m = (c, m') →
  ∃ r made w,
    c = Done r ∧ I w ∧ body w = (r, world m') ∧
    fuse m' = None ∧ launches m' = launches m ∧
    executions (store m') = executions (store m) ∧
    steps (store m') =
      <[(wid, n) :=
          {| outcome := match r with
                        | inl v => StepSuccess v
                        | inr e => StepError e
                        end;
             attempt_count := made |}]> (steps (store m)).
Proof.
  intros Halive Hmemo Hfail HI. unfold run_step. rewrite Hmemo.
  destruct (attempt _ _ _ _ _ _ _) as [[r made] m1] eqn:Ha.
  destruct (attempt_inv I _ _ _ _ _ _ _ _ _ _ Hfail HI Ha)
    as (w&HIw&Hb&Hs&Hf&Hl).
  rewrite durable_write_alive by congruence. intros [= <- <-].
  exists r, made, w. cbn. rewrite Hs.
  destruct (steps_record_step wid n r made (store m) Hmemo) as [-> ->].
  by split_and!.
Qed.

Lemma run_step_typed {T} `{Serial T} (I : World → Prop) p wid n
    (body : World → (T + error) * World) m c m' :
  fuse m = None → memoized wid n (store m) = None →
  (∀ w e, I w → (body w).1 = inr e → I (body w).2) →
  I (world m) →
  run_step p wid n (serialized body) m = (c, m') →
  ∃ (r : T + error) made w,
    c = Done (encode_result r) ∧ decode_result (encode_result r) = r ∧
    I w ∧ body w = (r, world m') ∧
    fuse m' = None ∧ launches m' = launches m ∧
    executions (store m') = executions (store m) ∧
    steps (store m') =
      <[(wid, n) :=
          {| outcome := match r with
                        | inl t => StepSuccess (encode t)
                        | inr e => StepError e
                        end;
             attempt_count := made |}]> (steps (store m)).
Proof.
  intros Halive Hmemo Hfail HI Hrun.
  eapply (run_step_alive I) in Hrun as (r&made&w&->&HIw&Hb&?&?&?&Hst);
    try done.
  2:{ intros w e HIw. unfold serialized.
      specialize (Hfail w). destruct (body w) as [[t|e'] w']; cbn; [done|].
      intros [= <-]. by apply (Hfail e'). }
  unfold serialized in Hb. destruct (body w) as [r0 w'] eqn:Hb0.
  simplify_eq. exists r0, made, w. split_and!; try done.
  - destruct r0 as [t|e]; cbn; [|done]. by rewrite decode_encode.
  - rewrite Hst. by destruct r0.
Qed.



Lemma exec_bind_return {A B} p wid n (wf : Workflow A) (g : A → B) m :
  exec p wid n (wf ≫= λ r, Return (g r)) m =
    match exec p wid n wf m with
    | (Done r, m') => (Done (g r), m')
    | (Crashed, m') => (Crashed, m')
    end.
Proof.
  revert n m. induction wf as [r|body k IH]; intros n m; [done|].
  change (RunStep body k ≫= λ r, Return (g r))
    with (RunStep body (λ r, k r ≫= λ r, Return (g r))).
  cbn. destruct (run_step p wid n body m) as [[r|] m1]; [|done]. apply IH.
Qed.

Lemma exec_register {I O} `{Serial I, Serial O} p wid
    (f : I → Workflow (O * option error)) (i : I) m :
  exec p wid 0 (register f (encode i)) m =
    match exec p wid 0 (f i) m with
    | (Done res, m') => (Done (encode res.1, res.2), m')
    | (Crashed, m') => (Crashed, m')
    end.
Proof.
  unfold register. rewrite decode_encode.
  apply (exec_bind_return p wid 0 (f i) (λ res, (encode res.1, res.2))).
Qed.

Lemma run_step_no_crash p wid n body m :
  fuse m = None →
  ∃ r m', run_step p wid n body m = (Done r, m') ∧ fuse m' = None.
Proof.
  intros Halive. destruct (memoized wid n (store m)) as [v|] eqn:Hmemo.
  - rewrite (run_step_memoized _ _ _ _ _ _ Hmemo). eauto.
  - destruct (run_step p wid n body m) as [c m'] eqn:Hrun.
    eapply (run_step_alive (λ _, True)) in Hrun
      as (r&made&w&->&_&_&?&_); eauto.
Qed.

Lemma exec_no_crash {R} p wid n (wf : Workflow R) m :
  fuse m = None →
  ∃ r m', exec p wid n wf m = (Done r, m') ∧ fuse m' = None.
Proof.
  revert n m. induction wf as [r|body k IH]; intros n m Halive; cbn; [eauto|].
  destruct (run_step_no_crash p wid n body m Halive) as (r&m1&->&Halive1).
  by apply IH.
Qed.

Lemma Start_alive ctx name inp id m (f : WorkflowFunction) :
  registry ctx !! name = Some f → fuse m = None →
  executions (store m) !! execution_id id (store m) = None →
  ∃ res m2 m3,
    exec (policy ctx) (execution_id id (store m)) 0 (f inp)
      (launch_state (execution_id id (store m)) name inp m) = (Done res, m2) ∧
    Start ctx name inp id m = (Done (inl (execution_id id (store m))), m3) ∧
    world m3 = world m2 ∧ invocations m3 = invocations m2 ∧
    sleeps m3 = sleeps m2 ∧ steps (store m3) = steps (store m2) ∧
    GetResult (execution_id id (store m)) m3 =
      Some match res.2 with
           | None => inl res.1
           | Some e => inr e
           end.
Proof.
  intros Hreg Halive Hrow. remember (execution_id id (store m)) as wid.
  destruct (exec_no_crash (policy ctx) wid 0 (f inp)
              (launch_state wid name inp m) eq_refl) as (res&m2&Hexec&Halive2).
  pose proof (exec_ticks (policy ctx) wid 0 (f inp)
                (launch_state wid name inp m)) as Ht.
  rewrite Hexec in Ht. apply step_ticks_executions in Ht. cbn in Ht.
  exists res, m2. eexists. split; [done|].
  unfold Start. rewrite Hreg, <- Heqwid, Hrow.
  rewrite durable_write_alive by done.
  unfold run_execution. rewrite durable_write_alive by done. cbn.
  unfold create_execution. rewrite Hrow. unfold mark_running. cbn.
  rewrite lookup_insert_eq. cbn. rewrite lookup_insert_eq. cbn.
  unfold set_state. cbn. rewrite insert_insert_eq.
  unfold launch_state in Hexec. unfold note_launch. cbn. rewrite Hexec.
  rewrite durable_write_alive by done. split; [done|]. cbn.
  unfold GetResult, finalize. cbn. rewrite Ht, lookup_insert_eq. cbn.
  rewrite lookup_insert_eq. cbn. split_and!; try done.
  by destruct res.2.
Qed.

Lemma run_step_typed_ok {T} `{Serial T} p wid n
    (body : World → (T + error) * World) m t w' :
  fuse m = None → memoized wid n (store m) = None →
  body (world m) = (inl t, w') →
  run_step p wid n (serialized body) m
    = (Done (inl (encode t)), stepped wid n (encode t) w' m).
Proof.
  intros Halive Hmemo Hb. unfold run_step. rewrite Hmemo.
  assert (serialized body (world m) = (inl (encode t), w')) as Hs.
  { unfold serialized. by rewrite Hb. }
  rewrite attempt_unfold, Hs. cbn.
  rewrite durable_write_alive by done. cbn.
  by rewrite memoized_record_step.
Qed.

Lemma memoized_None_steps wid n s :
  steps s !! (wid, n) = None → memoized wid n s = None.
Proof. unfold memoized. by intros ->. Qed.

Lemma store_ok_fresh s wid n :
  store_ok s → executions s !! wid = None → steps s !! (wid, n) = None.
Proof.
  intros Hok Hrow. apply eq_None_not_Some. intros Hstep.
  apply Hok in Hstep. rewrite Hrow in Hstep. by destruct Hstep.
Qed.

Lemma getMessages_ok cid w :
  next_fault w = None →
  getMessages cid w =
    (inl (append_all nil_slice (select_messages cid (messages w))),
     log_effect (SelectMessages cid) true w).
Proof. unfold getMessages, query_messages. by intros ->. Qed.



Lemma main_registry_DeleteConversation :
  main_registry !! DeleteConversationWorkflow_name
    = Some (register DeleteConversationWorkflow).
Proof. done. Qed.








(** ** Deleting a conversation *)

Lemma deleteMessages_ok cid w :
  next_fault w = None →
  deleteMessages cid w =
    (inl true,
     log_effect (DeleteMessages cid) true
       (set_messages
          (filter (λ kv, row_conversation_id kv.2 ≠ cid) (messages w)) w)).
Proof. unfold deleteMessages, exec_delete_messages. by intros ->. Qed.

Lemma deleteConversation_ok cid w :
  next_fault w = None →
  filter (λ kv : UUID * MessageRow, row_conversation_id kv.2 = cid)
    (messages w) = ∅ →
  deleteConversation cid w =
    (inl true,
     log_effect (DeleteConversationRow cid) true
       (set_conversations (delete cid (conversations w)) w)).
Proof.
  unfold deleteConversation, exec_delete_conversation. intros -> Hnone.
  by rewrite decide_True.
Qed.

Lemma no_messages_left cid (t : gmap UUID MessageRow) :
  filter (λ kv : UUID * MessageRow, row_conversation_id kv.2 = cid)
    (filter (λ kv : UUID * MessageRow, row_conversation_id kv.2 ≠ cid) t) = ∅.
Proof.
  apply map_empty. intros key. apply map_lookup_filter_None. right.
  intros row Hrow. by apply map_lookup_filter_Some in Hrow as [_ Hne].
Qed.

Lemma DeleteConversationWorkflow_runs p wid cid m :
  fuse m = None → (∀ n, steps (store m) !! (wid, n) = None) →
  (∀ k, fault (world m) k = None) →
  ∃ m',
    exec p wid 0 (DeleteConversationWorkflow cid) m
      = (Done (true, None), m') ∧
    messages (world m')
      = filter (λ kv, row_conversation_id kv.2 ≠ cid) (messages (world m)) ∧
    conversations (world m') = delete cid (conversations (world m)) ∧
    effects (world m')
      = effects (world m)
        ++ [(DeleteMessages cid, true); (DeleteConversationRow cid, true)].
Proof.
  intros Halive Hfresh Hfault.
  unfold DeleteConversationWorkflow. rewrite exec_RunAsStep.
  erewrite run_step_typed_ok; [|done|by apply memoized_None_steps|
    by apply deleteMessages_ok, Hfault].
  cbn [decode_result encode decode Serial_bool].
  set (w1 := log_effect _ true _).
  set (m1 := stepped wid 0 _ w1 m).
  rewrite exec_RunAsStep.
  erewrite run_step_typed_ok; [|done| |apply deleteConversation_ok].
  - cbn. eexists. split; [done|]. split_and!; try done.
    subst w1. cbn. by rewrite <- app_assoc.
  - apply memoized_None_steps. cbn. rewrite lookup_insert_ne by done.
    apply Hfresh.
  - apply Hfault.
  - apply no_messages_left.
Qed.

(** C10. For a request whose id parameter parses, [DeleteConversation]
    answers 200 or 500, never 404, whether or not a row with that id
    exists; and when neither the database nor the process fails it runs
    the two steps in order (delete the messages of the conversation, then
    the conversation row) and answers 200 with the message [Conversation
    deleted]. *)
Theorem DeleteConversation_idempotent parse p c m id :
  parse (param_id c) = Some id →
  let h := {| dbosCtx := NewDBOSContext p |} in
  (∀ resp, (DeleteConversation parse h c m).1 = Some resp →
           code resp = 200 ∨ code resp = 500) ∧
  (fuse m = None → store_ok (store m) → (∀ k, fault (world m) k = None) →
   ∃ m',
     DeleteConversation parse h c m
       = (Some {| code := 200; payload := H_message "Conversation deleted" |},
          m') ∧
     messages (world m')
       = filter (λ kv, row_conversation_id kv.2 ≠ id) (messages (world m)) ∧
     conversations (world m') = delete id (conversations (world m)) ∧
     effects (world m')
       = effects (world m)
         ++ [(DeleteMessages id, true); (DeleteConversationRow id, true)]).
Proof.
  intros Hparse h. split.
  - intros resp. unfold DeleteConversation. rewrite Hparse.
    destruct (RunWorkflow _ _ _ _) as [[[handle|e]|] m1]; cbn.
    + destruct (GetResultAs bool handle m1) as [[|]|]; cbn;
        intros; simplify_eq; cbn; auto.
    + intros; simplify_eq; cbn; auto.
    + done.
  - intros Halive Hok Hfault.
    pose proof (fresh_execution_id (store m)) as Hrow.
    destruct (Start_alive (dbosCtx h) DeleteConversationWorkflow_name
                (encode id) None m (register DeleteConversationWorkflow))
      as (res&m2&m3&Hexec&Hstart&Hw3&_&_&_&Hres); try done.
    remember (execution_id None (store m)) as wid eqn:Hwid.
    rewrite exec_register in Hexec.
    destruct (DeleteConversationWorkflow_runs (policy (dbosCtx h)) wid id
                (launch_state wid DeleteConversationWorkflow_name (encode id) m))
      as (m2'&Hexec'&Hmsgs&Hconv&Heff); try done.
    { intros n. cbn. by apply store_ok_fresh. }
    rewrite Hexec' in Hexec. simplify_eq.
    exists m3. split.
    + unfold DeleteConversation, RunWorkflow. rewrite Hparse, Hstart.
      unfold GetResultAs. by rewrite Hres.
    + rewrite Hw3. by split_and!.
Qed.

(** ** Sending a message *)

Lemma getMessages_fails_quiet cid w e :
  (getMessages cid w).1 = inr e → quiet w (getMessages cid w).2.
Proof.
  destruct (getMessages cid w) as [r w'] eqn:Hg. cbn. intros ->.
  apply getMessages_spec in Hg as (?&?&?&?&Heff).
  split_and!; try done. by rewrite Heff, successes_failed.
Qed.

Lemma saveMessage_fails_quiet cid role content w e :
  (saveMessage cid role content w).1 = inr e →
  quiet w (saveMessage cid role content w).2.
Proof.
  destruct (saveMessage cid role content w) as [r w'] eqn:Hs. cbn. intros ->.
  apply saveMessage_spec in Hs as (?&?&?&?&Heff).
  split_and!; try done. by rewrite Heff, successes_failed.
Qed.

Lemma Chat_fails_quiet hist content w e :
  (Chat hist content w).1 = inr e → quiet w (Chat hist content w).2.
Proof.
  destruct (Chat hist content w) as [r w'] eqn:Hc. cbn. intros ->.
  apply Chat_spec in Hc as (?&?&?&?&?&Heff).
  split_and!; try done. by rewrite Heff, successes_failed.
Qed.

(** One typed step of a workflow, in a process that does not crash, at a
    position without step row. *)
Lemma exec_step {T R} `{Serial T} p wid n
    (body : World → (T + error) * World) (k : T + error → Workflow R)
    m c m' :
  fuse m = None → steps (store m) !! (wid, n) = None →
  (∀ w e, (body w).1 = inr e → quiet w (body w).2) →
  exec p wid n (RunAsStep body ≫= k) m = (c, m') →
  ∃ r made w m1,
    quiet (world m) w ∧ body w = (r, world m1) ∧ fuse m1 = None ∧
    steps (store m1) =
      <[(wid, n) :=
          {| outcome := match r with
                        | inl t => StepSuccess (encode t)
                        | inr e => StepError e
                        end;
             attempt_count := made |}]> (steps (store m)) ∧
    exec p wid (S n) (k r) m1 = (c, m').
Proof.
  intros Halive Hnone Hfail. rewrite exec_RunAsStep.
  destruct (run_step p wid n (serialized body) m) as [c1 m1] eqn:Hrun.
  eapply (run_step_typed (quiet (world m))) in Hrun
    as (r&made&w&->&Hdec&Hq&Hb&?&?&?&?); try done.
  - rewrite Hdec. intros Hexec. exists r, made, w, m1. by split_and!.
  - by apply memoized_None_steps.
  - intros w e Hq He. eapply quiet_trans; [exact Hq|]. by eapply Hfail.
Qed.

Ltac step_rows :=
  repeat first
    [ rewrite lookup_insert_eq
    | rewrite lookup_insert_ne by (intros [=]; lia) ].

Lemma elems_append_all_nil {A} (l : list A) :
  elems (append_all nil_slice l) = l.
Proof.
  destruct l as [|x l]; [done|]. cbn. change (append nil_slice x) with
    (mk_slice [x]). fold (append_all (mk_slice [x]) l).
  by rewrite append_all_mk.
Qed.

Lemma Chat_ok hist content w body reply rest :
  server w (length (effects w)) = Responded 200 body (inl (reply :: rest)) →
  Chat hist content w =
    (inl reply,
     log_effect (PostChatCompletions (vllm_messages hist content)) true w).
Proof. unfold Chat. intros ->. by rewrite decide_False by (by intros []). Qed.

(** The database answers every call, the conversation exists, the two ids
    drawn are new, and the model server answers the third call with a
    choice: the four steps of [SendMessageWorkflow] succeed at their first
    attempt. *)
Lemma SendMessageWorkflow_runs p wid input m body reply rest :
  fuse m = None → (∀ n, steps (store m) !! (wid, n) = None) →
  (∀ k, fault (world m) k = None) →
  is_Some (conversations (world m) !! in_ConversationID input) →
  messages (world m) !! uuid_source (world m) (uuids_drawn (world m)) = None →
  messages (world m) !! uuid_source (world m) (S (uuids_drawn (world m)))
    = None →
  uuid_source (world m) (S (uuids_drawn (world m)))
    ≠ uuid_source (world m) (uuids_drawn (world m)) →
  server (world m) (length (effects (world m)) + 2)
    = Responded 200 body (inl (reply :: rest)) →
  let cid := in_ConversationID input in
  let history :=
    append_all nil_slice (select_messages cid (messages (world m))) in
  ∃ out m',
    exec p wid 0 (SendMessageWorkflow input) m = (Done (out, None), m') ∧
    ID (UserMessage out) = uuid_source (world m) (uuids_drawn (world m)) ∧
    ID (AssistantMessage out)
      = uuid_source (world m) (S (uuids_drawn (world m))) ∧
    Content (AssistantMessage out) = reply ∧
    invocations m'
      = invocations m ++ [(wid, 0); (wid, 1); (wid, 2); (wid, 3)] ∧
    effects (world m')
      = effects (world m)
        ++ [(SelectMessages cid, true);
            (InsertMessage (UserMessage out), true);
            (PostChatCompletions (vllm_messages history (in_Content input)),
             true);
            (InsertMessage (AssistantMessage out), true)].
Proof.
  intros Halive Hfresh Hfault Hconv Hid1 Hid2 Hne Hserver cid history.
  unfold SendMessageWorkflow. rewrite exec_RunAsStep.
  erewrite run_step_typed_ok; [|done|by apply memoized_None_steps|
    by apply getMessages_ok, Hfault].
  cbn [decode_result encode decode Serial_Messages].
  set (w1 := log_effect _ true (world m)).
  fold cid. fold history.
  set (m1 := stepped wid 0 _ w1 m).
  destruct (saveMessage_ok cid "user" (in_Content input) w1)
    as (w2&Hsave&Henv2&Hconv2&Hdrawn2&_&Hmsgs2&Heff2); try done.
  { apply Hfault. }
  rewrite exec_RunAsStep.
  erewrite run_step_typed_ok; [|done| |exact Hsave].
  2:{ apply memoized_None_steps. cbn. rewrite lookup_insert_ne by done.
      apply Hfresh. }
  cbn [decode_result encode decode Serial_Message].
  set (user := new_message cid "user" (in_Content input) w1) in *.
  set (m2 := stepped wid 1 _ w2 m1).
  destruct Henv2 as (Hsrc2&Htime2&Hfault2&Hserver2).
  rewrite exec_RunAsStep.
  erewrite run_step_typed_ok; [|done| |].
  3:{ apply (Chat_ok history (in_Content input) w2 body reply rest).
      rewrite Hserver2, Heff2. cbn. rewrite !length_app. cbn.
      rewrite <- Hserver. f_equal. lia. }
  2:{ apply memoized_None_steps. cbn. rewrite !lookup_insert_ne by done.
      apply Hfresh. }
  cbn [decode_result encode decode Serial_string].
  set (w3 := log_effect _ true w2).
  set (m3 := stepped wid 2 _ w3 m2).
  destruct (saveMessage_ok cid "assistant" reply w3)
    as (w4&Hsave4&_&_&_&_&_&Heff4).
  { unfold next_fault. cbn. rewrite Hfault2. apply Hfault. }
  { cbn. rewrite Hsrc2, Hdrawn2, Hmsgs2. cbn.
    by rewrite lookup_insert_ne. }
  { cbn. by rewrite Hconv2. }
  rewrite exec_RunAsStep.
  erewrite run_step_typed_ok; [|done| |exact Hsave4].
  2:{ apply memoized_None_steps. cbn. rewrite !lookup_insert_ne by done.
      apply Hfresh. }
  cbn [decode_result encode decode Serial_Message exec].
  eexists _, _. split; [reflexivity|].
  cbn [UserMessage AssistantMessage]. split_and!.
  - done.
  - cbn. by rewrite Hsrc2, Hdrawn2.
  - done.
  - cbn. by rewrite <- !app_assoc.
  - cbn [world stepped]. rewrite Heff4. subst w3. cbn [effects log_effect].
    rewrite Heff2. subst w1. cbn [effects log_effect].
    by rewrite <- !app_assoc.
Qed.

(** C1. [SendMessageWorkflow], run for an execution without step rows by a
    process that does not crash, always returns; it uses step positions 0
    to 3 only, and a position has a row only if the position before it has
    a SUCCESS row.  When it returns without error it has taken exactly the
    four steps in order: the history was fetched, the user message
    inserted, the model called with the roles and contents of the history
    followed by the new user message, and the reply inserted as the
    assistant message; rows 0 to 3 are SUCCESS rows holding these results,
    and the output carries the two messages, which are exactly the two rows
    added to [messages].  And it does return without error, after one
    invocation of each of the four step bodies in this order and with
    exactly these four external calls, whenever the database answers every
    call, the conversation exists, the two ids drawn are new and differ, and
    the model server answers the third call with status 200 and a choice,
    which is the content of the assistant message. *)
Theorem SendMessageWorkflow_four_steps p wid input m c m' :
  fuse m = None → (∀ n, steps (store m) !! (wid, n) = None) →
  exec p wid 0 (SendMessageWorkflow input) m = (c, m') →
  let cid := in_ConversationID input in
  let rows := select_messages cid (messages (world m)) in
  let history := append_all nil_slice rows in
  let request :=
    ((λ msg, {| vllm_Role := Role msg; vllm_Content := Content msg |})
       <$> rows)
    ++ [{| vllm_Role := "user"; vllm_Content := in_Content input |}] in
  (∃ res, c = Done res) ∧
  (∀ n, (4 ≤ n)%nat → steps (store m') !! (wid, n) = None) ∧
  (∀ n, is_Some (steps (store m') !! (wid, S n)) →
        is_Some (memoized wid n (store m'))) ∧
  (∀ out, c = Done (out, None) →
     ∃ reply,
       successes (effects (world m'))
         = successes (effects (world m))
           ++ [SelectMessages cid; InsertMessage (UserMessage out);
               PostChatCompletions request;
               InsertMessage (AssistantMessage out)] ∧
       ConversationID (UserMessage out) = cid ∧
       Role (UserMessage out) = "user" ∧
       Content (UserMessage out) = in_Content input ∧
       ConversationID (AssistantMessage out) = cid ∧
       Role (AssistantMessage out) = "assistant" ∧
       Content (AssistantMessage out) = reply ∧
       messages (world m) !! ID (UserMessage out) = None ∧
       messages (world m) !! ID (AssistantMessage out) = None ∧
       ID (AssistantMessage out) ≠ ID (UserMessage out) ∧
       messages (world m')
         = <[ID (AssistantMessage out) := row_of (AssistantMessage out)]>
             (<[ID (UserMessage out) := row_of (UserMessage out)]>
                (messages (world m))) ∧
       memoized wid 0 (store m') = Some (VMessages history) ∧
       memoized wid 1 (store m') = Some (VMessage (UserMessage out)) ∧
       memoized wid 2 (store m') = Some (VString reply) ∧
       memoized wid 3 (store m') = Some (VMessage (AssistantMessage out))) ∧
  (∀ body reply rest,
     (∀ k, fault (world m) k = None) →
     is_Some (conversations (world m) !! cid) →
     messages (world m) !! uuid_source (world m) (uuids_drawn (world m))
       = None →
     messages (world m) !! uuid_source (world m) (S (uuids_drawn (world m)))
       = None →
     uuid_source (world m) (S (uuids_drawn (world m)))
       ≠ uuid_source (world m) (uuids_drawn (world m)) →
     server (world m) (length (effects (world m)) + 2)
       = Responded 200 body (inl (reply :: rest)) →
     ∃ out,
       c = Done (out, None) ∧
       ID (UserMessage out) = uuid_source (world m) (uuids_drawn (world m)) ∧
       ID (AssistantMessage out)
         = uuid_source (world m) (S (uuids_drawn (world m))) ∧
       Content (AssistantMessage out) = reply ∧
       invocations m'
         = invocations m ++ [(wid, 0); (wid, 1); (wid, 2); (wid, 3)] ∧
       effects (world m')
         = effects (world m)
           ++ [(SelectMessages cid, true);
               (InsertMessage (UserMessage out), true);
               (PostChatCompletions request, true);
               (InsertMessage (AssistantMessage out), true)]).
Proof.
  intros Halive Hfresh Hexec cid rows history request.
  assert (vllm_messages history (in_Content input) = request) as Hreq.
  { unfold vllm_messages, history. by rewrite elems_append_all_nil. }
  rewrite <- Hreq. clear Hreq. clear request. subst rows.
  match goal with
  | |- ?A ∧ ?B ∧ ?C ∧ ?D ∧ ?E =>
      assert E as Hruns;
      [|assert (A ∧ B ∧ C ∧ D) as (?&?&?&?); [|by split_and!]]
  end.
  { intros body reply rest Hfault Hconv Hid1 Hid2 Hne Hserver.
    destruct (SendMessageWorkflow_runs p wid input m body reply rest)
      as (out&m''&Hexec'&?&?&?&?&?); try done.
    rewrite Hexec' in Hexec. simplify_eq. exists out. by split_and!. }
  clear Hruns.
  unfold SendMessageWorkflow in Hexec.
  apply exec_step in Hexec
    as (r0&k0&w0&m0&Hq0&Hb0&Halive0&Hst0&Hexec);
    [|done|done|apply getMessages_fails_quiet].
  destruct r0 as [hist|e0]; cbv beta iota in Hexec.
  2:{ cbn in Hexec. simplify_eq. split_and!.
      - eauto.
      - intros n Hn. rewrite Hst0. by step_rows.
      - intros n. rewrite Hst0. step_rows. rewrite Hfresh. by intros [? ?].
      - by intros out [=]. }
  apply exec_step in Hexec
    as (r1&k1&w1&m1&Hq1&Hb1&Halive1&Hst1&Hexec);
    [|done|rewrite Hst0; by step_rows|apply saveMessage_fails_quiet].
  destruct r1 as [userMsg|e1]; cbv beta iota in Hexec.
  2:{ cbn in Hexec. simplify_eq. split_and!.
      - eauto.
      - intros n Hn. rewrite Hst1, Hst0. by step_rows.
      - intros [|n]; unfold memoized; rewrite Hst1, Hst0; step_rows.
        + eauto.
        + rewrite Hfresh. by intros [? ?].
      - by intros out [=]. }
  apply exec_step in Hexec
    as (r2&k2&w2&m2&Hq2&Hb2&Halive2&Hst2&Hexec);
    [|done|rewrite Hst1, Hst0; by step_rows|apply Chat_fails_quiet].
  destruct r2 as [aiResponse|e2]; cbv beta iota in Hexec.
  2:{ cbn in Hexec. simplify_eq. split_and!.
      - eauto.
      - intros n Hn. rewrite Hst2, Hst1, Hst0. by step_rows.
      - intros [|[|n]]; unfold memoized; rewrite Hst2, Hst1, Hst0; step_rows.
        + eauto.
        + eauto.
        + rewrite Hfresh. by intros [? ?].
      - by intros out [=]. }
  apply exec_step in Hexec
    as (r3&k3&w3&m3&Hq3&Hb3&Halive3&Hst3&Hexec);
    [|done|rewrite Hst2, Hst1, Hst0; by step_rows
     |apply saveMessage_fails_quiet].
  assert (steps (store m') = steps (store m3) ∧ world m' = world m3 ∧
          ∃ res, c = Done res) as (Hst'&Hw'&Hdone).
  { destruct r3; cbn in Hexec; simplify_eq; eauto. }
  split_and!.
  - done.
  - intros n Hn. rewrite Hst', Hst3, Hst2, Hst1, Hst0. by step_rows.
  - intros [|[|[|n]]]; unfold memoized; rewrite Hst', Hst3, Hst2, Hst1, Hst0;
      step_rows; eauto.
    rewrite Hfresh. by intros [? ?].
  - intros out ->. destruct r3 as [assistantMsg|e3]; cbn in Hexec;
      simplify_eq.
    clear Hdone. cbn [UserMessage AssistantMessage].
    destruct Hq0 as (_&_&Hm0&Hs0). destruct Hq1 as (_&_&Hm1&Hs1).
    destruct Hq2 as (_&_&Hm2&Hs2). destruct Hq3 as (_&_&Hm3&Hs3).
    apply getMessages_spec in Hb0 as (_&_&Hmw0&_&->&He0).
    apply saveMessage_spec in Hb1 as (_&_&_&Hu&_&Hnew1&_&Hmw1&He1).
    apply Chat_spec in Hb2 as (_&_&Hmw2&_&_&He2).
    apply saveMessage_spec in Hb3 as (_&_&_&Ha&_&Hnew3&_&Hmw3&He3).
    rewrite <- Hu in Hnew1, Hmw1, He1. rewrite <- Ha in Hnew3, Hmw3, He3.
    rewrite Hm3, Hmw2, Hm2, Hmw1, Hm1, Hmw0, Hm0 in Hnew3.
    apply lookup_insert_None in Hnew3 as [Hnew3 Hne].
    exists aiResponse. split_and!.
    + rewrite He3, successes_ok, Hs3, He2, successes_ok, Hs2, He1,
        successes_ok, Hs1, He0, successes_ok, Hs0, Hm0.
      by rewrite <- !app_assoc.
    + by rewrite Hu.
    + by rewrite Hu.
    + by rewrite Hu.
    + by rewrite Ha.
    + by rewrite Ha.
    + by rewrite Ha.
    + by rewrite <- Hm0, <- Hmw0, <- Hm1.
    + done.
    + done.
    + by rewrite Hmw3, Hm3, Hmw2, Hm2, Hmw1, Hm1, Hmw0, Hm0.
    + unfold memoized. rewrite Hst3, Hst2, Hst1, Hst0. step_rows.
      by rewrite Hm0.
    + unfold memoized. rewrite Hst3, Hst2, Hst1. by step_rows.
    + unfold memoized. rewrite Hst3, Hst2. by step_rows.
    + unfold memoized. rewrite Hst3. by step_rows.
Qed.

(** ** Generated identifiers *)

(** C3, as the code has it.  The identifier of the row that [saveMessage]
    or the step of [CreateConversationWorkflow] inserts is the next draw of
    the random source, whatever the execution and the step position; every
    invocation consumes one draw.  So when a step body that inserted its row
    is invoked again because its outcome was not recorded, a successful
    second invocation has drawn another id and leaves both rows in the
    table. *)
Theorem generated_ids_are_fresh_draws cid role content w r1 w1 :
  saveMessage cid role content w = (r1, w1) →
  uuids_drawn w1 = S (uuids_drawn w) ∧ uuid_source w1 = uuid_source w ∧
  (∀ msg, r1 = inl msg →
     ID msg = uuid_source w (uuids_drawn w) ∧
     messages w1 !! ID msg = Some (row_of msg)) ∧
  (∀ msg1 msg2 w2,
     r1 = inl msg1 → saveMessage cid role content w1 = (inl msg2, w2) →
     ID msg2 = uuid_source w (S (uuids_drawn w)) ∧ ID msg2 ≠ ID msg1 ∧
     messages w2 !! ID msg1 = Some (row_of msg1) ∧
     messages w2 !! ID msg2 = Some (row_of msg2)) ∧
  (∀ r w', createConversation w = (r, w') →
     uuids_drawn w' = S (uuids_drawn w) ∧
     ∀ conv, r = inl conv → c_ID conv = uuid_source w (uuids_drawn w)).
Proof.
  intros Hs1.
  apply saveMessage_spec in Hs1 as ((Hsrc&_)&_&Hdrawn&Hr1).
  split_and!; try done.
  - intros msg ->. destruct Hr1 as (->&_&_&_&->&_). split; [done|].
    by rewrite lookup_insert_eq.
  - intros msg1 msg2 w2 -> Hs2.
    destruct Hr1 as (Hmsg1&_&_&_&Hrows1&_).
    apply saveMessage_spec in Hs2 as (_&_&_&Hmsg2&_&Hnew2&_&Hrows2&_).
    rewrite <- Hmsg2 in Hnew2, Hrows2. rewrite <- Hmsg1 in Hrows1.
    rewrite Hrows1 in Hnew2. apply lookup_insert_None in Hnew2 as [_ Hne].
    split_and!.
    + rewrite Hmsg2. cbn. by rewrite Hsrc, Hdrawn.
    + done.
    + rewrite Hrows2, Hrows1, lookup_insert_ne by done.
      by rewrite lookup_insert_eq.
    + by rewrite Hrows2, lookup_insert_eq.
  - intros r w' Hc. apply createConversation_spec in Hc as (_&_&?&Hr).
    split; [done|]. intros conv ->. by destruct Hr as (->&_).
Qed.

(** Step rows stay attached to execution rows under every engine call, so
    the condition [store_ok] used above holds of every store the engine
    produces from the empty one. *)
Lemma engine_calls_store_ok ctx cs m :
  store_ok (store m) → store_ok (store (engine_calls ctx cs m)).
Proof. apply ticks_store_ok, engine_calls_ticks. Qed.

(** * Further properties of the code *)

(** ** What a run of [SendMessageWorkflow] leaves behind *)

(** Every outcome of the workflow, for an execution without step rows in a
    process that does not crash. *)
Lemma SendMessageWorkflow_outcomes p wid input m c m' :
  fuse m = None → (∀ n, steps (store m) !! (wid, n) = None) →
  exec p wid 0 (SendMessageWorkflow input) m = (c, m') →
  ∃ out err,
    c = Done (out, err) ∧ fuse m' = None ∧
    same_env (world m) (world m') ∧
    conversations (world m') = conversations (world m) ∧
    executions (store m') = executions (store m) ∧
    match err with
    | None =>
        ConversationID (UserMessage out) = in_ConversationID input ∧
        Role (UserMessage out) = "user" ∧
        Content (UserMessage out) = in_Content input ∧
        ConversationID (AssistantMessage out) = in_ConversationID input ∧
        Role (AssistantMessage out) = "assistant" ∧
        is_Some (conversations (world m) !! in_ConversationID input) ∧
        messages (world m) !! ID (UserMessage out) = None ∧
        messages (world m) !! ID (AssistantMessage out) = None ∧
        ID (AssistantMessage out) ≠ ID (UserMessage out) ∧
        messages (world m')
          = <[ID (AssistantMessage out) := row_of (AssistantMessage out)]>
              (<[ID (UserMessage out) := row_of (UserMessage out)]>
                 (messages (world m)))
    | Some _ =>
        AssistantMessage out = zero_Message ∧
        ((UserMessage out = zero_Message ∧
          messages (world m') = messages (world m)) ∨
         (ConversationID (UserMessage out) = in_ConversationID input ∧
          Role (UserMessage out) = "user" ∧
          Content (UserMessage out) = in_Content input ∧
          messages (world m) !! ID (UserMessage out) = None ∧
          messages (world m')
            = <[ID (UserMessage out) := row_of (UserMessage out)]>
                (messages (world m))))
    end.
Proof.
  intros Halive Hfresh Hexec.
  assert (executions (store m') = executions (store m)) as Hrows.
  { pose proof (exec_ticks p wid 0 (SendMessageWorkflow input) m) as Ht.
    rewrite Hexec in Ht. by apply step_ticks_executions in Ht. }
  unfold SendMessageWorkflow in Hexec.
  apply exec_step in Hexec
    as (r0&k0&w0&m0&Hq0&Hb0&Halive0&Hst0&Hexec);
    [|done|done|apply getMessages_fails_quiet].
  destruct Hq0 as (Hqe0&Hqc0&Hqm0&_).
  apply getMessages_spec in Hb0 as (He0&Hc0&Hm0&_).
  assert (same_env (world m) (world m0)) as Henv0
    by (by eapply same_env_trans).
  assert (conversations (world m0) = conversations (world m)) as Hconv0
    by congruence.
  assert (messages (world m0) = messages (world m)) as Hmsgs0 by congruence.
  clear Hqe0 Hqc0 Hqm0 He0 Hc0 Hm0 w0.
  destruct r0 as [hist|e0]; cbv beta iota in Hexec.
  2:{ cbn in Hexec. simplify_eq. eexists _, _. split; [done|].
      split_and!; try done. by left. }
  apply exec_step in Hexec
    as (r1&k1&w1&m1&Hq1&Hb1&Halive1&Hst1&Hexec);
    [|done|rewrite Hst0; by step_rows|apply saveMessage_fails_quiet].
  destruct Hq1 as (Hqe1&Hqc1&Hqm1&_).
  apply saveMessage_spec in Hb1 as (He1&Hc1&_&Hr1).
  assert (same_env (world m) (world m1)) as Henv1.
  { eapply same_env_trans; [exact Henv0|]. by eapply same_env_trans. }
  assert (conversations (world m1) = conversations (world m)) as Hconv1
    by congruence.
  destruct r1 as [userMsg|e1]; cbv beta iota in Hexec.
  2:{ cbn in Hexec. simplify_eq. destruct Hr1 as [Hm1 _].
      eexists _, _. split; [done|]. split_and!; try done; try congruence.
      left. split; [done|]. congruence. }
  destruct Hr1 as (Hu&_&Hnew1&Hexists&Hm1&_).
  rewrite <- Hu in Hnew1, Hm1. rewrite Hqm1, Hmsgs0 in Hnew1, Hm1.
  rewrite Hqc1, Hconv0 in Hexists.
  assert (ConversationID userMsg = in_ConversationID input ∧
          Role userMsg = "user" ∧ Content userMsg = in_Content input)
    as (Hu1&Hu2&Hu3) by (by rewrite Hu).
  clear Hqe1 Hqc1 Hqm1 He1 Hc1 Hu w1.
  apply exec_step in Hexec
    as (r2&k2&w2&m2&Hq2&Hb2&Halive2&Hst2&Hexec);
    [|done|rewrite Hst1, Hst0; by step_rows|apply Chat_fails_quiet].
  destruct Hq2 as (Hqe2&Hqc2&Hqm2&_).
  apply Chat_spec in Hb2 as (He2&Hc2&Hm2&_).
  assert (same_env (world m) (world m2)) as Henv2.
  { eapply same_env_trans; [exact Henv1|]. by eapply same_env_trans. }
  assert (conversations (world m2) = conversations (world m)) as Hconv2
    by congruence.
  assert (messages (world m2) = messages (world m1)) as Hmsgs2 by congruence.
  clear Hqe2 Hqc2 Hqm2 He2 Hc2 Hm2 w2.
  destruct r2 as [aiResponse|e2]; cbv beta iota in Hexec.
  2:{ cbn in Hexec. simplify_eq. eexists _, _. split; [done|].
      split_and!; try done; try congruence.
      right. cbn. split_and!; try done. congruence. }
  apply exec_step in Hexec
    as (r3&k3&w3&m3&Hq3&Hb3&Halive3&Hst3&Hexec);
    [|done|rewrite Hst2, Hst1, Hst0; by step_rows
     |apply saveMessage_fails_quiet].
  destruct Hq3 as (Hqe3&Hqc3&Hqm3&_).
  apply saveMessage_spec in Hb3 as (He3&Hc3&_&Hr3).
  assert (same_env (world m) (world m3)) as Henv3.
  { eapply same_env_trans; [exact Henv2|]. by eapply same_env_trans. }
  assert (conversations (world m3) = conversations (world m)) as Hconv3
    by congruence.
  destruct r3 as [assistantMsg|e3]; cbn in Hexec; simplify_eq.
  - destruct Hr3 as (Ha&_&Hnew3&_&Hm3&_).
    rewrite <- Ha in Hnew3, Hm3. rewrite Hqm3, Hmsgs2, Hm1 in Hnew3, Hm3.
    apply lookup_insert_None in Hnew3 as [Hnew3 Hne].
    eexists _, _. split; [done|]. cbn [UserMessage AssistantMessage].
    split_and!; try done; try congruence; by rewrite Ha.
  - destruct Hr3 as [Hm3 _].
    eexists _, _. split; [done|].
    split_and!; try done; try congruence.
    right. cbn. split_and!; try done. congruence.
Qed.

(** ** Handlers that start a workflow *)

(** The machine after the workflow function of a new execution returned
    [res] in machine [m2]. *)
Lemma Start_alive_full ctx name inp id m (f : WorkflowFunction) :
  registry ctx !! name = Some f → fuse m = None →
  executions (store m) !! execution_id id (store m) = None →
  ∃ res m2,
    exec (policy ctx) (execution_id id (store m)) 0 (f inp)
      (launch_state (execution_id id (store m)) name inp m) = (Done res, m2) ∧
    fuse m2 = None ∧
    Start ctx name inp id m =
      (Done (inl (execution_id id (store m))),
       {| world := world m2;
          store :=
            {| executions :=
                 <[execution_id id (store m) :=
                     {| workflow_name := name; input := inp;
                        state := match res.2 with
                                 | None => Succeeded res.1
                                 | Some e => Failed e
                                 end |}]> (executions (store m));
               steps := steps (store m2) |};
          fuse := None;
          invocations := invocations m2;
          launches := launches m2;
          sleeps := sleeps m2 |}).
Proof.
  intros Hreg Halive Hrow. remember (execution_id id (store m)) as wid.
  destruct (exec_no_crash (policy ctx) wid 0 (f inp)
              (launch_state wid name inp m) eq_refl) as (res&m2&Hexec&Halive2).
  pose proof (exec_ticks (policy ctx) wid 0 (f inp)
                (launch_state wid name inp m)) as Ht.
  rewrite Hexec in Ht. apply step_ticks_executions in Ht. cbn in Ht.
  exists res, m2. split; [done|]. split; [done|].
  unfold Start. rewrite Hreg, <- Heqwid, Hrow.
  rewrite durable_write_alive by done.
  unfold run_execution. rewrite durable_write_alive by done. cbn.
  unfold create_execution. rewrite Hrow. unfold mark_running. cbn.
  rewrite lookup_insert_eq. cbn. rewrite lookup_insert_eq. cbn.
  unfold set_state. cbn. rewrite insert_insert_eq.
  unfold launch_state in Hexec. unfold note_launch. cbn. rewrite Hexec.
  rewrite durable_write_alive by done. cbn.
  unfold finalize. rewrite Ht, lookup_insert_eq. cbn.
  unfold set_state. cbn. by rewrite Ht, insert_insert_eq.
Qed.

Lemma query_exists_true id w w' :
  query_exists id w = (inl true, w') →
  next_fault w = None ∧ is_Some (conversations w !! id) ∧
  w' = log_effect (ConversationExists id) true w.
Proof.
  unfold query_exists. destruct (next_fault w); [done|].
  intros [= Hb <-]. by apply bool_decide_eq_true in Hb.
Qed.

Lemma SendMessage_started parse p c m id req w :
  fuse m = None → store_ok (store m) →
  parse (param_id c) = Some id → ShouldBindJSON (body c) = inl req →
  query_exists id (world m) = (inl true, w) →
  let wid := execution_id None (store m) in
  let input := {| in_ConversationID := id; in_Content := req_Content req |} in
  ∃ out err m2 m',
    exec p wid 0 (SendMessageWorkflow input)
      (launch_state wid SendMessageWorkflow_name (encode input) (set_world w m))
      = (Done (out, err), m2) ∧
    SendMessage parse {| dbosCtx := NewDBOSContext p |} c m
      = (Some (SendMessage_response out err), m') ∧
    world m' = world m2 ∧ fuse m' = None ∧
    launches m' = launches m ++ [wid] ∧
    executions (store m')
      = <[wid := {| workflow_name := SendMessageWorkflow_name;
                    input := encode input;
                    state := match err with
                             | None => Succeeded (encode out)
                             | Some e => Failed e
                             end |}]> (executions (store m)).
Proof.
  intros Halive Hok Hparse Hbind Hq wid input.
  pose proof (fresh_execution_id (store m)) as Hrow.
  destruct (Start_alive_full (NewDBOSContext p) SendMessageWorkflow_name
              (encode input) None (set_world w m)
              (register SendMessageWorkflow))
    as (res&m2&Hexec&Halive2&Hstart); try done.
  change (execution_id None (store (set_world w m))) with wid in *.
  rewrite exec_register in Hexec. cbn [policy NewDBOSContext] in Hexec.
  destruct (exec p wid 0 (SendMessageWorkflow input) _)
    as [[[out err]|] m2'] eqn:Hexec'; [|done].
  simplify_eq.
  exists out, err, m2,
    (Start (NewDBOSContext p) SendMessageWorkflow_name (encode input) None
       (set_world w m)).2.
  split; [done|].
  pose proof (exec_ticks p wid 0 (SendMessageWorkflow input)
                (launch_state wid SendMessageWorkflow_name (encode input)
                   (set_world w m))) as Ht.
  rewrite Hexec' in Ht. apply step_ticks_launches in Ht.
  split.
  - unfold SendMessage, RunWorkflow. rewrite Hparse, Hbind, Hq.
    cbn [dbosCtx]. fold input. rewrite Hstart.
    unfold GetResultAs, GetResult. cbn. rewrite lookup_insert_eq. cbn.
    destruct err; reflexivity.
  - rewrite Hstart. cbn. split_and!; done.
Qed.

Lemma ShouldBindJSON_ok b req :
  ShouldBindJSON b = inl req →
  b = Fields (Some (req_Content req)) ∧ req_Content req ≠ "".
Proof.
  destruct b as [|[s|]]; cbn; try done. case_decide; [done|].
  by intros [= <-].
Qed.

(** What the workflow run by an accepted request did: the form in which the
    outcomes of [SendMessageWorkflow] reach the handler. *)
Lemma SendMessage_accepted parse p c m id req w :
  fuse m = None → store_ok (store m) →
  parse (param_id c) = Some id → ShouldBindJSON (body c) = inl req →
  query_exists id (world m) = (inl true, w) →
  let wid := execution_id None (store m) in
  let input := {| in_ConversationID := id; in_Content := req_Content req |} in
  ∃ out err m1 m2 m',
    fuse m1 = None ∧ (∀ n, steps (store m1) !! (wid, n) = None) ∧
    messages (world m1) = messages (world m) ∧
    conversations (world m1) = conversations (world m) ∧
    same_env (world m) (world m1) ∧
    exec p wid 0 (SendMessageWorkflow input) m1 = (Done (out, err), m2) ∧
    SendMessage parse {| dbosCtx := NewDBOSContext p |} c m
      = (Some (SendMessage_response out err), m') ∧
    world m' = world m2 ∧ fuse m' = None ∧
    launches m' = launches m ++ [wid] ∧
    executions (store m')
      = <[wid := {| workflow_name := SendMessageWorkflow_name;
                    input := encode input;
                    state := match err with
                             | None => Succeeded (encode out)
                             | Some e => Failed e
                             end |}]> (executions (store m)).
Proof.
  intros Halive Hok Hparse Hbind Hq wid input.
  destruct (SendMessage_started parse p c m id req w)
    as (out&err&m2&m'&Hexec&Hsend&?&?&?&?); try done.
  apply query_exists_true in Hq as (_&_&->).
  exists out, err. eexists. exists m2, m'.
  split_and!; try exact Hexec; try done.
  intros n. cbn. apply store_ok_fresh; [done|]. apply fresh_execution_id.
Qed.

(** X1. In a process that does not crash, a [SendMessage] request is
    answered 200 only if its id parsed, its body had a non-empty [content]
    and the conversation exists; the payload then holds a user message with
    that content and an assistant message, both of this conversation, and
    these two are exactly the rows the request added to [messages]; the
    table [conversations] is unchanged. *)
Theorem SendMessage_ok_persisted parse p c m resp m' :
  fuse m = None → store_ok (store m) →
  SendMessage parse {| dbosCtx := NewDBOSContext p |} c m = (Some resp, m') →
  code resp = 200 →
  ∃ id content user assistant,
    parse (param_id c) = Some id ∧ body c = Fields (Some content) ∧
    content ≠ "" ∧ is_Some (conversations (world m) !! id) ∧
    payload resp
      = json_ChatResponse {| resp_UserMessage := user;
                             resp_AssistantMessage := assistant |} ∧
    ConversationID user = id ∧ Role user = "user" ∧ Content user = content ∧
    ConversationID assistant = id ∧ Role assistant = "assistant" ∧
    ID assistant ≠ ID user ∧
    messages (world m) !! ID user = None ∧
    messages (world m) !! ID assistant = None ∧
    messages (world m')
      = <[ID assistant := row_of assistant]>
          (<[ID user := row_of user]> (messages (world m))) ∧
    conversations (world m') = conversations (world m).
Proof.
  intros Halive Hok Hsend Hcode.
  destruct (parse (param_id c)) as [id|] eqn:Hparse.
  2:{ unfold SendMessage in Hsend. rewrite Hparse in Hsend.
      by simplify_eq. }
  destruct (ShouldBindJSON (body c)) as [req|e] eqn:Hbind.
  2:{ unfold SendMessage in Hsend. rewrite Hparse, Hbind in Hsend.
      by simplify_eq. }
  destruct (query_exists id (world m)) as [r w] eqn:Hq.
  assert (r = inl true) as ->.
  { unfold SendMessage in Hsend. rewrite Hparse, Hbind, Hq in Hsend.
    destruct r as [[|]|]; by simplify_eq. }
  destruct (SendMessage_accepted parse p c m id req w)
    as (out&err&m1&m2&m3&Halive1&Hfresh&Hm1&Hc1&_&Hexec&Hsend'&Hw3&_);
    try done.
  rewrite Hsend' in Hsend. simplify_eq.
  destruct err as [e|]; [done|].
  apply SendMessageWorkflow_outcomes in Hexec
    as (out'&err'&[= <- <-]&_&_&Hconv&_&Hrows); try done.
  cbn in Hrows. destruct Hrows as (?&?&?&?&?&?&?&?&?&Hmsgs).
  apply ShouldBindJSON_ok in Hbind as [Hbody Hne].
  apply query_exists_true in Hq as (_&Hexists&_).
  exists id, (req_Content req), (UserMessage out), (AssistantMessage out).
  rewrite Hw3. split_and!; try done; congruence.
Qed.

(** X2. In a process that does not crash, a [SendMessage] request answered
    with another status than 200 leaves [conversations] unchanged and adds
    no assistant message: [messages] is unchanged, or (status 500) has
    gained exactly the user message, which is not removed again. *)
Theorem SendMessage_failure_rows parse p c m resp m' :
  fuse m = None → store_ok (store m) →
  SendMessage parse {| dbosCtx := NewDBOSContext p |} c m = (Some resp, m') →
  code resp ≠ 200 →
  conversations (world m') = conversations (world m) ∧
  (messages (world m') = messages (world m) ∨
   ∃ id content user,
     parse (param_id c) = Some id ∧ body c = Fields (Some content) ∧
     code resp = 500 ∧
     ConversationID user = id ∧ Role user = "user" ∧ Content user = content ∧
     messages (world m) !! ID user = None ∧
     messages (world m') = <[ID user := row_of user]> (messages (world m))).
Proof.
  intros Halive Hok Hsend Hcode.
  destruct (parse (param_id c)) as [id|] eqn:Hparse.
  2:{ unfold SendMessage in Hsend. rewrite Hparse in Hsend.
      simplify_eq. split; [done|]. by left. }
  destruct (ShouldBindJSON (body c)) as [req|e] eqn:Hbind.
  2:{ unfold SendMessage in Hsend. rewrite Hparse, Hbind in Hsend.
      simplify_eq. split; [done|]. by left. }
  destruct (query_exists id (world m)) as [r w] eqn:Hq.
  destruct (decide (r = inl true)) as [->|Hr].
  2:{ unfold SendMessage in Hsend. rewrite Hparse, Hbind, Hq in Hsend.
      assert (conversations w = conversations (world m) ∧
              messages w = messages (world m)) as [? ?].
      { unfold query_exists in Hq.
        destruct (next_fault (world m)); by simplify_eq. }
      destruct r as [[|]|]; simplify_eq; cbn; split; auto. }
  destruct (SendMessage_accepted parse p c m id req w)
    as (out&err&m1&m2&m3&Halive1&Hfresh&Hm1&Hc1&_&Hexec&Hsend'&Hw3&_);
    try done.
  rewrite Hsend' in Hsend. simplify_eq.
  destruct err as [e|]; [|done].
  apply SendMessageWorkflow_outcomes in Hexec
    as (out'&err'&[= <- <-]&_&_&Hconv&_&_&Hrows); try done.
  apply ShouldBindJSON_ok in Hbind as [Hbody Hne].
  rewrite Hw3. split; [congruence|].
  destruct Hrows as [[_ Hsame]|(?&?&?&?&Hmsgs)].
  - left. congruence.
  - right. exists id, (req_Content req), (UserMessage out).
    split_and!; try done; congruence.
Qed.

Lemma query_exists_ok id w :
  next_fault w = None → is_Some (conversations w !! id) →
  query_exists id w = (inl true, log_effect (ConversationExists id) true w).
Proof.
  intros Hf Hc. unfold query_exists. rewrite Hf.
  by rewrite bool_decide_eq_true_2.
Qed.

Lemma SendMessage_ticks parse h c m :
  ∃ w, rtc tick (set_world w m) (SendMessage parse h c m).2.
Proof.
  unfold SendMessage, RunWorkflow.
  destruct (parse (param_id c)) as [id|].
  2:{ exists (world m). by destruct m. }
  destruct (ShouldBindJSON (body c)) as [req|e].
  2:{ exists (world m). by destruct m. }
  destruct (query_exists id (world m)) as [r w]. exists w.
  destruct r as [[|]|e]; try done.
  pose proof (Start_ticks (dbosCtx h) SendMessageWorkflow_name
                (encode {| in_ConversationID := id;
                           in_Content := req_Content req |})
                None (set_world w m)) as Ht.
  destruct (Start _ _ _ _ _) as [[[handle|e]|] m2]; cbn in *; try done.
  by destruct (GetResultAs SendMessageOutput handle m2) as [[|]|].
Qed.

(** X3. [SendMessage] passes no workflow id to [RunWorkflow], so a
    well-formed request for an existing conversation that is sent twice is
    not deduplicated (neither the database nor the process failing): the
    two runs get different execution ids, the workflow function is started
    for each, and both executions end terminal, with the same workflow name
    and the same input. *)
Theorem SendMessage_no_dedup parse p c m id req r1 m1 r2 m2 :
  fuse m = None → store_ok (store m) → (∀ k, fault (world m) k = None) →
  parse (param_id c) = Some id → ShouldBindJSON (body c) = inl req →
  is_Some (conversations (world m) !! id) →
  SendMessage parse {| dbosCtx := NewDBOSContext p |} c m = (r1, m1) →
  SendMessage parse {| dbosCtx := NewDBOSContext p |} c m1 = (r2, m2) →
  let wid1 := execution_id None (store m) in
  let wid2 := execution_id None (store m1) in
  wid1 ≠ wid2 ∧ launches m2 = launches m ++ [wid1; wid2] ∧
  ∃ e1 e2,
    executions (store m2) !! wid1 = Some e1 ∧
    executions (store m2) !! wid2 = Some e2 ∧
    terminal (state e1) = true ∧ terminal (state e2) = true ∧
    workflow_name e1 = workflow_name e2 ∧ input e1 = input e2.
Proof.
  intros Halive Hok Hfault Hparse Hbind Hconv Hs1 Hs2 wid1 wid2.
  destruct (SendMessage_accepted parse p c m id req
              (log_effect (ConversationExists id) true (world m)))
    as (out1&err1&ma&mb&m1'&Ha&Hfresh1&_&Hca&Henva&Hexec1&Hs1'&Hw1&Halive1
        &Hl1&Hrows1); try done.
  { apply query_exists_ok; [apply Hfault|done]. }
  rewrite Hs1' in Hs1. simplify_eq.
  apply SendMessageWorkflow_outcomes in Hexec1
    as (?&?&[= <- <-]&_&Henvb&Hcb&_); try done.
  assert (same_env (world m) (world m1)) as Henv1.
  { rewrite Hw1. by eapply same_env_trans. }
  assert (store_ok (store m1)) as Hok1.
  { destruct (SendMessage_ticks parse {| dbosCtx := NewDBOSContext p |} c m)
      as [w Ht].
    rewrite Hs1' in Ht. by apply ticks_store_ok in Ht. }
  destruct (SendMessage_accepted parse p c m1 id req
              (log_effect (ConversationExists id) true (world m1)))
    as (out2&err2&mc&md&m2'&_&_&_&_&_&_&Hs2'&_&_&Hl2&Hrows2); try done.
  { apply query_exists_ok.
    - unfold next_fault. destruct Henv1 as (_&_&->&_). apply Hfault.
    - rewrite Hw1, Hcb, Hca. done. }
  rewrite Hs2' in Hs2. simplify_eq.
  fold wid1 in Hl1, Hrows1. fold wid2 in Hl2, Hrows2.
  assert (wid1 ≠ wid2) as Hne.
  { intros Heq. pose proof (fresh_execution_id (store m1)) as Hnone.
    fold wid2 in Hnone. rewrite Hrows1, <- Heq, lookup_insert_eq in Hnone.
    done. }
  split; [done|]. split.
  { rewrite Hl2, Hl1. by rewrite <- app_assoc. }
  eexists _, _. rewrite Hrows2, Hrows1.
  rewrite lookup_insert_ne by done. rewrite !lookup_insert_eq.
  split_and!; try done; cbn.
  - by destruct err1.
  - by destruct err2.
Qed.

(** ** Rows and queries *)

Lemma scan_row_of msg :
  scan_message (ID msg, row_of msg)
  = {| ID := ID msg; ConversationID := ConversationID msg; Role := Role msg;
       Content := Content msg;
       CreatedAt := timestamp_column (CreatedAt msg) |}.
Proof. done. Qed.

(** X5. Round trip of [saveMessage] and the history query.  After a
    successful [saveMessage] the messages of the conversation are the
    earlier ones and the new one, read back with the id, conversation, role
    and content that [saveMessage] returned and with the [created_at] that
    the TIMESTAMP column made of the returned one; other conversations see
    no change; and [getMessages] returns the new message, so read back,
    within a history sorted by [created_at].  A failed [saveMessage] leaves
    [messages] as it was, and [conversations] is never touched. *)
Theorem saveMessage_then_select cid role content w r w' :
  saveMessage cid role content w = (r, w') →
  conversations w' = conversations w ∧
  match r with
  | inl msg =>
      let read :=
        {| ID := ID msg; ConversationID := ConversationID msg;
           Role := Role msg; Content := Content msg;
           CreatedAt := timestamp_column (CreatedAt msg) |} in
      (∀ x, x ∈ select_messages cid (messages w') ↔
            x = read ∨ x ∈ select_messages cid (messages w)) ∧
      (∀ cid' x, cid' ≠ cid →
         x ∈ select_messages cid' (messages w') ↔
         x ∈ select_messages cid' (messages w)) ∧
      (next_fault w' = None →
       ∃ hist w'', getMessages cid w' = (inl hist, w'') ∧
                   read ∈ elems hist ∧
                   StronglySorted created_le (elems hist))
  | inr _ => messages w' = messages w
  end.
Proof.
  intros Hs. apply saveMessage_spec in Hs as (_&Hconv&_&Hr).
  split; [done|]. destruct r as [msg|e]; [|by destruct Hr].
  destruct Hr as (Hmsg&_&Hnew&_&Hrows&_).
  rewrite <- Hmsg in Hnew, Hrows.
  assert (ConversationID msg = cid) as Hcid by (by rewrite Hmsg).
  rewrite <- (scan_row_of msg). set (read := scan_message _).
  assert (ConversationID read = cid) as Hcid' by done.
  assert (∀ cid' x, x ∈ select_messages cid' (messages w') ↔
            (x = read ∧ cid' = cid) ∨ x ∈ select_messages cid' (messages w))
    as Hel.
  { intros cid' x. rewrite !select_messages_elem, Hrows. split.
    - intros (key&row&Hrow&->&Hc).
      apply lookup_insert_Some in Hrow as [[<- <-]|[Hne Hrow]].
      + left. split; [done|]. by rewrite <- Hc.
      + right. eauto.
    - intros [[-> ->]|(key&row&Hrow&->&Hc)].
      + exists (ID msg), (row_of msg). by rewrite lookup_insert_eq.
      + exists key, row. rewrite lookup_insert_ne; [done|].
        intros <-. congruence. }
  cbv zeta. split_and!.
  - intros x. rewrite Hel. split.
    + intros [[-> _]|?]; auto.
    + intros [->|?]; auto.
  - intros cid' x Hne. rewrite Hel. split.
    + by intros [[_ ?]|?].
    + auto.
  - intros Hf. rewrite (getMessages_ok cid w' Hf). eexists _, _.
    split; [done|]. rewrite elems_append_all_nil. split.
    + apply Hel. by left.
    + apply select_messages_sorted.
Qed.

(** X6. [getMessages] never changes a table.  On success its elements are
    the rows of the conversation in [created_at] order; it is the nil slice
    (which JSON prints as null, unlike the empty slice of the handler
    [GetMessages]) exactly when the conversation has no message; and the
    request [Chat] builds from it is this history followed by the new user
    message.  It fails exactly with the error of the database. *)
Theorem getMessages_history cid w r w' :
  getMessages cid w = (r, w') →
  conversations w' = conversations w ∧ messages w' = messages w ∧
  match r with
  | inl hist =>
      elems hist = select_messages cid (messages w) ∧
      (hist = nil_slice ↔
       ∀ key row, messages w !! key = Some row →
                  row_conversation_id row ≠ cid) ∧
      (hist = nil_slice → json_slice json_Message hist = JNull) ∧
      ∀ userMessage,
        vllm_messages hist userMessage
          = (to_vllm <$> select_messages cid (messages w))
            ++ [{| vllm_Role := "user"; vllm_Content := userMessage |}]
  | inr e => next_fault w = Some e
  end.
Proof.
  intros Hg. apply getMessages_spec in Hg as (_&Hc&Hm&Hr).
  split; [done|]. split; [done|]. destruct r as [hist|e]; [|by destruct Hr].
  destruct Hr as (_&->&_).
  assert (elems (append_all nil_slice (select_messages cid (messages w)))
          = select_messages cid (messages w)) as Hel
    by apply elems_append_all_nil.
  split_and!.
  - done.
  - split.
    + intros Hnil key row Hrow Hcid.
      assert (scan_message (key, row) ∈ select_messages cid (messages w))
        as Hin by (apply select_messages_elem; eauto).
      rewrite <- Hel, Hnil in Hin. by apply elem_of_nil in Hin.
    + intros Hnone.
      destruct (select_messages cid (messages w)) as [|x l] eqn:Hsel;
        [done|].
      assert (x ∈ select_messages cid (messages w)) as Hin
        by (rewrite Hsel; by left).
      apply select_messages_elem in Hin as (key&row&Hrow&->&Hcid).
      by destruct (Hnone key row Hrow).
  - by intros ->.
  - intros userMessage. unfold vllm_messages. by rewrite Hel.
Qed.

(** ** The model services *)

(** X7. The vLLM [Chat] makes exactly one external call and changes no
    table.  It returns a reply exactly when the server answered with
    status 200 and a decodable body with at least one choice, and the reply
    is the first choice; any other status is an error that quotes the
    status and the body, whatever the body holds. *)
Theorem Chat_result hist userMessage w r w' :
  Chat hist userMessage w = (r, w') →
  conversations w' = conversations w ∧ messages w' = messages w ∧
  uuids_drawn w' = uuids_drawn w ∧
  length (effects w') = S (length (effects w)) ∧
  (∀ reply,
     r = inl reply ↔
     ∃ body rest,
       server w (length (effects w))
         = Responded 200 body (inl (reply :: rest))) ∧
  (∀ status body decoded,
     server w (length (effects w)) = Responded status body decoded →
     status ≠ 200 →
     r = inr ("vLLM API error (status " +:+ pretty status +:+ "): "
              +:+ body)).
Proof.
  intros Hc. pose proof Hc as Hc'.
  apply Chat_spec in Hc' as (_&?&?&?&_&Heff).
  split_and!; try done.
  - rewrite Heff, length_app. cbn. lia.
  - intros reply. unfold Chat in Hc. split.
    + intros ->. repeat case_match; simplify_eq.
      match goal with
      | n : ¬ ?s ≠ 200 |- _ =>
          assert (s = 200) as -> by (by destruct (decide (s = 200)))
      end.
      eauto.
    + intros (body&rest&Hs). rewrite Hs in Hc.
      rewrite decide_False in Hc by (by intros []). by simplify_eq.
  - intros status body decoded Hs Hne. unfold Chat in Hc. rewrite Hs in Hc.
    rewrite decide_True in Hc by done. by simplify_eq.
Qed.

(** X8. The Anthropic [Chat] returns a text exactly when the body decodes,
    has no [error] member and has at least one content block, and the text
    is that of the first block; an [error] member makes the call fail with
    its message even when content blocks are present.  The request carries
    the API key in the [x-api-key] header and asks for at most 4096
    tokens. *)
Theorem AnthropicChat_result s hist userMessage :
  let req := anthropic_request s hist userMessage in
  (∀ reply,
     AnthropicChat s hist userMessage = inl reply ↔
     ∃ block rest,
       client s req
         = AnthropicBody (inl {| anth_Blocks := block :: rest;
                                 anth_Error := None |}) ∧
       block_Text block = reply) ∧
  (∀ blocks e,
     client s req
       = AnthropicBody (inl {| anth_Blocks := blocks; anth_Error := Some e |}) →
     AnthropicChat s hist userMessage
       = inr ("anthropic API error: " +:+ err_Message e)) ∧
  http_headers req !! 1 = Some ("x-api-key", apiKey s) ∧
  anth_MaxTokens (http_payload req) = 4096.
Proof.
  intros req. split_and!; try done.
  - intros reply. unfold AnthropicChat. fold req. split.
    + destruct (client s req) as [e|e|[[blocks [e|]]|e]]; cbn; try done.
      destruct blocks as [|block rest]; [done|]. intros [= <-]. eauto.
    + by intros (block&rest&->&<-).
  - intros blocks e Hc. unfold AnthropicChat. fold req. by rewrite Hc.
Qed.

(** X9. The two model services send the same conversation: the roles and
    contents of the history in order, followed by the new message with role
    [user]; the list has one entry more than the history. *)
Theorem services_send_same_conversation hist userMessage :
  (λ a, (anth_Role a, anth_Content a)) <$> anthropic_messages hist userMessage
    = (λ v, (vllm_Role v, vllm_Content v)) <$> vllm_messages hist userMessage ∧
  length (vllm_messages hist userMessage) = S (length (elems hist)) ∧
  last (vllm_messages hist userMessage)
    = Some {| vllm_Role := "user"; vllm_Content := userMessage |} ∧
  ∀ i msg, elems hist !! i = Some msg →
           vllm_messages hist userMessage !! i
             = Some {| vllm_Role := Role msg; vllm_Content := Content msg |}.
Proof.
  unfold anthropic_messages, vllm_messages. split_and!.
  - rewrite !fmap_app, <- !list_fmap_compose. done.
  - rewrite length_app, length_fmap. cbn. lia.
  - by rewrite last_snoc.
  - intros i msg Hi. rewrite lookup_app_l.
    + by rewrite list_lookup_fmap, Hi.
    + rewrite length_fmap. by eapply lookup_lt_Some.
Qed.

(** ** Deleting *)

(** X10. When the database does not fail, [deleteConversation] never
    changes [messages]; it is refused with a foreign-key error, leaving
    [conversations] as it was, exactly when a message still references the
    conversation, and otherwise removes the row; after a successful
    [deleteMessages] for the same conversation it is never refused. *)
Theorem deleteConversation_after_messages cid w :
  next_fault w = None →
  let referenced :=
    ∃ key row, messages w !! key = Some row ∧ row_conversation_id row = cid in
  messages (deleteConversation cid w).2 = messages w ∧
  (referenced →
   (deleteConversation cid w).1 = inr (fk_restrict "conversations") ∧
   conversations (deleteConversation cid w).2 = conversations w) ∧
  (¬ referenced →
   (deleteConversation cid w).1 = inl true ∧
   conversations (deleteConversation cid w).2 = delete cid (conversations w)) ∧
  (∀ w1, deleteMessages cid w = (inl true, w1) → next_fault w1 = None →
         (deleteConversation cid w1).1 = inl true ∧
         conversations (deleteConversation cid w1).2
           = delete cid (conversations w)).
Proof.
  intros Hf referenced.
  assert (filter (λ kv : UUID * MessageRow, row_conversation_id kv.2 = cid)
            (messages w) = ∅ ↔ ¬ referenced) as Hempty.
  { rewrite map_empty. split.
    - intros Hnone (key&row&Hrow&Hc).
      specialize (Hnone key). apply map_lookup_filter_None in Hnone
        as [Hnone|Hnone]; [congruence|]. by apply (Hnone row).
    - intros Hnot key. apply map_lookup_filter_None. right.
      intros row Hrow Hc. apply Hnot. by exists key, row. }
  split_and!.
  - unfold deleteConversation, exec_delete_conversation. rewrite Hf.
    by case_decide.
  - intros Href. unfold deleteConversation, exec_delete_conversation.
    rewrite Hf. rewrite decide_False; [done|]. rewrite Hempty. tauto.
  - intros Hnot. unfold deleteConversation, exec_delete_conversation.
    rewrite Hf. rewrite decide_True; [done|]. by apply Hempty.
  - intros w1 Hd Hf1. rewrite (deleteMessages_ok cid w Hf) in Hd.
    simplify_eq. rewrite deleteConversation_ok; [done|done|].
    apply no_messages_left.
Qed.

Lemma deleteMessages_fails_quiet cid w e :
  (deleteMessages cid w).1 = inr e → quiet w (deleteMessages cid w).2.
Proof.
  destruct (deleteMessages cid w) as [r w'] eqn:Hd. cbn. intros ->.
  apply deleteMessages_spec in Hd as (?&?&?&?&Heff).
  split_and!; try done. by rewrite Heff, successes_failed.
Qed.

Lemma deleteConversation_fails_quiet cid w e :
  (deleteConversation cid w).1 = inr e → quiet w (deleteConversation cid w).2.
Proof.
  destruct (deleteConversation cid w) as [r w'] eqn:Hd. cbn. intros ->.
  apply deleteConversation_spec in Hd as (?&?&?&Heff).
  split_and!; try done. by rewrite Heff, successes_failed.
Qed.

(** Every outcome of [DeleteConversationWorkflow], for an execution without
    step rows in a process that does not crash. *)
Lemma DeleteConversationWorkflow_outcomes p wid cid m c m' :
  fuse m = None → (∀ n, steps (store m) !! (wid, n) = None) →
  exec p wid 0 (DeleteConversationWorkflow cid) m = (c, m') →
  ∃ ok err,
    c = Done (ok, err) ∧ fuse m' = None ∧ same_env (world m) (world m') ∧
    match err with
    | None =>
        ok = true ∧
        messages (world m')
          = filter (λ kv, row_conversation_id kv.2 ≠ cid) (messages (world m)) ∧
        conversations (world m') = delete cid (conversations (world m))
    | Some _ =>
        ok = false ∧
        conversations (world m') = conversations (world m) ∧
        (messages (world m') = messages (world m) ∨
         messages (world m')
           = filter (λ kv, row_conversation_id kv.2 ≠ cid)
               (messages (world m)))
    end.
Proof.
  intros Halive Hfresh Hexec. unfold DeleteConversationWorkflow in Hexec.
  apply exec_step in Hexec
    as (r0&k0&w0&m0&Hq0&Hb0&Halive0&Hst0&Hexec);
    [|done|done|apply deleteMessages_fails_quiet].
  destruct Hq0 as (Hqe0&Hqc0&Hqm0&_).
  apply deleteMessages_spec in Hb0 as (He0&Hc0&Hr0).
  assert (same_env (world m) (world m0)) as Henv0
    by (by eapply same_env_trans).
  destruct r0 as [ok0|e0]; cbv beta iota in Hexec.
  2:{ cbn in Hexec. simplify_eq. destruct Hr0 as (_&Hm0&_).
      eexists _, _. split; [done|]. split_and!; try done; try congruence.
      left. congruence. }
  destruct Hr0 as (_&_&Hm0&_). rewrite Hqm0 in Hm0.
  apply exec_step in Hexec
    as (r1&k1&w1&m1&Hq1&Hb1&Halive1&Hst1&Hexec);
    [|done|rewrite Hst0; by step_rows|apply deleteConversation_fails_quiet].
  destruct Hq1 as (Hqe1&Hqc1&Hqm1&_).
  apply deleteConversation_spec in Hb1 as (He1&Hm1&Hr1).
  assert (same_env (world m) (world m1)) as Henv1.
  { eapply same_env_trans; [exact Henv0|]. by eapply same_env_trans. }
  destruct r1 as [ok1|e1]; cbn in Hexec; simplify_eq.
  - destruct Hr1 as (->&_&Hc1&_).
    eexists _, _. split; [done|]. split_and!; try done; congruence.
  - destruct Hr1 as (Hc1&_).
    eexists _, _. split; [done|]. split_and!; try done; try congruence.
    right. congruence.
Qed.

(** X11. [DeleteConversationWorkflow], for an execution without step rows
    in a process that does not crash, never touches the rows of other
    conversations.  Without error it returns true, and the conversation and
    all its messages are gone; with an error it returns false and the
    table [conversations] is as before (the messages may already be
    deleted). *)
Theorem DeleteConversationWorkflow_effects p wid cid m ok err m' :
  fuse m = None → (∀ n, steps (store m) !! (wid, n) = None) →
  exec p wid 0 (DeleteConversationWorkflow cid) m = (Done (ok, err), m') →
  (∀ key row, row_conversation_id row ≠ cid →
     messages (world m') !! key = Some row ↔
     messages (world m) !! key = Some row) ∧
  (∀ id, id ≠ cid →
     conversations (world m') !! id = conversations (world m) !! id) ∧
  (err = None →
   ok = true ∧ conversations (world m') !! cid = None ∧
   ∀ key row, messages (world m') !! key = Some row →
              row_conversation_id row ≠ cid) ∧
  (err ≠ None →
   ok = false ∧ conversations (world m') = conversations (world m)).
Proof.
  intros Halive Hfresh Hexec.
  apply DeleteConversationWorkflow_outcomes in Hexec
    as (ok'&err'&[= <- <-]&_&_&Hcases); try done.
  assert (∀ key row, row_conversation_id row ≠ cid →
            filter (λ kv : UUID * MessageRow, row_conversation_id kv.2 ≠ cid)
              (messages (world m)) !! key = Some row ↔
            messages (world m) !! key = Some row) as Hfilter.
  { intros key row Hne. rewrite map_lookup_filter_Some. cbn. tauto. }
  destruct err as [e|].
  - destruct Hcases as (->&Hc&[Hm|Hm]); split_and!; try done.
    + intros key row Hne. by rewrite Hm.
    + intros id _. by rewrite Hc.
    + intros key row Hne. rewrite Hm. by apply Hfilter.
    + intros id _. by rewrite Hc.
  - destruct Hcases as (->&Hm&Hc). split_and!; try done.
    + intros key row Hne. rewrite Hm. by apply Hfilter.
    + intros id Hne. by rewrite Hc, lookup_delete_ne.
    + intros _. split_and!; [done| |].
      * by rewrite Hc, lookup_delete_eq.
      * intros key row. rewrite Hm, map_lookup_filter_Some. cbn. tauto.
Qed.

(** A [DeleteConversation] request in a healthy process. *)
Lemma DeleteConversation_runs parse p c m id :
  parse (param_id c) = Some id →
  fuse m = None → store_ok (store m) → (∀ k, fault (world m) k = None) →
  ∃ m',
    DeleteConversation parse {| dbosCtx := NewDBOSContext p |} c m
      = (Some {| code := 200; payload := H_message "Conversation deleted" |},
         m') ∧
    fuse m' = None ∧ store_ok (store m') ∧
    (∀ k, fault (world m') k = None) ∧
    messages (world m')
      = filter (λ kv, row_conversation_id kv.2 ≠ id) (messages (world m)) ∧
    conversations (world m') = delete id (conversations (world m)).
Proof.
  intros Hparse Halive Hok Hfault.
  pose proof (fresh_execution_id (store m)) as Hrow.
  destruct (Start_alive_full (NewDBOSContext p) DeleteConversationWorkflow_name
              (encode id) None m (register DeleteConversationWorkflow))
    as (res&m2&Hexec&Halive2&Hstart); try done.
  pose proof (Start_ticks (NewDBOSContext p) DeleteConversationWorkflow_name
                (encode id) None m) as Hticks.
  remember (execution_id None (store m)) as wid eqn:Hwid.
  rewrite exec_register in Hexec. cbn [policy NewDBOSContext] in Hexec.
  destruct (DeleteConversationWorkflow_runs p wid id
              (launch_state wid DeleteConversationWorkflow_name (encode id) m))
    as (m2'&Hexec'&Hmsgs&Hconv&_); try done.
  { intros n. cbn. by apply store_ok_fresh. }
  pose proof Hexec' as Hout.
  apply DeleteConversationWorkflow_outcomes in Hout
    as (?&?&_&_&(_&_&Hf&_)&_); try done.
  2:{ intros n. cbn. by apply store_ok_fresh. }
  rewrite Hexec' in Hexec. simplify_eq.
  rewrite Hstart in Hticks. eexists. split.
  - unfold DeleteConversation, RunWorkflow. rewrite Hparse.
    cbn [dbosCtx]. rewrite Hstart.
    unfold GetResultAs, GetResult. cbn. by rewrite lookup_insert_eq.
  - cbn. split_and!; try done.
    + by apply ticks_store_ok in Hticks.
    + intros k. cbn in Hf. rewrite Hf. apply Hfault.
Qed.

(** X12. After [DeleteConversation] in a process where neither the
    database nor the process fails (answer 200): [GetMessages] for the same
    id answers 200 with the empty array, [GetConversation] and a well-formed
    [SendMessage] answer 404, and a second [DeleteConversation] answers 200
    again. *)
Theorem after_DeleteConversation parse p c m id r m' :
  parse (param_id c) = Some id →
  fuse m = None → store_ok (store m) → (∀ k, fault (world m) k = None) →
  let h := {| dbosCtx := NewDBOSContext p |} in
  DeleteConversation parse h c m = (r, m') →
  r = Some {| code := 200; payload := H_message "Conversation deleted" |} ∧
  (GetMessages parse c m').1 = Some {| code := 200; payload := JArray [] |} ∧
  (GetConversation parse c m').1
    = Some {| code := 404; payload := H_error "Conversation not found" |} ∧
  (∀ c' req, parse (param_id c') = Some id →
             ShouldBindJSON (body c') = inl req →
             (SendMessage parse h c' m').1
               = Some {| code := 404;
                         payload := H_error "Conversation not found" |}) ∧
  (DeleteConversation parse h c m').1
    = Some {| code := 200; payload := H_message "Conversation deleted" |}.
Proof.
  intros Hparse Halive Hok Hfault h Hdel.
  destruct (DeleteConversation_runs parse p c m id)
    as (m1&Hdel1&Halive1&Hok1&Hfault1&Hmsgs&Hconv); try done.
  subst h. rewrite Hdel1 in Hdel. simplify_eq.
  assert (next_fault (world m') = None) as Hnext by apply Hfault1.
  assert (conversations (world m') !! id = None) as Hgone.
  { by rewrite Hconv, lookup_delete_eq. }
  split_and!.
  - done.
  - unfold GetMessages, query_messages. rewrite Hparse, Hnext. cbn.
    rewrite append_all_mk. cbn.
    destruct (select_messages id (messages (world m'))) as [|x l] eqn:Hsel;
      [done|].
    assert (x ∈ select_messages id (messages (world m'))) as Hin
      by (rewrite Hsel; by left).
    apply select_messages_elem in Hin as (key&row&Hrow&->&Hc).
    rewrite Hmsgs in Hrow. by apply map_lookup_filter_Some in Hrow as [_ ?].
  - unfold GetConversation, query_conversation.
    by rewrite Hparse, Hnext, Hgone.
  - intros c' req Hparse' Hbind. unfold SendMessage, query_exists.
    rewrite Hparse', Hbind, Hnext, Hgone.
    by rewrite bool_decide_eq_false_2 by (by intros [? ?]).
  - destruct (DeleteConversation_runs parse p c m' id) as (m2&->&_);
      done.
Qed.

(** ** Creating and reading a conversation *)

Lemma createConversation_ok w :
  next_fault w = None →
  conversations w !! uuid_source w (uuids_drawn w) = None →
  ∃ w',
    createConversation w
      = (inl {| c_ID := uuid_source w (uuids_drawn w);
                c_CreatedAt := time_source w (time_reads w) |}, w') ∧
    same_env w w' ∧ messages w' = messages w ∧
    conversations w'
      = <[uuid_source w (uuids_drawn w)
            := timestamp_column (time_source w (time_reads w))]>
          (conversations w).
Proof.
  intros Hf Hnew.
  unfold createConversation, uuid_New, time_Now, exec_insert_conversation,
    next_fault.
  unfold next_fault in Hf. cbn. rewrite Hf.
  rewrite decide_False; [|by apply eq_None_not_Some].
  eexists. split; [reflexivity|]. repeat split.
Qed.

Lemma main_registry_CreateConversation :
  main_registry !! CreateConversationWorkflow_name
    = Some (register CreateConversationWorkflow).
Proof. done. Qed.

(** X13. When neither the database nor the process fails and the drawn id
    is not taken, [CreateConversation] answers 201 with the conversation
    whose id is the next draw of the random source and whose [created_at]
    is the next clock reading, adds exactly one row to [conversations] and
    leaves [messages] alone.  The row has that id and the [created_at] that
    the TIMESTAMP column made of the clock reading: [GetConversation] for
    that id then answers 200 with the id and this [created_at], which need
    not be the one the 201 carried, and [ListConversations] lists the same
    conversation. *)
Theorem CreateConversation_then_read parse p m :
  fuse m = None → store_ok (store m) → (∀ k, fault (world m) k = None) →
  conversations (world m) !! uuid_source (world m) (uuids_drawn (world m))
    = None →
  let h := {| dbosCtx := NewDBOSContext p |} in
  let conv := {| c_ID := uuid_source (world m) (uuids_drawn (world m));
                 c_CreatedAt := time_source (world m) (time_reads (world m)) |}
  in
  let read := {| c_ID := c_ID conv;
                 c_CreatedAt := timestamp_column (c_CreatedAt conv) |} in
  ∃ m',
    CreateConversation h m
      = (Some {| code := 201; payload := json_Conversation conv |}, m') ∧
    messages (world m') = messages (world m) ∧
    conversations (world m')
      = <[c_ID conv := timestamp_column (c_CreatedAt conv)]>
          (conversations (world m)) ∧
    (∀ c, parse (param_id c) = Some (c_ID conv) →
          (GetConversation parse c m').1
            = Some {| code := 200; payload := json_Conversation read |}) ∧
    ∃ convs,
      (ListConversations m').1
        = Some {| code := 200;
                  payload := JArray (json_Conversation <$> convs) |} ∧
      read ∈ convs.
Proof.
  intros Halive Hok Hfault Hnew h conv read.
  pose proof (fresh_execution_id (store m)) as Hrow.
  destruct (Start_alive_full (NewDBOSContext p) CreateConversationWorkflow_name
              (encode "") None m (register CreateConversationWorkflow))
    as (res&m2&Hexec&Halive2&Hstart); try done.
  remember (execution_id None (store m)) as wid eqn:Hwid.
  rewrite exec_register in Hexec. cbn [policy NewDBOSContext] in Hexec.
  destruct (createConversation_ok (world m)) as (w'&Hcreate&Henv&Hmsgs&Hconv);
    [apply Hfault|done|].
  unfold CreateConversationWorkflow in Hexec.
  rewrite exec_RunAsStep in Hexec.
  erewrite run_step_typed_ok in Hexec; [|done| |exact Hcreate].
  2:{ apply memoized_None_steps. cbn. by apply store_ok_fresh. }
  cbn in Hexec. simplify_eq.
  assert (next_fault w' = None) as Hnext.
  { unfold next_fault. destruct Henv as (_&_&->&_). apply Hfault. }
  eexists. split.
  { unfold CreateConversation, RunWorkflow. subst h. cbn [dbosCtx].
    rewrite Hstart. unfold GetResultAs, GetResult. cbn.
    by rewrite lookup_insert_eq. }
  cbn. split_and!; try done.
  - intros c Hparse. unfold GetConversation, query_conversation. cbn.
    rewrite Hparse, Hnext, Hconv. cbn. by rewrite lookup_insert_eq.
  - exists (select_conversations (conversations w')). split.
    + unfold ListConversations, query_conversations. cbn. rewrite Hnext.
      cbn. by rewrite append_all_mk.
    + apply select_conversations_elem. rewrite Hconv. cbn.
      by rewrite lookup_insert_eq.
Qed.

(** X15. [GetConversation] changes neither the store nor a table.  It
    answers 400 when the id does not parse, 200 with the conversation
    exactly when the id parses, the database answers and the row exists,
    and 404 both when there is no such row and when the database fails. *)
Theorem GetConversation_result parse c m :
  let r := GetConversation parse c m in
  store r.2 = store m ∧ conversations (world r.2) = conversations (world m) ∧
  messages (world r.2) = messages (world m) ∧
  (parse (param_id c) = None →
   r.1 = Some {| code := 400; payload := H_error "Invalid conversation ID" |}) ∧
  (∀ conv,
     r.1 = Some {| code := 200; payload := json_Conversation conv |} ↔
     parse (param_id c) = Some (c_ID conv) ∧ next_fault (world m) = None ∧
     conversations (world m) !! c_ID conv = Some (c_CreatedAt conv)) ∧
  (∀ id, parse (param_id c) = Some id →
     is_Some (next_fault (world m)) ∨ conversations (world m) !! id = None →
     r.1 = Some {| code := 404; payload := H_error "Conversation not found" |}).
Proof.
  intros r. subst r. unfold GetConversation, query_conversation.
  destruct (parse (param_id c)) as [id|] eqn:Hparse.
  2:{ split_and!; try done. intros conv. split; [done|]. by intros (?&_). }
  destruct (next_fault (world m)) as [e|] eqn:Hf.
  { cbn. split_and!; try done. intros conv. split; [done|]. by intros (_&?&_). }
  destruct (conversations (world m) !! id) as [created|] eqn:Hrow; cbn.
  - split_and!; try done.
    + intros [conv_id conv_at]. cbn. split.
      * by intros [= <- <-].
      * intros ([= <-]&_&Hc). cbn in Hc. rewrite Hrow in Hc.
        by simplify_eq.
    + intros id' [= <-] [[? ?]|?]; congruence.
  - split_and!; try done.
    intros [conv_id conv_at]. cbn. split; [done|].
    intros ([= <-]&_&Hc). cbn in Hc. congruence.
Qed.

Lemma GetMessages_unchanged parse c m :
  unchanged m (GetMessages parse c m).2.
Proof.
  unfold GetMessages, query_messages.
  destruct (parse (param_id c)); [|done].
  by destruct (next_fault (world m)).
Qed.

Lemma ListConversations_unchanged m : unchanged m (ListConversations m).2.
Proof.
  unfold ListConversations, query_conversations.
  by destruct (next_fault (world m)).
Qed.

Lemma GetConversation_unchanged parse c m :
  unchanged m (GetConversation parse c m).2.
Proof.
  unfold GetConversation, query_conversation.
  destruct (parse (param_id c)); [|done].
  destruct (next_fault (world m)); [done|].
  by destruct (conversations (world m) !! _).
Qed.

(** X16. [GetMessages], [ListConversations] and [GetConversation] only
    read: apart from the log of external calls the machine is as before
    (store, tables, entropy and clock positions, nothing started).  They
    always answer; [GetMessages] and [ListConversations] answer 500 exactly
    when the query fails, and [GetConversation] never answers 500. *)
Theorem read_handlers_change_nothing parse c m :
  (unchanged m (GetMessages parse c m).2 ∧
   ∃ resp, (GetMessages parse c m).1 = Some resp ∧
           (code resp = 200 ∨ code resp = 400 ∨ code resp = 500) ∧
           (code resp = 500 ↔
            is_Some (parse (param_id c)) ∧ is_Some (next_fault (world m)))) ∧
  (unchanged m (ListConversations m).2 ∧
   ∃ resp, (ListConversations m).1 = Some resp ∧
           (code resp = 200 ∨ code resp = 500) ∧
           (code resp = 500 ↔ is_Some (next_fault (world m)))) ∧
  (unchanged m (GetConversation parse c m).2 ∧
   ∃ resp, (GetConversation parse c m).1 = Some resp ∧
           (code resp = 200 ∨ code resp = 400 ∨ code resp = 404)).
Proof.
  split; [|split]; (split;
    [first [apply GetMessages_unchanged | apply ListConversations_unchanged
           | apply GetConversation_unchanged]|]).
  - unfold GetMessages, query_messages.
    destruct (parse (param_id c)) as [id|].
    + destruct (next_fault (world m)) as [e|]; cbn; eexists;
        (split; [done|]); cbn; (split; [auto|]).
      * split; [eauto|done].
      * split; [done|]. by intros [_ [? ?]].
    + eexists. split; [done|]. cbn. split; [auto|].
      split; [done|]. by intros [[? ?] _].
  - unfold ListConversations, query_conversations.
    destruct (next_fault (world m)) as [e|]; cbn; eexists;
      (split; [done|]); cbn; (split; [auto|]).
    + split; [eauto|done].
    + split; [done|]. by intros [? ?].
  - unfold GetConversation, query_conversation.
    destruct (parse (param_id c)); [|eexists; split; [done|]; cbn; auto].
    destruct (next_fault (world m)); [eexists; split; [done|]; cbn; auto|].
    destruct (conversations (world m) !! _);
      eexists; (split; [done|]); cbn; auto.
Qed.

(** X14. The step body of [CreateConversationWorkflow] takes no input into
    account: after a successful creation, a second successful invocation
    draws the next id, which differs from the first, and the table then
    holds both rows, each with the [created_at] that the TIMESTAMP column
    made of the one returned; a [SELECT] returns the two conversations with
    these [created_at].  A failed invocation changes no table. *)
Theorem createConversation_twice w c1 w1 r2 w2 :
  createConversation w = (inl c1, w1) →
  createConversation w1 = (r2, w2) →
  messages w2 = messages w ∧
  c_ID c1 = uuid_source w (uuids_drawn w) ∧
  conversations w !! c_ID c1 = None ∧
  conversations w1 !! c_ID c1 = Some (timestamp_column (c_CreatedAt c1)) ∧
  match r2 with
  | inl c2 =>
      c_ID c2 = uuid_source w (S (uuids_drawn w)) ∧ c_ID c2 ≠ c_ID c1 ∧
      conversations w2
        = <[c_ID c2 := timestamp_column (c_CreatedAt c2)]>
            (<[c_ID c1 := timestamp_column (c_CreatedAt c1)]>
               (conversations w)) ∧
      {| c_ID := c_ID c1; c_CreatedAt := timestamp_column (c_CreatedAt c1) |}
        ∈ select_conversations (conversations w2) ∧
      {| c_ID := c_ID c2; c_CreatedAt := timestamp_column (c_CreatedAt c2) |}
        ∈ select_conversations (conversations w2)
  | inr _ => conversations w2 = conversations w1
  end.
Proof.
  intros H1 H2.
  apply createConversation_spec in H1 as ((Hsrc&_)&Hm1&Hd1&Hc1&Hn1&Hr1&_).
  apply createConversation_spec in H2 as (_&Hm2&_&Hr2).
  rewrite <- Hc1 in Hn1, Hr1.
  split_and!; try done; try congruence.
  - by rewrite Hc1.
  - by rewrite Hr1, lookup_insert_eq.
  - destruct r2 as [c2|e]; [|by destruct Hr2].
    destruct Hr2 as (Hc2&Hn2&Hr2&_). rewrite <- Hc2 in Hn2, Hr2.
    rewrite Hr1 in Hn2. apply lookup_insert_None in Hn2 as [_ Hne].
    split_and!.
    + rewrite Hc2. cbn. by rewrite Hsrc, Hd1.
    + done.
    + by rewrite Hr2, Hr1.
    + apply select_conversations_elem. cbn.
      rewrite Hr2, Hr1, lookup_insert_ne by done. by rewrite lookup_insert_eq.
    + apply select_conversations_elem. cbn. by rewrite Hr2, lookup_insert_eq.
Qed.

Lemma step_ticks_memo wid0 m m' wid n v :
  rtc (step_tick wid0) m m' → memoized wid n (store m) = Some v →
  steps (store m') !! (wid, n) = steps (store m) !! (wid, n) ∧
  invoked wid n m' = invoked wid n m.
Proof.
  induction 1 as [|m1 m2 m3 Ht _ IH]; intros Hmemo; [done|].
  destruct (step_tick_memo _ _ _ _ _ _ Ht Hmemo) as [Hs Hi].
  destruct IH as [Hs' Hi'].
  { by rewrite (memoized_steps _ _ _ _ Hs). }
  split; congruence.
Qed.

(** X4. Resuming [SendMessageWorkflow] when only its first step is
    recorded, in a run that completes without error: the body of the first
    step is not invoked and the history is not queried again; the three
    remaining steps run in order, and the request to the model carries the
    recorded history (followed by the new user message), not the present
    content of the table; the two messages of the output are the rows
    added. *)
Theorem SendMessageWorkflow_resumes p wid input m hist out m' :
  fuse m = None →
  memoized wid 0 (store m) = Some (VMessages hist) →
  (∀ n, steps (store m) !! (wid, S n) = None) →
  exec p wid 0 (SendMessageWorkflow input) m = (Done (out, None), m') →
  invoked wid 0 m' = invoked wid 0 m ∧
  successes (effects (world m'))
    = successes (effects (world m))
      ++ [InsertMessage (UserMessage out);
          PostChatCompletions (vllm_messages hist (in_Content input));
          InsertMessage (AssistantMessage out)] ∧
  messages (world m')
    = <[ID (AssistantMessage out) := row_of (AssistantMessage out)]>
        (<[ID (UserMessage out) := row_of (UserMessage out)]>
           (messages (world m))).
Proof.
  intros Halive Hmemo Hfresh Hexec. split.
  { pose proof (exec_ticks p wid 0 (SendMessageWorkflow input) m) as Ht.
    rewrite Hexec in Ht. by eapply step_ticks_memo in Ht as [_ ?]. }
  unfold SendMessageWorkflow in Hexec.
  rewrite exec_RunAsStep, (run_step_memoized _ _ _ _ _ _ Hmemo) in Hexec.
  cbn [decode_result decode Serial_Messages] in Hexec.
  apply exec_step in Hexec
    as (r1&k1&w1&m1&Hq1&Hb1&Halive1&Hst1&Hexec);
    [|done|apply (Hfresh 0)|apply saveMessage_fails_quiet].
  destruct r1 as [userMsg|e1]; cbv beta iota in Hexec;
    [|cbn in Hexec; by simplify_eq].
  apply exec_step in Hexec
    as (r2&k2&w2&m2&Hq2&Hb2&Halive2&Hst2&Hexec);
    [|done|rewrite Hst1; step_rows; apply (Hfresh 1)|apply Chat_fails_quiet].
  destruct r2 as [aiResponse|e2]; cbv beta iota in Hexec;
    [|cbn in Hexec; by simplify_eq].
  apply exec_step in Hexec
    as (r3&k3&w3&m3&Hq3&Hb3&Halive3&Hst3&Hexec);
    [|done|rewrite Hst2, Hst1; step_rows; apply (Hfresh 2)
     |apply saveMessage_fails_quiet].
  destruct r3 as [assistantMsg|e3]; cbn in Hexec; simplify_eq.
  destruct Hq1 as (_&_&Hm1&Hs1). destruct Hq2 as (_&_&Hm2&Hs2).
  destruct Hq3 as (_&_&Hm3&Hs3).
  apply saveMessage_spec in Hb1 as (_&_&_&Hu&_&_&_&Hmw1&He1).
  apply Chat_spec in Hb2 as (_&_&Hmw2&_&_&He2).
  apply saveMessage_spec in Hb3 as (_&_&_&Ha&_&_&_&Hmw3&He3).
  rewrite <- Hu in Hmw1, He1. rewrite <- Ha in Hmw3, He3.
  cbn [UserMessage AssistantMessage]. split.
  - rewrite He3, successes_ok, Hs3, He2, successes_ok, Hs2, He1,
      successes_ok, Hs1.
    by rewrite <- !app_assoc.
  - by rewrite Hmw3, Hm3, Hmw2, Hm2, Hmw1, Hm1.
Qed.

End chat_app.

(** * The sample data

    From here on the [created_at] columns are those of [sample_column]. *)
#[local] Existing Instance sample_column.

(** C3, as the claim states it, fails: the body of the second step of
    execution [a1] ran twice, before the crash and again on recovery (its
    outcome had not been recorded); the two invocations inserted rows with
    the different ids 1000 and 1001, and the table ends with the user
    message twice. *)
Lemma retry_inserts_duplicate_row :
  invoked "a1" 1 crashed_machine = 1 ∧
  steps (store crashed_machine) !! ("a1", 1) = None ∧
  invoked "a1" 1 recovered_machine = 2 ∧
  select_messages 7%N (messages (world recovered_machine))
    = [ {| ID := 1000%N; ConversationID := 7%N; Role := "user";
           Content := "hi"; CreatedAt := 3800%Z |};
        {| ID := 1001%N; ConversationID := 7%N; Role := "user";
           Content := "hi"; CreatedAt := 3801%Z |};
        {| ID := 1002%N; ConversationID := 7%N; Role := "assistant";
           Content := "hello"; CreatedAt := 3802%Z |} ].
Proof. vm_compute. by split_and!. Qed.

(** ** Instances on the sample data *)

Lemma store_ok_empty : store_ok {| executions := ∅; steps := ∅ |}.
Proof. intros wid n [x Hx]. cbn in Hx. by rewrite lookup_empty in Hx. Qed.

Lemma SendMessageWorkflow_four_steps_witness :
  let r := exec sample_policy "a1" 0 (SendMessageWorkflow sample_input)
             (sample_machine true None) in
  (∃ out, r.1 = Done (out, None) ∧
          Content (UserMessage out) = "hi" ∧
          Content (AssistantMessage out) = "hello" ∧
          invocations r.2 = [("a1", 0); ("a1", 1); ("a1", 2); ("a1", 3)]) ∧
  (∀ n, (4 ≤ n)%nat → steps (store r.2) !! ("a1", n) = None).
Proof.
  intros r.
  destruct (SendMessageWorkflow_four_steps sample_policy "a1" sample_input
              (sample_machine true None) r.1 r.2) as (_&H2&_&H4&H5).
  - reflexivity.
  - intros n. apply lookup_empty.
  - apply surjective_pairing.
  - split; [|exact H2].
    destruct (H5 "{}" "hello" []) as (out&Hout&_&_&Hreply&Hinv&_).
    + intros k. reflexivity.
    + vm_compute. by eexists.
    + reflexivity.
    + reflexivity.
    + vm_compute. discriminate.
    + reflexivity.
    + destruct (H4 out Hout) as (reply&_&_&_&Huser&_).
      exists out. split_and!; assumption.
Defined.

Lemma replay_skip_witness :
  invoked "a1" 0 recovered_machine = invoked "a1" 0 crashed_machine ∧
  steps (store recovered_machine) !! ("a1", 0)
    = Some {| outcome := StepSuccess (VMessages nil_slice);
              attempt_count := 1 |}.
Proof.
  destruct (replay_skip sample_ctx [CallRestart None; CallRecover]
              crashed_machine "a1" 0 (VMessages nil_slice) 1) as (H1&H2&_).
  - vm_compute. reflexivity.
  - split; assumption.
Defined.

Lemma generated_ids_are_fresh_draws_witness :
  uuids_drawn (saveMessage 7%N "user" "hi" (sample_world true)).2 = 1.
Proof.
  destruct (generated_ids_are_fresh_draws 7%N "user" "hi" (sample_world true)
              (saveMessage 7%N "user" "hi" (sample_world true)).1
              (saveMessage 7%N "user" "hi" (sample_world true)).2)
    as (H1&_).
  - apply surjective_pairing.
  - exact H1.
Defined.


Lemma SendMessage_all_or_nothing_witness :
  let r := SendMessage sample_parse sample_handler
             (sample_request "00000000-0000-0000-0000-000000000007")
             (sample_machine false None) in
  r.1 = Some {| code := 500;
                payload :=
                  H_error ("Failed to get AI response: "
                           +:+ chat_send_error "connection refused") |} ∧
  messages (world r.2) !! 1000%N
    = Some {| row_conversation_id := 7%N; row_role := "user";
              row_content := "hi"; row_created_at := 3800%Z |}.
Proof.
  intros r. subst r. split.
  - apply (SendMessage_all_or_nothing sample_parse sample_handler
             (sample_request "00000000-0000-0000-0000-000000000007")
             (sample_machine false None)).
    vm_compute. reflexivity.
  - vm_compute. reflexivity.
Defined.

Lemma status_monotone_single_outcome_witness :
  ∃ e', executions (store recovered_machine) !! "a1" = Some e' ∧
        rtc status_next RUNNING (status e').
Proof.
  destruct (status_monotone_single_outcome sample_ctx
              [CallRestart None; CallRecover] crashed_machine "a1"
              {| workflow_name := SendMessageWorkflow_name;
                 input := encode sample_input; state := Running |})
    as (e'&Hrow&_&_&Hreach&_).
  - vm_compute. reflexivity.
  - exists e'. split; assumption.
Defined.

Lemma SendMessage_rejected_witness :
  ∃ resp m',
    SendMessage sample_parse sample_handler (sample_request "seven")
      (sample_machine true None) = (Some resp, m') ∧
    code resp = 400 ∧ m' = sample_machine true None.
Proof.
  destruct (SendMessage_rejected sample_parse sample_handler
              (sample_request "seven") (sample_machine true None))
    as (resp&m'&Hs&H400&_).
  - left. reflexivity.
  - exists resp, m'. split; [exact Hs|]. apply H400. left. reflexivity.
Defined.

Lemma GetMessages_ListConversations_witness :
  ∃ rows,
    (GetMessages sample_parse
       (sample_request "00000000-0000-0000-0000-000000000007")
       recovered_machine).1
      = Some {| code := 200; payload := JArray (json_Message <$> rows) |} ∧
    StronglySorted created_le rows.
Proof.
  destruct (GetMessages_ListConversations sample_parse
              (sample_request "00000000-0000-0000-0000-000000000007")
              recovered_machine 7%N) as ((rows&Hr&Hs&_)&_).
  - reflexivity.
  - vm_compute. reflexivity.
  - exists rows. split; assumption.
Defined.

Lemma DeleteConversation_idempotent_witness :
  ∃ m',
    DeleteConversation sample_parse sample_handler
      (sample_request "00000000-0000-0000-0000-000000000008")
      (sample_machine true None)
      = (Some {| code := 200; payload := H_message "Conversation deleted" |},
         m').
Proof.
  destruct (DeleteConversation_idempotent sample_parse sample_policy
              (sample_request "00000000-0000-0000-0000-000000000008")
              (sample_machine true None) 8%N) as (_&H).
  - reflexivity.
  - destruct H as (m'&Hd&_).
    + reflexivity.
    + apply store_ok_empty.
    + intros k. reflexivity.
    + exists m'. exact Hd.
Defined.

(** ** Further instances on the sample data *)

Lemma SendMessage_ok_persisted_witness :
  let r := SendMessage sample_parse sample_handler
             (sample_request "00000000-0000-0000-0000-000000000007")
             (sample_machine true None) in
  ∃ user assistant,
    payload <$> r.1
      = Some (json_ChatResponse {| resp_UserMessage := user;
                                   resp_AssistantMessage := assistant |}) ∧
    Content user = "hi" ∧ Role assistant = "assistant" ∧
    messages (world r.2)
      = <[ID assistant := row_of assistant]>
          (<[ID user := row_of user]> ∅).
Proof.
  intros r. subst r.
  destruct (SendMessage sample_parse sample_handler
              (sample_request "00000000-0000-0000-0000-000000000007")
              (sample_machine true None)) as [[resp|] m'] eqn:Hr;
    [|vm_compute in Hr; discriminate].
  destruct (SendMessage_ok_persisted sample_parse sample_policy
              (sample_request "00000000-0000-0000-0000-000000000007")
              (sample_machine true None) resp m')
    as (id&content&user&assistant&_&Hb&_&_&Hp&_&_&Hc&_&Ha&_&_&_&Hm&_).
  - reflexivity.
  - apply store_ok_empty.
  - exact Hr.
  - vm_compute in Hr. by simplify_eq.
  - clear Hr. injection Hb as <-. exists user, assistant.
    change ((Some resp, m').1) with (Some resp).
    change ((Some resp, m').2) with m'.
    split_and!; [by rewrite <- Hp|exact Hc|exact Ha|exact Hm].
Defined.

Lemma SendMessage_failure_rows_witness :
  let r := SendMessage sample_parse sample_handler
             (sample_request "00000000-0000-0000-0000-000000000007")
             (sample_machine false None) in
  conversations (world r.2) = {[ 7%N := 100%Z ]}.
Proof.
  intros r. subst r.
  destruct (SendMessage sample_parse sample_handler
              (sample_request "00000000-0000-0000-0000-000000000007")
              (sample_machine false None)) as [[resp|] m'] eqn:Hr;
    [|vm_compute in Hr; discriminate].
  destruct (SendMessage_failure_rows sample_parse sample_policy
              (sample_request "00000000-0000-0000-0000-000000000007")
              (sample_machine false None) resp m') as (Hc&_).
  - reflexivity.
  - apply store_ok_empty.
  - exact Hr.
  - vm_compute in Hr. by simplify_eq.
  - exact Hc.
Defined.

Lemma SendMessage_no_dedup_witness :
  let c := sample_request "00000000-0000-0000-0000-000000000007" in
  let m1 := (SendMessage sample_parse sample_handler c
               (sample_machine true None)).2 in
  let m2 := (SendMessage sample_parse sample_handler c m1).2 in
  execution_id None (store (sample_machine true None))
    ≠ execution_id None (store m1) ∧
  length (launches m2) = 2.
Proof.
  intros c m1 m2.
  destruct (SendMessage_no_dedup sample_parse sample_policy c
              (sample_machine true None) 7%N {| req_Content := "hi" |}
              (SendMessage sample_parse sample_handler c
                 (sample_machine true None)).1 m1
              (SendMessage sample_parse sample_handler c m1).1 m2)
    as (Hne&Hl&_).
  - reflexivity.
  - apply store_ok_empty.
  - intros k. reflexivity.
  - reflexivity.
  - reflexivity.
  - vm_compute. by eexists.
  - apply surjective_pairing.
  - apply surjective_pairing.
  - split; [exact Hne|]. by rewrite Hl.
Defined.

Lemma SendMessageWorkflow_resumes_witness :
  let m := restart None crashed_machine in
  let r := exec sample_policy "a1" 0 (SendMessageWorkflow sample_input) m in
  invoked "a1" 0 r.2 = invoked "a1" 0 crashed_machine.
Proof.
  intros m r. subst r.
  destruct (exec sample_policy "a1" 0 (SendMessageWorkflow sample_input) m)
    as [[[out [e|]]|] m'] eqn:He;
    [vm_compute in He; discriminate| |vm_compute in He; discriminate].
  destruct (SendMessageWorkflow_resumes sample_policy "a1" sample_input m
              nil_slice out m') as (Hi&_).
  - reflexivity.
  - vm_compute. reflexivity.
  - intros n.
    assert (steps (store m)
            = {[ ("a1", 0) := {| outcome := StepSuccess (VMessages nil_slice);
                                 attempt_count := 1 |} ]}) as ->
      by (vm_compute; reflexivity).
    by apply lookup_singleton_ne.
  - exact He.
  - exact Hi.
Defined.

Lemma saveMessage_then_select_witness :
  conversations (saveMessage 7%N "user" "hi" (sample_world true)).2
    = {[ 7%N := 100%Z ]}.
Proof.
  destruct (saveMessage_then_select 7%N "user" "hi" (sample_world true)
              (saveMessage 7%N "user" "hi" (sample_world true)).1
              (saveMessage 7%N "user" "hi" (sample_world true)).2)
    as (Hc&_).
  - apply surjective_pairing.
  - exact Hc.
Defined.

Lemma getMessages_history_witness :
  messages (getMessages 7%N (sample_world true)).2 = ∅.
Proof.
  destruct (getMessages_history 7%N (sample_world true)
              (getMessages 7%N (sample_world true)).1
              (getMessages 7%N (sample_world true)).2) as (_&Hm&_).
  - apply surjective_pairing.
  - exact Hm.
Defined.

Lemma Chat_result_witness :
  (Chat nil_slice "hi" (sample_world true)).1 = inl "hello" ∧
  length (effects (Chat nil_slice "hi" (sample_world true)).2) = 1.
Proof.
  destruct (Chat_result nil_slice "hi" (sample_world true)
              (Chat nil_slice "hi" (sample_world true)).1
              (Chat nil_slice "hi" (sample_world true)).2)
    as (_&_&_&Hl&Hok&_).
  - apply surjective_pairing.
  - split; [|exact Hl]. apply Hok. by exists "{}", [].
Defined.

Lemma deleteConversation_after_messages_witness :
  (deleteConversation 7%N (sample_world true)).1 = inl true ∧
  conversations (deleteConversation 7%N (sample_world true)).2 = ∅.
Proof.
  destruct (deleteConversation_after_messages 7%N (sample_world true))
    as (_&_&Hfree&_).
  - reflexivity.
  - destruct Hfree as [H1 H2].
    + intros (key&row&Hrow&_). exact (lookup_empty_Some key row Hrow).
    + split; [exact H1|]. rewrite H2. vm_compute. reflexivity.
Defined.

Lemma DeleteConversationWorkflow_effects_witness :
  let r := exec sample_policy "a1" 0 (DeleteConversationWorkflow 7%N)
             (sample_machine true None) in
  conversations (world r.2) !! 7%N = None.
Proof.
  intros r. subst r.
  destruct (exec sample_policy "a1" 0 (DeleteConversationWorkflow 7%N)
              (sample_machine true None)) as [[[ok [e|]]|] m'] eqn:He;
    [vm_compute in He; discriminate| |vm_compute in He; discriminate].
  destruct (DeleteConversationWorkflow_effects sample_policy "a1" 7%N
              (sample_machine true None) ok None m') as (_&_&Hok&_).
  - reflexivity.
  - intros n. apply lookup_empty.
  - exact He.
  - by destruct Hok as (_&Hgone&_).
Defined.

Lemma after_DeleteConversation_witness :
  let c := sample_request "00000000-0000-0000-0000-000000000007" in
  let m' := (DeleteConversation sample_parse sample_handler c
               (sample_machine true None)).2 in
  (GetConversation sample_parse c m').1
    = Some {| code := 404; payload := H_error "Conversation not found" |} ∧
  (SendMessage sample_parse sample_handler c m').1
    = Some {| code := 404; payload := H_error "Conversation not found" |}.
Proof.
  intros c m'.
  destruct (after_DeleteConversation sample_parse sample_policy c
              (sample_machine true None) 7%N
              (DeleteConversation sample_parse sample_handler c
                 (sample_machine true None)).1 m')
    as (_&_&Hget&Hsend&_).
  - reflexivity.
  - reflexivity.
  - apply store_ok_empty.
  - intros k. reflexivity.
  - apply surjective_pairing.
  - split; [exact Hget|].
    by apply (Hsend c {| req_Content := "hi" |}).
Defined.

Lemma CreateConversation_then_read_witness :
  ∃ m',
    CreateConversation sample_handler (sample_machine true None)
      = (Some {| code := 201;
                 payload := json_Conversation {| c_ID := 1000%N;
                                                 c_CreatedAt := 200%Z |} |},
         m') ∧
    conversations (world m') = {[ 7%N := 100%Z; 1000%N := 3800%Z ]}.
Proof.
  destruct (CreateConversation_then_read sample_parse sample_policy
              (sample_machine true None)) as (m'&Hc&_&Hrows&_).
  - reflexivity.
  - apply store_ok_empty.
  - intros k. reflexivity.
  - vm_compute. reflexivity.
  - exists m'. split; [exact Hc|]. rewrite Hrows. vm_compute. reflexivity.
Defined.

Lemma createConversation_twice_witness :
  let w1 := (createConversation (sample_world true)).2 in
  conversations (createConversation w1).2
    = {[ 7%N := 100%Z; 1000%N := 3800%Z; 1001%N := 3801%Z ]}.
Proof.
  intros w1.
  destruct (createConversation w1) as [r2 w2] eqn:H2.
  destruct (createConversation_twice (sample_world true)
              {| c_ID := 1000%N; c_CreatedAt := 200%Z |} w1 r2 w2)
    as (_&_&_&_&Hr).
  - vm_compute. reflexivity.
  - exact H2.
  - destruct r2 as [c2|e]; [|vm_compute in H2; discriminate].
    destruct Hr as (_&_&Hrows&_). cbn [snd]. rewrite Hrows.
    vm_compute in H2. simplify_eq. vm_compute. reflexivity.
Defined.
